(** * Dependency staging in the workflow templates

    A shallow embedding of the stage partitioner that lives, in two copies,
    in [templates/orchestrator.py] ([_calculate_parallel_groups]) and in
    [templates/todo-management.py] ([identify_parallel_opportunities]),
    and of [update_task_status] from the latter file.

    Python values are modelled as follows:
    - [str] is [string];
    - an insertion-ordered [dict] with string keys is an association list
      whose keys are pairwise distinct, in insertion order;
    - a [set] of strings is a [gset string];
    - a raised exception is an explicit outcome, and so is a [while] loop
      that has not finished within the iterations it was granted.

    The partitioner is embedded three times: each copy as a function on
    values, under the names of its source ([Orchestrator], [TodoManagement]);
    their common erasure to ids and dependency lists ([Skeleton]), on which
    the properties are proved once; and, to speak about mutation, as a
    program on a store of objects ([Store]). *)

From Stdlib Require Import Floats.
From stdpp Require Import gmap strings list pretty.

Set Warnings "-register-all,-clear-no-such-hyp".

(** ** Outcomes of a Python computation *)

Inductive exn : Type :=
  | KeyError (key : string)
  | StopIteration
  | AttributeError (what : string)
  | TypeError (what : string).

Inductive outcome (A : Type) : Type :=
  | Returned (a : A)
  | Raised (e : exn)
  | OutOfFuel.
Arguments Returned {A} a.
Arguments Raised {A} e.
Arguments OutOfFuel {A}.

#[global] Instance outcome_ret : MRet outcome := λ A a, Returned a.
#[global] Instance outcome_bind : MBind outcome := λ A B f m,
  match m with
  | Returned a => f a
  | Raised e => Raised e
  | OutOfFuel => OutOfFuel
  end.
#[global] Instance outcome_fmap : FMap outcome := λ A B f m,
  match m with
  | Returned a => Returned (f a)
  | Raised e => Raised e
  | OutOfFuel => OutOfFuel
  end.

(** ** Insertion-ordered dictionaries with string keys *)

Module PyDict.

Abbreviation dict V := (list (string * V)).

Section ops.
Context {V : Type}.

(** [d.keys()], [d.values()] and [d.items()], in insertion order. *)
Definition keys (d : dict V) : list string := d.*1.
Definition values (d : dict V) : list V := d.*2.
Definition items (d : dict V) : list (string * V) := d.

(** [d.get(k)]: the value bound to [k], [None] when there is none. *)
Fixpoint get (k : string) (d : dict V) : option V :=
  match d with
  | [] => None
  | (k', v) :: d' => if decide (k' = k) then Some v else get k d'
  end.

(** [k in d]. *)
Definition contains (k : string) (d : dict V) : bool :=
  bool_decide (k ∈ keys d).

(** [d[k] = v]: an existing key keeps its position and takes the new
    value, a new key goes last. *)
Fixpoint setitem (k : string) (v : V) (d : dict V) : dict V :=
  match d with
  | [] => [(k, v)]
  | (k', v') :: d' =>
      if decide (k' = k) then (k', v) :: d' else (k', v') :: setitem k v d'
  end.

(** The entries left once [k] is unbound. *)
Definition remove (k : string) (d : dict V) : dict V :=
  filter (λ kv, kv.1 ≠ k) d.

(** [del d[k]]: raises [KeyError] when [k] is not bound. *)
Definition delitem (k : string) (d : dict V) : outcome (dict V) :=
  if contains k d then Returned (remove k d) else Raised (KeyError k).

(** [next(iter(d.keys()))]: raises [StopIteration] on the empty dict. *)
Definition first_key (d : dict V) : outcome string :=
  match keys d with
  | [] => Raised StopIteration
  | k :: _ => Returned k
  end.

(** [{key(x): x for x in xs}]. *)
Definition comprehension {A : Type} (key : A → string) (val : A → V)
    (xs : list A) : dict V :=
  foldl (λ d x, setitem (key x) (val x) d) [] xs.
End ops.

(** [{k: f(v) for k, v in d.items()}]. *)
Definition map_values {V W : Type} (f : V → W) (d : dict V) : dict W :=
  (λ kv, (kv.1, f kv.2)) <$> d.

End PyDict.

(** [all(dep in done for dep in deps)]. *)
Definition all_in (done : gset string) (deps : list string) : bool :=
  forallb (λ dep, bool_decide (dep ∈ done)) deps.

(** [f"stage_{stage}"]. *)
Definition stage_label (stage : nat) : string := "stage_" +:+ pretty stage.

(** ** templates/orchestrator.py *)

Module Orchestrator.
Import PyDict.

Inductive AgentType : Type :=
  | GENERAL_PURPOSE | CODEBASE_LOCATOR | CODEBASE_ANALYZER
  | RESEARCH_SYNTHESIZER | WEB_RESEARCH_SPECIALIST | PROBLEM_SOLVER
  | CONTEXT_MANAGER | PARALLEL_COORDINATOR | RESEARCH.

Inductive ExecutionStatus : Type :=
  | PENDING | RUNNING | COMPLETED | FAILED | SKIPPED.

Record AgentExecution : Type := {
  id : string;
  agent_type : AgentType;
  description : string;
  prompt : string;
  status : ExecutionStatus;
  start_time : option string;
  end_time : option string;
  duration : option float;
  result : option string;
  error : option string;
  dependencies : list string
}.

(** The variables of [_calculate_parallel_groups] that live across
    iterations of its [while] loop. *)
Record locals : Type := {
  parallel_groups : dict (list string);
  stage : nat;
  remaining_executions : dict AgentExecution;
  completed_executions : gset string
}.

(** The [for] loop over the snapshot [list(remaining_executions.items())]. *)
Fixpoint scan (snapshot : list (string * AgentExecution))
    (current_stage : list string) (completed_executions : gset string)
    (remaining_executions : dict AgentExecution)
    : outcome (list string * gset string * dict AgentExecution) :=
  match snapshot with
  | [] => Returned (current_stage, completed_executions, remaining_executions)
  | (exec_id, execution) :: snapshot' =>
      if all_in completed_executions (dependencies execution) then
        remaining_executions' ← delitem exec_id remaining_executions;
        scan snapshot' (current_stage ++ [exec_id])
             ({[exec_id]} ∪ completed_executions) remaining_executions'
      else
        scan snapshot' current_stage completed_executions remaining_executions
  end.

(** One iteration of the [while] loop. *)
Definition body (st : locals) : outcome locals :=
  '(current_stage, completed, remaining) ←
    scan (items (remaining_executions st)) []
         (completed_executions st) (remaining_executions st);
  match current_stage with
  | _ :: _ =>
      Returned {|
        parallel_groups :=
          setitem (stage_label (stage st)) current_stage (parallel_groups st);
        stage := S (stage st);
        remaining_executions := remaining;
        completed_executions := completed |}
  | [] =>
      match remaining with
      | _ :: _ =>
          exec_id ← first_key remaining;
          let current_stage := current_stage ++ [exec_id] in
          let completed := {[exec_id]} ∪ completed in
          remaining' ← delitem exec_id remaining;
          Returned {|
            parallel_groups :=
              setitem (stage_label (stage st)) current_stage
                      (parallel_groups st);
            stage := S (stage st);
            remaining_executions := remaining';
            completed_executions := completed |}
      | [] =>
          Returned {|
            parallel_groups := parallel_groups st;
            stage := stage st;
            remaining_executions := remaining;
            completed_executions := completed |}
      end
  end.

(** [while remaining_executions: ...], granted [fuel] iterations. *)
Fixpoint while_remaining (fuel : nat) (st : locals)
    : outcome (dict (list string)) :=
  match remaining_executions st with
  | [] => Returned (parallel_groups st)
  | _ :: _ =>
      match fuel with
      | 0 => OutOfFuel
      | S fuel' => st' ← body st; while_remaining fuel' st'
      end
  end.

Definition _calculate_parallel_groups (fuel : nat)
    (executions : list AgentExecution) : outcome (dict (list string)) :=
  while_remaining fuel {|
    parallel_groups := [];
    stage := 0;
    remaining_executions := comprehension id (λ exec, exec) executions;
    completed_executions := ∅ |}.

(** An execution as [create_execution_plan] builds it from an id and a
    dependency list; the other fields play no part in the staging. *)
Definition pending (i : string) (deps : list string) : AgentExecution := {|
  id := i; agent_type := GENERAL_PURPOSE; description := ""; prompt := "";
  status := PENDING; start_time := None; end_time := None; duration := None;
  result := None; error := None; dependencies := deps |}.

End Orchestrator.

(** ** templates/todo-management.py *)

Module TodoManagement.
Import PyDict.

Record Task : Type := {
  id : string;
  content : string;
  active_form : string;
  status : string;
  dependencies : list string;
  estimated_duration : option Z;
  tags : list string;
  created_at : string
}.

(** The variables of [identify_parallel_opportunities] that live across
    iterations of its [while] loop. *)
Record locals : Type := {
  parallel_groups : dict (list string);
  stage : nat;
  remaining_tasks : dict Task;
  completed_tasks : gset string
}.

(** The [for] loop over the snapshot [list(remaining_tasks.items())]. *)
Fixpoint scan (snapshot : list (string * Task))
    (current_stage : list string) (completed_tasks : gset string)
    (remaining_tasks : dict Task)
    : outcome (list string * gset string * dict Task) :=
  match snapshot with
  | [] => Returned (current_stage, completed_tasks, remaining_tasks)
  | (task_id, task) :: snapshot' =>
      if all_in completed_tasks (dependencies task) then
        remaining_tasks' ← delitem task_id remaining_tasks;
        scan snapshot' (current_stage ++ [task_id])
             ({[task_id]} ∪ completed_tasks) remaining_tasks'
      else
        scan snapshot' current_stage completed_tasks remaining_tasks
  end.

(** One iteration of the [while] loop. *)
Definition body (st : locals) : outcome locals :=
  '(current_stage, completed, remaining) ←
    scan (items (remaining_tasks st)) []
         (completed_tasks st) (remaining_tasks st);
  match current_stage with
  | _ :: _ =>
      Returned {|
        parallel_groups :=
          setitem (stage_label (stage st)) current_stage (parallel_groups st);
        stage := S (stage st);
        remaining_tasks := remaining;
        completed_tasks := completed |}
  | [] =>
      match remaining with
      | _ :: _ =>
          task_id ← first_key remaining;
          let current_stage := current_stage ++ [task_id] in
          let completed := {[task_id]} ∪ completed in
          remaining' ← delitem task_id remaining;
          Returned {|
            parallel_groups :=
              setitem (stage_label (stage st)) current_stage
                      (parallel_groups st);
            stage := S (stage st);
            remaining_tasks := remaining';
            completed_tasks := completed |}
      | [] =>
          Returned {|
            parallel_groups := parallel_groups st;
            stage := stage st;
            remaining_tasks := remaining;
            completed_tasks := completed |}
      end
  end.

(** [while remaining_tasks: ...], granted [fuel] iterations. *)
Fixpoint while_remaining (fuel : nat) (st : locals)
    : outcome (dict (list string)) :=
  match remaining_tasks st with
  | [] => Returned (parallel_groups st)
  | _ :: _ =>
      match fuel with
      | 0 => OutOfFuel
      | S fuel' => st' ← body st; while_remaining fuel' st'
      end
  end.

Definition identify_parallel_opportunities (fuel : nat)
    (tasks : list Task) : outcome (dict (list string)) :=
  while_remaining fuel {|
    parallel_groups := [];
    stage := 0;
    remaining_tasks := comprehension id (λ task, task) tasks;
    completed_tasks := ∅ |}.

(** A task as [Task(id, ..., dependencies=deps)] builds it; the other
    fields play no part in the staging. *)
Definition task_of (i : string) (deps : list string) : Task := {|
  id := i; content := ""; active_form := ""; status := "pending";
  dependencies := deps; estimated_duration := None; tags := [];
  created_at := "" |}.

(** *** The persisted task list *)

(** What [json.load] yields. *)
Inductive json : Type :=
  | JNull
  | JBool (b : bool)
  | JInt (n : Z)
  | JFloat (x : float)
  | JStr (s : string)
  | JList (xs : list json)
  | JDict (d : list (string * json)).

(** [todos.json]: absent, or holding a list of task records. *)
Definition todos_file : Type := option (list (dict json)).

Definition load_todos (file : todos_file) : list (dict json) :=
  match file with
  | Some tasks => tasks
  | None => []
  end.

Definition save_todos (tasks : list (dict json)) : todos_file := Some tasks.

(** [task.get("id") == task_id]. *)
Definition id_is (task_id : string) (task : dict json) : bool :=
  match get "id" task with
  | Some (JStr s) => bool_decide (s = task_id)
  | _ => false
  end.

(** [if log_entry:]. *)
Definition truthy (s : string) : bool :=
  match s with
  | EmptyString => false
  | String _ _ => true
  end.

(** The statements guarded by [if task.get("id") == task_id:], up to the
    [break]. [now_status] and [now_log] are the two readings of
    [datetime.now().isoformat()], in program order. *)
Definition mark (status log_entry now_status now_log : string)
    (task : dict json) : outcome (dict json) :=
  let task := setitem "status" (JStr status) task in
  let task := setitem "updated_at" (JStr now_status) task in
  if truthy log_entry then
    let task :=
      if contains "log" task then task else setitem "log" (JList []) task in
    match get "log" task with
    | Some (JList entries) =>
        Returned
          (setitem "log"
             (JList (entries ++
                [JDict [("timestamp", JStr now_log);
                        ("entry", JStr log_entry)]]))
             task)
    | Some _ => Raised (AttributeError "append")
    | None => Raised (KeyError "log")
    end
  else Returned task.

(** [for task in todos: if ...: ...; break]. *)
Fixpoint for_todos (task_id status log_entry now_status now_log : string)
    (todos : list (dict json)) : outcome (list (dict json)) :=
  match todos with
  | [] => Returned []
  | task :: todos' =>
      if id_is task_id task then
        task' ← mark status log_entry now_status now_log task;
        Returned (task' :: todos')
      else
        todos'' ← for_todos task_id status log_entry now_status now_log todos';
        Returned (task :: todos'')
  end.

(** The file as [update_task_status] leaves it. *)
Definition update_task_status (now_status now_log : string)
    (file : todos_file) (task_id status log_entry : string)
    : outcome todos_file :=
  let todos := load_todos file in
  todos' ← for_todos task_id status log_entry now_status now_log todos;
  Returned (save_todos todos').

End TodoManagement.

(** ** The staging on dependency skeletons

    Both copies of the partitioner read an item only through its id and its
    dependency list. Erasing every other field turns either copy into the
    same program, on dictionaries from ids to dependency lists. *)

Module Skeleton.
Import PyDict.

Record locals : Type := {
  parallel_groups : dict (list string);
  stage : nat;
  remaining : dict (list string);
  completed : gset string
}.

Fixpoint scan (snapshot : list (string * list string))
    (current_stage : list string) (completed : gset string)
    (remaining : dict (list string))
    : outcome (list string * gset string * dict (list string)) :=
  match snapshot with
  | [] => Returned (current_stage, completed, remaining)
  | (item_id, deps) :: snapshot' =>
      if all_in completed deps then
        remaining' ← delitem item_id remaining;
        scan snapshot' (current_stage ++ [item_id])
             ({[item_id]} ∪ completed) remaining'
      else
        scan snapshot' current_stage completed remaining
  end.

(** Closing an iteration whose scan left [current_stage], [completed] and
    [remaining]. *)
Definition close (st : locals) (current_stage : list string)
    (completed : gset string) (remaining : dict (list string))
    : outcome locals :=
  match current_stage with
  | _ :: _ =>
      Returned {|
        parallel_groups :=
          setitem (stage_label (stage st)) current_stage (parallel_groups st);
        stage := S (stage st);
        remaining := remaining;
        completed := completed |}
  | [] =>
      match remaining with
      | _ :: _ =>
          item_id ← first_key remaining;
          remaining' ← delitem item_id remaining;
          Returned {|
            parallel_groups :=
              setitem (stage_label (stage st)) (current_stage ++ [item_id])
                      (parallel_groups st);
            stage := S (stage st);
            remaining := remaining';
            completed := {[item_id]} ∪ completed |}
      | [] =>
          Returned {|
            parallel_groups := parallel_groups st;
            stage := stage st;
            remaining := remaining;
            completed := completed |}
      end
  end.

Definition body (st : locals) : outcome locals :=
  '(current_stage, completed, remaining) ←
    scan (items (remaining st)) [] (completed st) (remaining st);
  close st current_stage completed remaining.

Fixpoint while_remaining (fuel : nat) (st : locals)
    : outcome (dict (list string)) :=
  match remaining st with
  | [] => Returned (parallel_groups st)
  | _ :: _ =>
      match fuel with
      | 0 => OutOfFuel
      | S fuel' => st' ← body st; while_remaining fuel' st'
      end
  end.

Definition initial (work : list (string * list string)) : locals := {|
  parallel_groups := [];
  stage := 0;
  remaining := comprehension fst snd work;
  completed := ∅ |}.

Definition partition (fuel : nat) (work : list (string * list string))
    : outcome (dict (list string)) :=
  while_remaining fuel (initial work).

End Skeleton.

(** The skeleton of an execution, of a task, and of the loop variables. *)
Definition exec_skeleton (e : Orchestrator.AgentExecution)
    : string * list string :=
  (Orchestrator.id e, Orchestrator.dependencies e).

Definition task_skeleton (t : TodoManagement.Task) : string * list string :=
  (TodoManagement.id t, TodoManagement.dependencies t).

Definition exec_locals (st : Orchestrator.locals) : Skeleton.locals := {|
  Skeleton.parallel_groups := Orchestrator.parallel_groups st;
  Skeleton.stage := Orchestrator.stage st;
  Skeleton.remaining :=
    PyDict.map_values Orchestrator.dependencies
      (Orchestrator.remaining_executions st);
  Skeleton.completed := Orchestrator.completed_executions st |}.

Definition task_locals (st : TodoManagement.locals) : Skeleton.locals := {|
  Skeleton.parallel_groups := TodoManagement.parallel_groups st;
  Skeleton.stage := TodoManagement.stage st;
  Skeleton.remaining :=
    PyDict.map_values TodoManagement.dependencies
      (TodoManagement.remaining_tasks st);
  Skeleton.completed := TodoManagement.completed_tasks st |}.

(** ** The staging with every mutable object in a store

    To speak about what a call leaves of the objects it was handed, the
    objects have to be somewhere. Here every mutable Python object is a cell
    of a store and variables hold references to cells. An item cell holds
    the item together with its dependency list. Strings, numbers and the
    snapshot [list(remaining.items())], which is read once and never
    written, are values. The two copies of the partitioner differ in the
    names of their variables only; attribute access is by name, so one
    program on the store stands for both. *)

Module Store.
Import PyDict.

Abbreviation ref := nat.

Inductive object : Type :=
  | Execution (e : Orchestrator.AgentExecution)
  | Task (t : TodoManagement.Task)
  | ObjList (xs : list ref)
  | StrList (xs : list string)
  | StrSet (s : gset string)
  | ObjDict (d : dict ref).

Abbreviation store := (list object).

(** A computation on the store. *)
Definition M (A : Type) : Type := store → outcome (A * store).

#[global] Instance M_ret : MRet M := λ A a h, Returned (a, h).
#[global] Instance M_bind : MBind M := λ A B f m h,
  match m h with
  | Returned (a, h') => f a h'
  | Raised e => Raised e
  | OutOfFuel => OutOfFuel
  end.

Definition lift {A : Type} (o : outcome A) : M A := λ h,
  match o with
  | Returned a => Returned (a, h)
  | Raised e => Raised e
  | OutOfFuel => OutOfFuel
  end.

(** A new object: it takes the next free cell. *)
Definition alloc (o : object) : M ref := λ h, Returned (length h, h ++ [o]).

(** Following a reference. Python has no dangling references; a reference
    to no cell is reported as a [TypeError]. *)
Definition load (r : ref) : M object := λ h,
  match h !! r with
  | Some o => Returned (o, h)
  | None => Raised (TypeError "no object")
  end.

(** Mutating the object behind a reference. *)
Definition update (r : ref) (o : object) : M unit := λ h,
  Returned (tt, <[r := o]> h).

(** [o.id] and [o.dependencies]. *)
Definition attr_id (o : object) : outcome string :=
  match o with
  | Execution e => Returned (Orchestrator.id e)
  | Task t => Returned (TodoManagement.id t)
  | _ => Raised (AttributeError "id")
  end.

Definition attr_dependencies (o : object) : outcome (list string) :=
  match o with
  | Execution e => Returned (Orchestrator.dependencies e)
  | Task t => Returned (TodoManagement.dependencies t)
  | _ => Raised (AttributeError "dependencies")
  end.

Definition as_obj_list (o : object) : outcome (list ref) :=
  match o with ObjList xs => Returned xs | _ => Raised (TypeError "list") end.

Definition as_str_list (o : object) : outcome (list string) :=
  match o with StrList xs => Returned xs | _ => Raised (TypeError "list") end.

Definition as_str_set (o : object) : outcome (gset string) :=
  match o with StrSet s => Returned s | _ => Raised (TypeError "set") end.

Definition as_obj_dict (o : object) : outcome (dict ref) :=
  match o with ObjDict d => Returned d | _ => Raised (TypeError "dict") end.

(** [l.append(s)], [c.add(s)], [del d[k]] and [d[k] = v] on the objects
    behind the references [l], [c] and [d]. *)
Definition list_append (l : ref) (s : string) : M unit :=
  o ← load l; xs ← lift (as_str_list o); update l (StrList (xs ++ [s])).

Definition set_add (c : ref) (s : string) : M unit :=
  o ← load c; done ← lift (as_str_set o); update c (StrSet ({[s]} ∪ done)).

Definition dict_delitem (d : ref) (k : string) : M unit :=
  o ← load d; entries ← lift (as_obj_dict o);
  entries' ← lift (delitem k entries); update d (ObjDict entries').

Definition dict_setitem (d : ref) (k : string) (v : ref) : M unit :=
  o ← load d; entries ← lift (as_obj_dict o);
  update d (ObjDict (setitem k v entries)).

(** [{item.id: item for item in items}], as a new dict object. *)
Fixpoint index_by_id (items : list ref) (entries : dict ref) : M (dict ref) :=
  match items with
  | [] => mret entries
  | item :: items' =>
      o ← load item; item_id ← lift (attr_id o);
      index_by_id items' (setitem item_id item entries)
  end.

(** The [for] loop over the snapshot of the remaining items. *)
Fixpoint scan (snapshot : list (string * ref))
    (current_stage completed remaining : ref) : M unit :=
  match snapshot with
  | [] => mret tt
  | (item_id, item) :: snapshot' =>
      o ← load item; deps ← lift (attr_dependencies o);
      c ← load completed; done ← lift (as_str_set c);
      if all_in done deps then
        list_append current_stage item_id;;
        set_add completed item_id;;
        dict_delitem remaining item_id;;
        scan snapshot' current_stage completed remaining
      else
        scan snapshot' current_stage completed remaining
  end.

(** One iteration of the [while] loop; it yields the next value of
    [stage]. *)
Definition body (parallel_groups remaining completed : ref) (stage : nat)
    : M nat :=
  current_stage ← alloc (StrList []);
  r ← load remaining; entries ← lift (as_obj_dict r);
  scan (items entries) current_stage completed remaining;;
  c ← load current_stage; placed ← lift (as_str_list c);
  match placed with
  | _ :: _ =>
      dict_setitem parallel_groups (stage_label stage) current_stage;;
      mret (S stage)
  | [] =>
      r ← load remaining; entries ← lift (as_obj_dict r);
      match entries with
      | _ :: _ =>
          item_id ← lift (first_key entries);
          list_append current_stage item_id;;
          set_add completed item_id;;
          dict_delitem remaining item_id;;
          dict_setitem parallel_groups (stage_label stage) current_stage;;
          mret (S stage)
      | [] => mret stage
      end
  end.

Fixpoint while_remaining (fuel : nat)
    (parallel_groups remaining completed : ref) (stage : nat) : M ref :=
  r ← load remaining; entries ← lift (as_obj_dict r);
  match entries with
  | [] => mret parallel_groups
  | _ :: _ =>
      match fuel with
      | 0 => lift OutOfFuel
      | S fuel' =>
          stage' ← body parallel_groups remaining completed stage;
          while_remaining fuel' parallel_groups remaining completed stage'
      end
  end.

(** The partitioner, handed a reference to the list of items; it returns
    a reference to the dict of stages. *)
Definition stage_items (fuel : nat) (items : ref) : M ref :=
  parallel_groups ← alloc (ObjDict []);
  l ← load items; refs ← lift (as_obj_list l);
  entries ← index_by_id refs [];
  remaining ← alloc (ObjDict entries);
  completed ← alloc (StrSet ∅);
  while_remaining fuel parallel_groups remaining completed 0.

(** Reading a dict of lists of strings out of the store. *)
Definition str_list_at (h : store) (r : ref) : option (list string) :=
  match h !! r with
  | Some (StrList xs) => Some xs
  | _ => None
  end.

Definition groups_at (h : store) (r : ref) : option (dict (list string)) :=
  match h !! r with
  | Some (ObjDict d) => mapM (λ kv, g ← str_list_at h kv.2; Some (kv.1, g)) d
  | _ => None
  end.

(** The id and the dependency list an item cell holds. *)
Definition item_skeleton (o : object) : option (string * list string) :=
  match o with
  | Execution e => Some (exec_skeleton e)
  | Task t => Some (task_skeleton t)
  | _ => None
  end.

End Store.

(** ** Functions and inputs used to state the properties *)

(** What a scan returns, with the remaining items erased to their
    dependency lists. *)
Definition erase_scan {V : Type} (f : V → list string)
    (r : list string * gset string * PyDict.dict V)
    : list string * gset string * PyDict.dict (list string) :=
  (r.1.1, r.1.2, PyDict.map_values f r.2).

(** The ids a scan over [snapshot] appends to [current_stage], given the
    ids completed before it: an id counts as completed for the entries that
    come after it in the very same scan. *)
Fixpoint ready (snapshot : list (string * list string)) (completed : gset string)
    : list string :=
  match snapshot with
  | [] => []
  | (item_id, deps) :: snapshot' =>
      if all_in completed deps
      then item_id :: ready snapshot' ({[item_id]} ∪ completed)
      else ready snapshot' completed
  end.

(** The stage an iteration files: what the scan placed or, when it placed
    nothing, the first remaining id. *)
Definition next_stage (remaining : PyDict.dict (list string))
    (completed : gset string) : list string :=
  match ready remaining completed with
  | [] => take 1 (PyDict.keys remaining)
  | placed => placed
  end.

(** The entries of [d] whose key is not in [placed]. *)
Definition without {V : Type} (placed : list string) (d : PyDict.dict V)
    : PyDict.dict V :=
  filter (λ kv, kv.1 ∉ placed) d.

(** The stages filed from [remaining] on, one per iteration. *)
Fixpoint stages (fuel : nat) (remaining : PyDict.dict (list string))
    (completed : gset string) : list (list string) :=
  match remaining, fuel with
  | [], _ | _, 0 => []
  | _ :: _, S fuel' =>
      let g := next_stage remaining completed in
      g :: stages fuel' (without g remaining) (list_to_set g ∪ completed)
  end.

(** Stages under their labels, counting from [start]. *)
Fixpoint labelled (start : nat) (groups : list (list string))
    : PyDict.dict (list string) :=
  match groups with
  | [] => []
  | g :: groups' => (stage_label start, g) :: labelled (S start) groups'
  end.

(** [run] returns [a] whenever it is granted at least [bound] iterations. *)
Definition returns_within {A : Type} (run : nat → outcome A) (bound : nat)
    (a : A) : Prop :=
  ∀ fuel, bound ≤ fuel → run fuel = Returned a.

(** The plan at the bottom of [orchestrator.py], by ids and dependencies. *)
Definition auth_analysis : list Orchestrator.AgentExecution :=
  [ Orchestrator.pending "locate-auth" [];
    Orchestrator.pending "analyze-auth" ["locate-auth"];
    Orchestrator.pending "research-jwt" [];
    Orchestrator.pending "synthesize" ["analyze-auth"; "research-jwt"] ].

(** The tasks [generate_execution_plan] decomposes an authentication
    problem into, by ids and dependencies. *)
Definition auth_tasks : list TodoManagement.Task :=
  [ TodoManagement.task_of "auth-1" [];
    TodoManagement.task_of "auth-2" [];
    TodoManagement.task_of "auth-3" [];
    TodoManagement.task_of "auth-4" [];
    TodoManagement.task_of "auth-5" ["auth-1"; "auth-2"; "auth-3"] ].

(** The first four of them, which depend on nothing. *)
Definition auth_tasks_independent : list TodoManagement.Task := take 4 auth_tasks.

(** a, then b and c that depend on a, then d that depends on b and c. *)
Definition diamond : list (string * list string) :=
  [("a", []); ("b", ["a"]); ("c", ["a"]); ("d", ["b"; "c"])].

(** A depends on B and B depends on A. *)
Definition two_cycle : list (string * list string) :=
  [("A", ["B"]); ("B", ["A"])].

(** Pending executions, resp. tasks, with the given ids and dependency
    lists. *)
Definition as_executions (work : list (string * list string))
    : list Orchestrator.AgentExecution :=
  (λ w, Orchestrator.pending w.1 w.2) <$> work.

Definition as_tasks (work : list (string * list string))
    : list TodoManagement.Task :=
  (λ w, TodoManagement.task_of w.1 w.2) <$> work.

(** The index of the stage that holds [item_id]. *)
Fixpoint stage_of (item_id : string) (groups : list (list string)) : option nat :=
  match groups with
  | [] => None
  | g :: groups' =>
      if bool_decide (item_id ∈ g) then Some 0 else S <$> stage_of item_id groups'
  end.

(** The first iteration on the two-item cycle: nothing is ready. *)
Definition stalled : Orchestrator.locals := {|
  Orchestrator.parallel_groups := [];
  Orchestrator.stage := 0;
  Orchestrator.remaining_executions :=
    [("A", Orchestrator.pending "A" ["B"]); ("B", Orchestrator.pending "B" ["A"])];
  Orchestrator.completed_executions := ∅ |}.

(** The entries already logged on a record: none when it has no ["log"],
    undefined when its ["log"] is not a list. *)
Definition logged (task : PyDict.dict TodoManagement.json)
    : option (list TodoManagement.json) :=
  match PyDict.get "log" task with
  | None => Some []
  | Some (TodoManagement.JList entries) => Some entries
  | Some _ => None
  end.

(** The entry [update_task_status] appends. *)
Definition log_record (now_log log_entry : string) : TodoManagement.json :=
  TodoManagement.JDict
    [("timestamp", TodoManagement.JStr now_log);
     ("entry", TodoManagement.JStr log_entry)].

(** A file with two records, the second of which has id ["b"]. *)
Definition two_todos : TodoManagement.todos_file :=
  Some [ [("id", TodoManagement.JStr "a"); ("status", TodoManagement.JStr "pending")];
         [("id", TodoManagement.JStr "b"); ("status", TodoManagement.JStr "pending");
          ("tags", TodoManagement.JList [])] ].

(** What the call leaves in the file for id ["b"]. *)
Definition two_todos_updated : TodoManagement.todos_file :=
  Some [ [("id", TodoManagement.JStr "a"); ("status", TodoManagement.JStr "pending")];
         [("id", TodoManagement.JStr "b"); ("status", TodoManagement.JStr "completed");
          ("tags", TodoManagement.JList []);
          ("updated_at", TodoManagement.JStr "t1");
          ("log", TodoManagement.JList [log_record "t2" "done"])] ].

(** The items a list object holds, by their skeletons. *)
Definition holds_item (h : Store.store) (r : Store.ref)
    (w : string * list string) : Prop :=
  ∃ o, h !! r = Some o ∧ Store.item_skeleton o = Some w.

(** A dict of item references, read through the store. *)
Definition resolves (h : Store.store) (d : PyDict.dict Store.ref)
    (sk : PyDict.dict (list string)) : Prop :=
  Forall2 (λ kr kd, kr.1 = kd.1 ∧ ∃ w, holds_item h kr.2 w ∧ w.2 = kd.2) d sk.

(** The references under which the stages are filed: stage [j] lives in the
    [j]-th cell after [base]. *)
Definition stage_refs (base : nat) (count : nat) : PyDict.dict Store.ref :=
  (λ j, (stage_label j, base + j)) <$> seq 0 count.

(** The shape of the store at the head of the loop, [n0] cells in. *)
Record loop_shape (h0 h : Store.store) (stage : nat)
    (groups : list (list string)) (entries : PyDict.dict Store.ref)
    (completed : gset string) : Prop := {
  shape_length : length h = length h0 + 3 + stage;
  shape_groups_length : length groups = stage;
  shape_old : ∀ i, i < length h0 → h !! i = h0 !! i;
  shape_parallel_groups :
    h !! length h0 = Some (Store.ObjDict (stage_refs (length h0 + 3) stage));
  shape_remaining : h !! (length h0 + 1) = Some (Store.ObjDict entries);
  shape_completed : h !! (length h0 + 2) = Some (Store.StrSet completed);
  shape_stages :
    ∀ j g, groups !! j = Some g → h !! (length h0 + 3 + j) = Some (Store.StrList g)
}.

(** A list object at [items] that holds the given executions, in order. *)
Definition holds_executions (h : Store.store) (items : Store.ref)
    (executions : list Orchestrator.AgentExecution) : Prop :=
  ∃ refs,
    h !! items = Some (Store.ObjList refs)
    ∧ Forall2 (λ r e, h !! r = Some (Store.Execution e)) refs executions.

(** A list object at [items] that holds the given tasks, in order. *)
Definition holds_tasks (h : Store.store) (items : Store.ref)
    (tasks : list TodoManagement.Task) : Prop :=
  ∃ refs,
    h !! items = Some (Store.ObjList refs)
    ∧ Forall2 (λ r t, h !! r = Some (Store.Task t)) refs tasks.

(** A store with the two-item cycle, an unrelated set, and the list of the
    two items, given B first. *)
Definition cycle_store : Store.store :=
  [ Store.Execution (Orchestrator.pending "A" ["B"]);
    Store.StrSet {["unrelated"]};
    Store.Execution (Orchestrator.pending "B" ["A"]);
    Store.ObjList [2; 0] ].

(** * More of the code *)

(** [ranked rank work]: every dependency of an item of [work] is the id of
    an item of [work] of smaller rank. Such a [rank] exists exactly when the
    dependencies stay among the items and form no cycle. *)
Definition ranked (rank : string → nat) (work : list (string * list string))
    : Prop :=
  Forall (λ w, Forall (λ dep, dep ∈ work.*1 ∧ rank dep < rank w.1) w.2) work.

(** Every dependency of an item is the id of an item listed before it. *)
Fixpoint listed_after_dependencies (seen : list string)
    (work : list (string * list string)) : Prop :=
  match work with
  | [] => True
  | w :: work' =>
      Forall (λ dep, dep ∈ seen) w.2
      ∧ listed_after_dependencies (seen ++ [w.1]) work'
  end.

(** Every dependency of a remaining item is completed, or remains with a
    smaller rank. *)
Definition waits_on_smaller (rank : string → nat)
    (rem : PyDict.dict (list string)) (comp : gset string) : Prop :=
  ∀ x deps dep, (x, deps) ∈ rem → dep ∈ deps →
    dep ∈ comp ∨ (dep ∈ PyDict.keys rem ∧ rank dep < rank x).

(** The diamond listed from d back to a, and a ranking of its ids. *)
Definition diamond_reversed : list (string * list string) := reverse diamond.

Definition diamond_rank (item_id : string) : nat :=
  if decide (item_id = "a") then 0 else if decide (item_id = "d") then 2 else 1.

(** What one call adds to the log of the record it updates. *)
Definition logged_by (log_entry now_log : string) : list TodoManagement.json :=
  if TodoManagement.truthy log_entry then [log_record now_log log_entry] else [].

(** Two calls of [update_task_status] in a row, the second on the file the
    first one wrote. *)
Definition update_twice (now1 now2 now3 now4 : string)
    (file : TodoManagement.todos_file)
    (id1 status1 log1 id2 status2 log2 : string)
    : outcome TodoManagement.todos_file :=
  file' ← TodoManagement.update_task_status now1 now2 file id1 status1 log1;
  TodoManagement.update_task_status now3 now4 file' id2 status2 log2.

(** ** templates/todo-management.py: the other methods of [TodoManager] *)
Module TodoManager.
Import PyDict.

(** [needle in hay], on strings. *)
Fixpoint is_substring (needle hay : string) : bool :=
  String.prefix needle hay
  || match hay with
     | EmptyString => false
     | String _ hay' => is_substring needle hay'
     end.

(** [d[k]]: raises [KeyError] when [k] is not bound. *)
Definition getitem {V : Type} (k : string) (d : dict V) : outcome V :=
  match get k d with
  | Some v => Returned v
  | None => Raised (KeyError k)
  end.

(** What the module draws from its surroundings: the successive readings
    of [datetime.now().isoformat()] and of [str(uuid.uuid4())]. *)
Record surroundings : Type := {
  now : nat → string;
  uuid4 : nat → string
}.

(** [Task(id, content, active_form, tags=tags)], with [__post_init__]:
    [dependencies] and [tags] left at [None] become [[]], and [created_at]
    is the time of construction. *)
Definition Task_init (created : string) (id content active_form : string)
    (dependencies tags : option (list string)) : TodoManagement.Task := {|
  TodoManagement.id := id;
  TodoManagement.content := content;
  TodoManagement.active_form := active_form;
  TodoManagement.status := "pending";
  TodoManagement.dependencies := default [] dependencies;
  TodoManagement.estimated_duration := None;
  TodoManagement.tags := default [] tags;
  TodoManagement.created_at := created |}.

Definition _task_to_dict (task : TodoManagement.Task) : dict TodoManagement.json :=
  [ ("id", TodoManagement.JStr (TodoManagement.id task));
    ("content", TodoManagement.JStr (TodoManagement.content task));
    ("activeForm", TodoManagement.JStr (TodoManagement.active_form task));
    ("status", TodoManagement.JStr (TodoManagement.status task));
    ("dependencies",
       TodoManagement.JList (TodoManagement.JStr <$> TodoManagement.dependencies task));
    ("estimated_duration",
       match TodoManagement.estimated_duration task with
       | Some n => TodoManagement.JInt n
       | None => TodoManagement.JNull
       end);
    ("tags", TodoManagement.JList (TodoManagement.JStr <$> TodoManagement.tags task));
    ("created_at", TodoManagement.JStr (TodoManagement.created_at task)) ].

(** The list comprehension of [get_claude_todo_format]; the three lookups
    of an element are made in the order content, status, activeForm. *)
Fixpoint get_claude_todo_format (tasks : list (dict TodoManagement.json))
    : outcome (list (dict TodoManagement.json)) :=
  match tasks with
  | [] => Returned []
  | task :: tasks' =>
      content ← getitem "content" task;
      status ← getitem "status" task;
      active_form ← getitem "activeForm" task;
      rest ← get_claude_todo_format tasks';
      Returned ([("content", content); ("status", status);
                 ("activeForm", active_form)] :: rest)
  end.

(** The dict [generate_execution_plan] returns. *)
Record plan : Type := {
  problem : string;
  context : string;
  created_at : string;
  tasks : list (dict TodoManagement.json);
  parallel_groups : dict (list string)
}.

(** The tasks of the two branches; [created k] is the time at which the
    [k]-th task is constructed. *)
Definition authentication_tasks (created : nat → string)
    : list TodoManagement.Task :=
  [ Task_init (created 0) "auth-1" "Design user authentication model"
      "Designing user authentication model" None (Some ["architecture"; "auth"]);
    Task_init (created 1) "auth-2" "Implement JWT token handling"
      "Implementing JWT token handling" None (Some ["implementation"; "auth"]);
    Task_init (created 2) "auth-3" "Create login/logout endpoints"
      "Creating login/logout endpoints" None (Some ["api"; "auth"]);
    Task_init (created 3) "auth-4" "Add authentication middleware"
      "Adding authentication middleware" None (Some ["middleware"; "auth"]);
    Task_init (created 4) "auth-5" "Write authentication tests"
      "Writing authentication tests" (Some ["auth-1"; "auth-2"; "auth-3"])
      (Some ["testing"; "auth"]) ].

Definition generic_tasks (created : nat → string) (fresh : nat → string)
    (problem : string) : list TodoManagement.Task :=
  [ Task_init (created 0) (fresh 0) ("Analyze requirements for: " +:+ problem)
      ("Analyzing requirements for: " +:+ problem) None (Some ["analysis"]);
    Task_init (created 1) (fresh 1) "Design solution architecture"
      "Designing solution architecture" None (Some ["architecture"]);
    Task_init (created 2) (fresh 2) "Implement core functionality"
      "Implementing core functionality" None (Some ["implementation"]);
    Task_init (created 3) (fresh 3) "Add comprehensive tests"
      "Adding comprehensive tests" None (Some ["testing"]);
    Task_init (created 4) (fresh 4) "Review and optimize"
      "Reviewing and optimizing" None (Some ["review"]) ].

(** [generate_execution_plan]. [str_lower] is Python's [str.lower]; the
    first reading of the clock dates the plan, the next five the tasks. *)
Definition generate_execution_plan (fuel : nat) (str_lower : string → string)
    (env : surroundings) (problem context : string) : outcome plan :=
  let created_at := now env 0 in
  let tasks :=
    if is_substring "authentication" (str_lower problem)
    then authentication_tasks (λ k, now env (S k))
    else generic_tasks (λ k, now env (S k)) (uuid4 env) problem in
  groups ← TodoManagement.identify_parallel_opportunities fuel tasks;
  Returned {|
    problem := problem;
    context := context;
    created_at := created_at;
    tasks := _task_to_dict <$> tasks;
    parallel_groups := groups |}.

End TodoManager.

(** The three keys [get_claude_todo_format] reads. *)
Definition has_todo_keys (task : PyDict.dict TodoManagement.json) : Prop :=
  is_Some (PyDict.get "content" task)
  ∧ is_Some (PyDict.get "status" task)
  ∧ is_Some (PyDict.get "activeForm" task).

(** The id a record carries, when it is a string. *)
Definition id_of (task : PyDict.dict TodoManagement.json) : option string :=
  match PyDict.get "id" task with
  | Some (TodoManagement.JStr s) => Some s
  | _ => None
  end.

(** How [get_claude_todo_format] shows a task, with a given status. *)
Definition todo_view (status : string) (task : TodoManagement.Task)
    : PyDict.dict TodoManagement.json :=
  [ ("content", TodoManagement.JStr (TodoManagement.content task));
    ("status", TodoManagement.JStr status);
    ("activeForm", TodoManagement.JStr (TodoManagement.active_form task)) ].

(** Surroundings whose k-th readings are "t" and "u" followed by k. *)
Definition counting : TodoManager.surroundings := {|
  TodoManager.now := λ k, "t" +:+ pretty k;
  TodoManager.uuid4 := λ k, "u" +:+ pretty k |}.

(** ** templates/orchestrator.py: the other methods of [AgentOrchestrator] *)
Module AgentOrchestrator.
Import Stdlib.Strings.Ascii PyDict.

(** What a call can raise: the exceptions met so far, and [ValueError]. *)
Inductive raised : Type :=
  | Exn (e : exn)
  | ValueError (what : string).

(** How a call ends: with a value, with an exception, or short of loop
    iterations. *)
Inductive attempt (A : Type) : Type :=
  | Finished (a : A)
  | Raises (e : raised)
  | Unfinished.
Arguments Finished {A} a.
Arguments Raises {A} e.
Arguments Unfinished {A}.

#[global] Instance attempt_ret : MRet attempt := λ A a, Finished a.
#[global] Instance attempt_bind : MBind attempt := λ A B f m,
  match m with
  | Finished a => f a
  | Raises e => Raises e
  | Unfinished => Unfinished
  end.

Definition of_outcome {A : Type} (o : outcome A) : attempt A :=
  match o with
  | Returned a => Finished a
  | Raised e => Raises (Exn e)
  | OutOfFuel => Unfinished
  end.

(** *** Enum values *)

Definition AgentType_value (t : Orchestrator.AgentType) : string :=
  match t with
  | Orchestrator.GENERAL_PURPOSE => "general-purpose"
  | Orchestrator.CODEBASE_LOCATOR => "codebase-locator"
  | Orchestrator.CODEBASE_ANALYZER => "codebase-analyzer"
  | Orchestrator.RESEARCH_SYNTHESIZER => "research-synthesizer"
  | Orchestrator.WEB_RESEARCH_SPECIALIST => "web-research-specialist"
  | Orchestrator.PROBLEM_SOLVER => "problem-solver"
  | Orchestrator.CONTEXT_MANAGER => "context-manager"
  | Orchestrator.PARALLEL_COORDINATOR => "parallel-coordinator"
  | Orchestrator.RESEARCH => "research"
  end.

Definition agent_types : list Orchestrator.AgentType :=
  [ Orchestrator.GENERAL_PURPOSE; Orchestrator.CODEBASE_LOCATOR;
    Orchestrator.CODEBASE_ANALYZER; Orchestrator.RESEARCH_SYNTHESIZER;
    Orchestrator.WEB_RESEARCH_SPECIALIST; Orchestrator.PROBLEM_SOLVER;
    Orchestrator.CONTEXT_MANAGER; Orchestrator.PARALLEL_COORDINATOR;
    Orchestrator.RESEARCH ].

(** [AgentType(value)]: the member with that value, [ValueError] when there
    is none. *)
Definition AgentType_of (value : string) : attempt Orchestrator.AgentType :=
  match filter (λ t, AgentType_value t = value) agent_types with
  | t :: _ => Finished t
  | [] => Raises (ValueError value)
  end.

Definition ExecutionStatus_value (s : Orchestrator.ExecutionStatus) : string :=
  match s with
  | Orchestrator.PENDING => "pending"
  | Orchestrator.RUNNING => "running"
  | Orchestrator.COMPLETED => "completed"
  | Orchestrator.FAILED => "failed"
  | Orchestrator.SKIPPED => "skipped"
  end.

(** *** [create_execution_plan] *)

(** One dict of the [executions] argument, as far as the method reads it:
    each of the five keys is absent or holds a value of the type the
    dataclass declares for it. *)
Record exec_data : Type := {
  data_id : option string;
  data_agent_type : option string;
  data_description : option string;
  data_prompt : option string;
  data_dependencies : option (list string)
}.

Record ExecutionPlan : Type := {
  name : string;
  description : string;
  executions : list Orchestrator.AgentExecution;
  parallel_groups : dict (list string);
  created_at : string;
  estimated_duration : option Z
}.

(** [exec_data[key]] for a key held in [field]. *)
Definition required {A : Type} (key : string) (field : option A) : attempt A :=
  match field with
  | Some v => Finished v
  | None => Raises (Exn (KeyError key))
  end.

(** [AgentExecution(id=..., ...)] for the [i]-th dict; the arguments are
    evaluated in the order they are written. *)
Definition new_execution (i : nat) (data : exec_data)
    : attempt Orchestrator.AgentExecution :=
  let id := default ("exec-" +:+ pretty i) (data_id data) in
  agent_type_value ← required "agent_type" (data_agent_type data);
  agent_type ← AgentType_of agent_type_value;
  description ← required "description" (data_description data);
  prompt ← required "prompt" (data_prompt data);
  Finished {|
    Orchestrator.id := id;
    Orchestrator.agent_type := agent_type;
    Orchestrator.description := description;
    Orchestrator.prompt := prompt;
    Orchestrator.status := Orchestrator.PENDING;
    Orchestrator.start_time := None;
    Orchestrator.end_time := None;
    Orchestrator.duration := None;
    Orchestrator.result := None;
    Orchestrator.error := None;
    Orchestrator.dependencies := default [] (data_dependencies data) |}.

(** [for i, exec_data in enumerate(executions): ...append(execution)],
    counting from [i]. *)
Fixpoint new_executions (i : nat) (executions : list exec_data)
    : attempt (list Orchestrator.AgentExecution) :=
  match executions with
  | [] => Finished []
  | data :: executions' =>
      execution ← new_execution i data;
      agent_executions ← new_executions (S i) executions';
      Finished (execution :: agent_executions)
  end.

(** [now] is the reading of [datetime.now().isoformat()]. *)
Definition create_execution_plan (fuel : nat) (now : string)
    (name description : string) (executions : list exec_data)
    : attempt ExecutionPlan :=
  agent_executions ← new_executions 0 executions;
  parallel_groups ←
    of_outcome (Orchestrator._calculate_parallel_groups fuel agent_executions);
  Finished {|
    name := name;
    description := description;
    executions := agent_executions;
    parallel_groups := parallel_groups;
    created_at := now;
    estimated_duration := None |}.

(** *** [generate_claude_tasks] *)

(** The characters a string literal cannot hold as they are. *)
Definition quote : string := String "034" EmptyString.
Definition newline : string := String "010" EmptyString.

(** [s.replace(old, new)] for one-character [old] and [new]. *)
Fixpoint replace_char (old new : Ascii.ascii) (s : string) : string :=
  match s with
  | EmptyString => EmptyString
  | String c s' =>
      String (if decide (c = old) then new else c) (replace_char old new s')
  end.

(** [next(exec for exec in executions if exec.id == exec_id)]. *)
Definition first_with_id (exec_id : string)
    (executions : list Orchestrator.AgentExecution)
    : attempt Orchestrator.AgentExecution :=
  match filter (λ e, Orchestrator.id e = exec_id) executions with
  | execution :: _ => Finished execution
  | [] => Raises (Exn StopIteration)
  end.

Definition task_command (execution : Orchestrator.AgentExecution) : string :=
  "Task(subagent_type=" +:+ quote
    +:+ AgentType_value (Orchestrator.agent_type execution) +:+ quote +:+ ","
    +:+ newline +:+ "     description=" +:+ quote
    +:+ Orchestrator.description execution +:+ quote +:+ ","
    +:+ newline +:+ "     prompt=" +:+ quote
    +:+ Orchestrator.prompt execution +:+ quote +:+ ")".

(** The inner loop: one command per id of a stage. *)
Fixpoint stage_commands (executions : list Orchestrator.AgentExecution)
    (execution_ids : list string) : attempt (list string) :=
  match execution_ids with
  | [] => Finished []
  | exec_id :: execution_ids' =>
      execution ← first_with_id exec_id executions;
      commands ← stage_commands executions execution_ids';
      Finished (task_command execution :: commands)
  end.

(** The outer loop. [str_title] is Python's [str.title]. *)
Fixpoint plan_commands (str_title : string → string)
    (executions : list Orchestrator.AgentExecution)
    (groups : list (string * list string)) : attempt (list string) :=
  match groups with
  | [] => Finished []
  | (stage_name, execution_ids) :: groups' =>
      let header := "# " +:+ str_title (replace_char "_" " " stage_name) in
      commands ← stage_commands executions execution_ids;
      rest ← plan_commands str_title executions groups';
      Finished (header :: commands ++ "" :: rest)
  end.

Definition generate_claude_tasks (str_title : string → string)
    (plan : ExecutionPlan) : attempt (list string) :=
  plan_commands str_title (executions plan) (items (parallel_groups plan)).

(** *** [execute_plan] *)

(** [range(start, stop, step)]. *)
Fixpoint range_up (fuel : nat) (i stop step : Z) : list Z :=
  match fuel with
  | 0 => []
  | S fuel' => if (i <? stop)%Z then i :: range_up fuel' (i + step)%Z stop step else []
  end.

Fixpoint range_down (fuel : nat) (i stop step : Z) : list Z :=
  match fuel with
  | 0 => []
  | S fuel' => if (stop <? i)%Z then i :: range_down fuel' (i + step)%Z stop step else []
  end.

Definition py_range (start stop step : Z) : attempt (list Z) :=
  if decide (step = 0)%Z then Raises (ValueError "range() arg 3 must not be zero")
  else if decide (0 < step)%Z then
    Finished (range_up (Z.to_nat (stop - start)) start stop step)
  else Finished (range_down (Z.to_nat (start - stop)) start stop step).

(** [l[i:j]]: a negative index counts from the end, and both indices are
    brought back into the list. *)
Definition slice_index (len : nat) (i : Z) : nat :=
  if decide (i < 0)%Z then Z.to_nat (i + Z.of_nat len)
  else Nat.min (Z.to_nat i) len.

Definition py_slice {A : Type} (l : list A) (i j : Z) : list A :=
  let a := slice_index (length l) i in
  let b := slice_index (length l) j in
  take (b - a) (drop a l).

(** [[l[i:i + size] for i in range(0, len(l), size)]]. *)
Definition chunks {A : Type} (l : list A) (size : Z) : attempt (list (list A)) :=
  starts ← py_range 0 (Z.of_nat (length l)) size;
  Finished ((λ i, py_slice l i (i + size)%Z) <$> (starts : list Z)).

(** What [execute_plan] draws from its surroundings: the [k]-th reading of
    [datetime.now()], as [isoformat()] and as [strftime('%Y%m%d-%H%M%S')]
    render it; the [k]-th reading of [time.time()]; the [k]-th draw of
    [random.uniform(1, 5)] and of [random.random()]. *)
Record surroundings : Type := {
  now_iso : nat → string;
  now_stamp : nat → string;
  time : nat → float;
  uniform : nat → float;
  random : nat → float
}.

(** The dict [_simulate_agent_execution] returns. *)
Record execution_result : Type := {
  r_id : string;
  r_agent_type : string;
  r_description : string;
  r_status : string;
  r_duration : option float;
  r_result : option string;
  r_error : option string
}.

(** An entry of [results["stage_results"]]. *)
Record stage_result : Type := {
  stage_executions : nat;
  stage_duration : float;
  stage_results_list : list execution_result
}.

(** The dict [execute_plan] returns. *)
Record results : Type := {
  plan_name : string;
  start_time : string;
  end_time : option string;
  total_duration : float;
  total_tasks : nat;
  completed_tasks : nat;
  failed_tasks : nat;
  skipped_tasks : nat;
  stage_results : dict stage_result
}.

(** What [_save_execution_log] dumps. *)
Record log_data : Type := {
  log_plan : ExecutionPlan;
  log_results : results;
  log_timestamp : string
}.

(** The state a run goes through: how much was drawn from the
    surroundings, the executions of the plan as they are now (they are
    mutated in place), and the log files by path. *)
Record world : Type := {
  clock_reads : nat;
  time_reads : nat;
  uniform_draws : nat;
  random_draws : nat;
  objects : list Orchestrator.AgentExecution;
  files : dict log_data
}.

(** A step of a run; what was mutated before an exception stays mutated. *)
Definition Sim (A : Type) : Type := world → attempt A * world.

#[global] Instance Sim_ret : MRet Sim := λ A a w, (Finished a, w).
#[global] Instance Sim_bind : MBind Sim := λ A B f m w,
  match m w with
  | (Finished a, w') => f a w'
  | (Raises e, w') => (Raises e, w')
  | (Unfinished, w') => (Unfinished, w')
  end.

Definition lift {A : Type} (a : attempt A) : Sim A := λ w, (a, w).

Definition get_world : Sim world := λ w, (Finished w, w).

(** [datetime.now()]: which reading it is. *)
Definition datetime_now : Sim nat := λ w,
  (Finished (clock_reads w),
   {| clock_reads := S (clock_reads w); time_reads := time_reads w;
      uniform_draws := uniform_draws w; random_draws := random_draws w;
      objects := objects w; files := files w |}).

Definition time_time (env : surroundings) : Sim float := λ w,
  (Finished (time env (time_reads w)),
   {| clock_reads := clock_reads w; time_reads := S (time_reads w);
      uniform_draws := uniform_draws w; random_draws := random_draws w;
      objects := objects w; files := files w |}).

Definition random_uniform (env : surroundings) : Sim float := λ w,
  (Finished (uniform env (uniform_draws w)),
   {| clock_reads := clock_reads w; time_reads := time_reads w;
      uniform_draws := S (uniform_draws w); random_draws := random_draws w;
      objects := objects w; files := files w |}).

Definition random_random (env : surroundings) : Sim float := λ w,
  (Finished (random env (random_draws w)),
   {| clock_reads := clock_reads w; time_reads := time_reads w;
      uniform_draws := uniform_draws w; random_draws := S (random_draws w);
      objects := objects w; files := files w |}).

(** Reading and mutating the [i]-th execution of the plan. *)
Definition get_object (i : nat) : Sim Orchestrator.AgentExecution := λ w,
  match objects w !! i with
  | Some execution => (Finished execution, w)
  | None => (Raises (Exn (TypeError "no object")), w)
  end.

Definition set_object (i : nat) (execution : Orchestrator.AgentExecution)
    : Sim unit := λ w,
  (Finished tt,
   {| clock_reads := clock_reads w; time_reads := time_reads w;
      uniform_draws := uniform_draws w; random_draws := random_draws w;
      objects := <[i := execution]> (objects w); files := files w |}).

Definition write_file (path : string) (data : log_data) : Sim unit := λ w,
  (Finished tt,
   {| clock_reads := clock_reads w; time_reads := time_reads w;
      uniform_draws := uniform_draws w; random_draws := random_draws w;
      objects := objects w; files := setitem path data (files w) |}).

(** What [_simulate_agent_execution] assigns to an execution: first
    [status] and [start_time], and at the end the outcome, [end_time] and
    [duration]. *)
Definition started (start : string) (e : Orchestrator.AgentExecution)
    : Orchestrator.AgentExecution := {|
  Orchestrator.id := Orchestrator.id e;
  Orchestrator.agent_type := Orchestrator.agent_type e;
  Orchestrator.description := Orchestrator.description e;
  Orchestrator.prompt := Orchestrator.prompt e;
  Orchestrator.status := Orchestrator.RUNNING;
  Orchestrator.start_time := Some start;
  Orchestrator.end_time := Orchestrator.end_time e;
  Orchestrator.duration := Orchestrator.duration e;
  Orchestrator.result := Orchestrator.result e;
  Orchestrator.error := Orchestrator.error e;
  Orchestrator.dependencies := Orchestrator.dependencies e |}.

Definition ended (success : bool) (finish : string) (execution_time : float)
    (e : Orchestrator.AgentExecution) : Orchestrator.AgentExecution := {|
  Orchestrator.id := Orchestrator.id e;
  Orchestrator.agent_type := Orchestrator.agent_type e;
  Orchestrator.description := Orchestrator.description e;
  Orchestrator.prompt := Orchestrator.prompt e;
  Orchestrator.status :=
    if success then Orchestrator.COMPLETED else Orchestrator.FAILED;
  Orchestrator.start_time := Orchestrator.start_time e;
  Orchestrator.end_time := Some finish;
  Orchestrator.duration := Some execution_time;
  Orchestrator.result :=
    if success
    then Some ("Successfully completed " +:+ Orchestrator.description e)
    else Orchestrator.result e;
  Orchestrator.error :=
    if success then Orchestrator.error e
    else Some ("Failed to complete " +:+ Orchestrator.description e);
  Orchestrator.dependencies := Orchestrator.dependencies e |}.

(** [success_rate = 0.9], as the float it denotes. *)
Definition success_rate : float := 0x1.ccccccccccccdp-1%float.

Definition _simulate_agent_execution (env : surroundings) (i : nat)
    : Sim execution_result :=
  execution ← get_object i;
  start ← datetime_now;
  set_object i (started (now_iso env start) execution);;
  execution_time ← random_uniform env;
  draw ← random_random env;
  let success := PrimFloat.ltb draw success_rate in
  finish ← datetime_now;
  execution ← get_object i;
  let execution := ended success (now_iso env finish) execution_time execution in
  set_object i execution;;
  mret {|
    r_id := Orchestrator.id execution;
    r_agent_type := AgentType_value (Orchestrator.agent_type execution);
    r_description := Orchestrator.description execution;
    r_status := ExecutionStatus_value (Orchestrator.status execution);
    r_duration := Orchestrator.duration execution;
    r_result := Orchestrator.result execution;
    r_error := Orchestrator.error execution |}.

(** [_execute_parallel_chunk]: the executions of a chunk, one after the
    other. An execution is named by its position in the plan. *)
Fixpoint _execute_parallel_chunk (env : surroundings) (chunk : list nat)
    : Sim (list execution_result) :=
  match chunk with
  | [] => mret []
  | i :: chunk' =>
      result ← _simulate_agent_execution env i;
      results ← _execute_parallel_chunk env chunk';
      mret (result :: results)
  end.

(** [for chunk in chunks: stage_results.extend(...)]. *)
Fixpoint run_chunks (env : surroundings) (chunks : list (list nat))
    : Sim (list execution_result) :=
  match chunks with
  | [] => mret []
  | chunk :: chunks' =>
      chunk_results ← _execute_parallel_chunk env chunk;
      rest ← run_chunks env chunks';
      mret (chunk_results ++ rest)
  end.

(** [[exec for exec in plan.executions if exec.id in execution_ids]], by
    positions in the plan. *)
Definition in_stage (execution_ids : list string)
    (executions : list Orchestrator.AgentExecution) : list nat :=
  (filter (λ ie, Orchestrator.id ie.2 ∈ execution_ids)
     (imap (λ i e, (i, e)) executions)).*1.

(** The three counters, after [for result in stage_results: ...]. *)
Fixpoint count_results (stage_results : list execution_result)
    (counts : nat * nat * nat) : nat * nat * nat :=
  match stage_results with
  | [] => counts
  | result :: stage_results' =>
      let '(completed, failed, skipped) := counts in
      count_results stage_results'
        (if decide (r_status result = "completed") then (S completed, failed, skipped)
         else if decide (r_status result = "failed") then (completed, S failed, skipped)
         else if decide (r_status result = "skipped") then (completed, failed, S skipped)
         else counts)
  end.

(** The loop over the stages; it carries [results["stage_results"]] and the
    three counters. *)
Fixpoint run_stages (env : surroundings) (max_parallel : Z)
    (groups : list (string * list string))
    (acc : dict stage_result * (nat * nat * nat))
    : Sim (dict stage_result * (nat * nat * nat)) :=
  match groups with
  | [] => mret acc
  | (stage_name, execution_ids) :: groups' =>
      stage_start ← time_time env;
      w ← get_world;
      let stage_executions := in_stage execution_ids (objects w) in
      cs ← lift (chunks stage_executions max_parallel);
      stage_results ← run_chunks env cs;
      stage_end ← time_time env;
      let entry := {|
        stage_executions := length execution_ids;
        stage_duration := PrimFloat.sub stage_end stage_start;
        stage_results_list := stage_results |} in
      run_stages env max_parallel groups'
        (setitem stage_name entry acc.1, count_results stage_results acc.2)
  end.

(** [self.logs_dir / "executions" / f"execution-{...}.json"]. *)
Definition log_path (logs_dir stamp : string) : string :=
  logs_dir +:+ "/executions/execution-" +:+ stamp +:+ ".json".

Definition _save_execution_log (env : surroundings) (logs_dir : string)
    (plan : ExecutionPlan) (results : results) : Sim unit :=
  named ← datetime_now;
  w ← get_world;
  stamped ← datetime_now;
  write_file (log_path logs_dir (now_stamp env named)) {|
    log_plan := {|
      name := name plan;
      description := description plan;
      executions := objects w;
      parallel_groups := parallel_groups plan;
      created_at := created_at plan;
      estimated_duration := estimated_duration plan |};
    log_results := results;
    log_timestamp := now_iso env stamped |}.

(** [execute_plan], run on the executions of [plan]. *)
Definition execute_plan (env : surroundings) (logs_dir : string)
    (plan : ExecutionPlan) (max_parallel : Z) : Sim results := λ w,
  (started_at ← datetime_now;
   start_time ← time_time env;
   '(stage_results, (completed, failed, skipped)) ←
     run_stages env max_parallel (items (parallel_groups plan)) ([], (0, 0, 0));
   ended_at ← datetime_now;
   end_time ← time_time env;
   let results := {|
     plan_name := name plan;
     start_time := now_iso env started_at;
     end_time := Some (now_iso env ended_at);
     total_duration := PrimFloat.sub end_time start_time;
     total_tasks := length (executions plan);
     completed_tasks := completed;
     failed_tasks := failed;
     skipped_tasks := skipped;
     stage_results := stage_results |} in
   _save_execution_log env logs_dir plan results;;
   mret results)
  {| clock_reads := clock_reads w; time_reads := time_reads w;
     uniform_draws := uniform_draws w; random_draws := random_draws w;
     objects := executions plan; files := files w |}.

End AgentOrchestrator.

(** The id [create_execution_plan] gives the [i]-th dict. *)
Definition given_id (i : nat) (data : AgentOrchestrator.exec_data) : string :=
  default ("exec-" +:+ pretty i) (AgentOrchestrator.data_id data).

(** What stands in the way of turning a dict into an execution, by the
    order in which the constructor's arguments are evaluated. *)
Definition refusal (data : AgentOrchestrator.exec_data)
    : option AgentOrchestrator.raised :=
  match AgentOrchestrator.data_agent_type data with
  | None => Some (AgentOrchestrator.Exn (KeyError "agent_type"))
  | Some value =>
      if bool_decide (value ∈ AgentOrchestrator.AgentType_value
                                <$> AgentOrchestrator.agent_types)
      then match AgentOrchestrator.data_description data with
           | None => Some (AgentOrchestrator.Exn (KeyError "description"))
           | Some _ =>
               match AgentOrchestrator.data_prompt data with
               | None => Some (AgentOrchestrator.Exn (KeyError "prompt"))
               | Some _ => None
               end
           end
      else Some (AgentOrchestrator.ValueError value)
  end.

(** The first refusal among the dicts. *)
Fixpoint first_refusal (dicts : list AgentOrchestrator.exec_data)
    : option AgentOrchestrator.raised :=
  match dicts with
  | [] => None
  | data :: dicts' =>
      match refusal data with
      | Some e => Some e
      | None => first_refusal dicts'
      end
  end.

Definition two_dicts : list AgentOrchestrator.exec_data :=
  [ {| AgentOrchestrator.data_id := Some "locate-auth";
       AgentOrchestrator.data_agent_type := Some "codebase-locator";
       AgentOrchestrator.data_description := Some "Find authentication components";
       AgentOrchestrator.data_prompt := Some "Locate all files";
       AgentOrchestrator.data_dependencies := None |};
    {| AgentOrchestrator.data_id := None;
       AgentOrchestrator.data_agent_type := Some "codebase-analyzer";
       AgentOrchestrator.data_description := Some "Analyze authentication implementation";
       AgentOrchestrator.data_prompt := Some "Analyze how user authentication works";
       AgentOrchestrator.data_dependencies := Some ["locate-auth"] |} ].

Definition unnamed_dicts : list AgentOrchestrator.exec_data :=
  [ {| AgentOrchestrator.data_id := None;
       AgentOrchestrator.data_agent_type := Some "codebase-locator";
       AgentOrchestrator.data_description := Some "Find authentication components";
       AgentOrchestrator.data_prompt := Some "Locate all files";
       AgentOrchestrator.data_dependencies := None |};
    {| AgentOrchestrator.data_id := None;
       AgentOrchestrator.data_agent_type := Some "codebase-analyzer";
       AgentOrchestrator.data_description := Some "Analyze authentication implementation";
       AgentOrchestrator.data_prompt := Some "Analyze how user authentication works";
       AgentOrchestrator.data_dependencies := Some ["exec-0"] |} ].

(** Whether every id that the stages list is the id of an execution. *)
Definition ids_known (plan : AgentOrchestrator.ExecutionPlan) : Prop :=
  Forall (λ exec_id, exec_id ∈ Orchestrator.id <$> AgentOrchestrator.executions plan)
    (concat (PyDict.values (AgentOrchestrator.parallel_groups plan))).

(** What [_simulate_agent_execution] never assigns. *)
Definition same_task (e e' : Orchestrator.AgentExecution) : Prop :=
  Orchestrator.id e' = Orchestrator.id e
  ∧ Orchestrator.agent_type e' = Orchestrator.agent_type e
  ∧ Orchestrator.description e' = Orchestrator.description e
  ∧ Orchestrator.prompt e' = Orchestrator.prompt e
  ∧ Orchestrator.dependencies e' = Orchestrator.dependencies e.

(** An execution that has been run to its end. *)
Definition has_run (e : Orchestrator.AgentExecution) : Prop :=
  (Orchestrator.status e = Orchestrator.COMPLETED
   ∧ Orchestrator.result e
     = Some ("Successfully completed " +:+ Orchestrator.description e)
   ∨ Orchestrator.status e = Orchestrator.FAILED
     ∧ Orchestrator.error e
       = Some ("Failed to complete " +:+ Orchestrator.description e))
  ∧ is_Some (Orchestrator.start_time e)
  ∧ is_Some (Orchestrator.end_time e)
  ∧ is_Some (Orchestrator.duration e).

(** The positions of the executions that [execute_plan] runs, stage after
    stage. *)
Definition runs (plan : AgentOrchestrator.ExecutionPlan) : list nat :=
  concat ((λ group, AgentOrchestrator.in_stage group.2
                      (AgentOrchestrator.executions plan))
          <$> PyDict.items (AgentOrchestrator.parallel_groups plan)).

(** How the executions and the log files stand in [w'] when the executions
    at [indices] have been run from [w]. *)
Definition ran (indices : list nat) (w w' : AgentOrchestrator.world) : Prop :=
  AgentOrchestrator.files w' = AgentOrchestrator.files w
  ∧ Forall2 same_task (AgentOrchestrator.objects w) (AgentOrchestrator.objects w')
  ∧ ∀ i e e',
      AgentOrchestrator.objects w !! i = Some e →
      AgentOrchestrator.objects w' !! i = Some e' →
      (i ∈ indices → has_run e') ∧ (i ∉ indices → e' = e).

(** What a result dict reports of the execution at a position. *)
Definition reports (executions : list Orchestrator.AgentExecution) (i : nat)
    (r : AgentOrchestrator.execution_result) : Prop :=
  ∃ e, executions !! i = Some e
       ∧ AgentOrchestrator.r_id r = Orchestrator.id e
       ∧ (AgentOrchestrator.r_status r = "completed"
          ∨ AgentOrchestrator.r_status r = "failed").

(** The executions of the plan at the bottom of [orchestrator.py], by ids
    and dependencies, with the stage [_calculate_parallel_groups] puts them
    in. *)
Definition auth_plan : AgentOrchestrator.ExecutionPlan := {|
  AgentOrchestrator.name := "auth-analysis";
  AgentOrchestrator.description := "Comprehensive authentication system analysis";
  AgentOrchestrator.executions := auth_analysis;
  AgentOrchestrator.parallel_groups :=
    [("stage_0", ["locate-auth"; "analyze-auth"; "research-jwt"; "synthesize"])];
  AgentOrchestrator.created_at := "now";
  AgentOrchestrator.estimated_duration := None |}.

(** Surroundings in which the clock advances by one second per reading,
    every execution takes two seconds, and every fourth one fails. *)
Fixpoint seconds (k : nat) : float :=
  match k with
  | 0 => 0%float
  | S k' => PrimFloat.add (seconds k') 1%float
  end.

Definition steady : AgentOrchestrator.surroundings := {|
  AgentOrchestrator.now_iso := λ k, "t" +:+ pretty k;
  AgentOrchestrator.now_stamp := λ k, "s" +:+ pretty k;
  AgentOrchestrator.time := seconds;
  AgentOrchestrator.uniform := λ _, 2%float;
  AgentOrchestrator.random := λ k, if decide (k `mod` 4 = 3) then 0.9375%float else 0.5%float |}.

(** Nothing drawn yet, no log written yet. *)
Definition before_run : AgentOrchestrator.world := {|
  AgentOrchestrator.clock_reads := 0;
  AgentOrchestrator.time_reads := 0;
  AgentOrchestrator.uniform_draws := 0;
  AgentOrchestrator.random_draws := 0;
  AgentOrchestrator.objects := [];
  AgentOrchestrator.files := [] |}.

(** * Properties *)

(** ** Dictionaries *)

Section dict_facts.
Import PyDict.
Context {V : Type}.
Implicit Types (d : dict V) (k : string) (v : V).

Lemma keys_setitem_old k v d : k ∈ keys d → keys (setitem k v d) = keys d.
Proof.
  unfold keys. induction d as [|[k' v'] d IH]; simpl.
  - by intros ?%elem_of_nil.
  - intros Hin. case_decide; simpl; [done|].
    f_equal. apply IH. by apply elem_of_cons in Hin as [->|].
Qed.

Lemma setitem_new k v d : k ∉ keys d → setitem k v d = d ++ [(k, v)].
Proof.
  unfold keys. induction d as [|[k' v'] d IH]; simpl; [done|].
  intros Hout. apply not_elem_of_cons in Hout as [? ?].
  case_decide; [congruence|]. by rewrite IH.
Qed.

Lemma keys_setitem_new k v d : k ∉ keys d → keys (setitem k v d) = keys d ++ [k].
Proof. intros ?. rewrite setitem_new by done. unfold keys. by rewrite fmap_app. Qed.

Lemma NoDup_keys_setitem k v d : NoDup (keys d) → NoDup (keys (setitem k v d)).
Proof.
  intros Hd. destruct (decide (k ∈ keys d)).
  - by rewrite keys_setitem_old.
  - rewrite keys_setitem_new by done.
    apply NoDup_app. split_and!; [done| |apply NoDup_singleton].
    intros x ? ->%list_elem_of_singleton. done.
Qed.

Lemma length_setitem k v d : length (setitem k v d) ≤ S (length d).
Proof.
  induction d as [|[k' v'] d IH]; simpl; [lia|].
  case_decide; simpl; lia.
Qed.

Lemma keys_remove k d : keys (remove k d) = filter (λ x, x ≠ k) (keys d).
Proof.
  unfold keys, remove. induction d as [|[k' v'] d IH]; [done|].
  rewrite fmap_cons, !filter_cons. simpl.
  destruct (decide (k' ≠ k)); csimpl; by rewrite IH.
Qed.

Lemma remove_absent k d : k ∉ keys d → remove k d = d.
Proof.
  unfold keys, remove. induction d as [|[k' v'] d IH]; [done|].
  rewrite fmap_cons. intros [? ?]%not_elem_of_cons. simpl in *.
  rewrite filter_cons_True by (simpl; congruence). by rewrite IH.
Qed.

Lemma remove_head k v d : k ∉ keys d → remove k ((k, v) :: d) = d.
Proof.
  intros ?. unfold remove. rewrite filter_cons_False by (simpl; tauto).
  by apply remove_absent.
Qed.

Lemma delitem_present k d : k ∈ keys d → delitem k d = Returned (remove k d).
Proof. intros ?. unfold delitem, contains. by rewrite bool_decide_eq_true_2. Qed.

Lemma NoDup_keys_comprehension {A} (key : A → string) (val : A → V) xs :
  NoDup (keys (comprehension key val xs)).
Proof.
  unfold comprehension.
  enough (∀ d, NoDup (keys d) →
            NoDup (keys (foldl (λ d x, setitem (key x) (val x) d) d xs))) as H
    by (apply (H []); constructor).
  induction xs as [|x xs IH]; intros d Hd; simpl; [done|].
  apply IH. by apply NoDup_keys_setitem.
Qed.

Lemma length_comprehension {A} (key : A → string) (val : A → V) xs :
  length (comprehension key val xs) ≤ length xs.
Proof.
  unfold comprehension.
  enough (∀ d, length (foldl (λ d x, setitem (key x) (val x) d) d xs)
               ≤ length d + length xs) as H by apply (H []).
  induction xs as [|x xs IH]; intros d; simpl; [lia|].
  etrans; [apply IH|]. pose proof (length_setitem (key x) (val x) d). lia.
Qed.

Lemma comprehension_NoDup {A} (key : A → string) (val : A → V) xs :
  NoDup (key <$> xs) → comprehension key val xs = (λ x, (key x, val x)) <$> xs.
Proof.
  unfold comprehension.
  enough (∀ d, NoDup (keys d ++ (key <$> xs)) →
            foldl (λ d x, setitem (key x) (val x) d) d xs
            = d ++ ((λ x, (key x, val x)) <$> xs)) as H by apply (H []).
  induction xs as [|x xs IH]; intros d Hd; simpl.
  - by rewrite app_nil_r.
  - rewrite fmap_cons in Hd.
    assert (key x ∉ keys d) as Hfresh.
    { apply NoDup_app in Hd as (_ & Hd & _). intros ?. eapply Hd; [done|]. left. }
    rewrite setitem_new by done. rewrite IH.
    + by rewrite <-app_assoc.
    + unfold keys in *. rewrite fmap_app, <-app_assoc. done.
Qed.
End dict_facts.

Section dict_erasure.
Import PyDict.
Context {V W : Type} (f : V → W).
Implicit Types (d : dict V) (k : string).

Lemma keys_erase d : keys (map_values f d) = keys d.
Proof. unfold keys, map_values. by rewrite <-list_fmap_compose. Qed.

Lemma remove_erase k d : remove k (map_values f d) = map_values f (remove k d).
Proof.
  unfold remove, map_values. induction d as [|[k' v'] d IH]; [done|].
  rewrite fmap_cons, !filter_cons. simpl.
  destruct (decide (k' ≠ k)); csimpl; by rewrite IH.
Qed.

Lemma delitem_erase k d :
  delitem k (map_values f d) = map_values f <$> delitem k d.
Proof.
  unfold delitem, contains. rewrite keys_erase.
  case_bool_decide; simpl; [|done]. by rewrite remove_erase.
Qed.

Lemma first_key_erase d : first_key (map_values f d) = first_key d.
Proof. unfold first_key. by rewrite keys_erase. Qed.

Lemma setitem_erase k v d :
  setitem k (f v) (map_values f d) = map_values f (setitem k v d).
Proof.
  unfold map_values. induction d as [|[k' v'] d IH]; [done|]. csimpl.
  case_decide; csimpl; [done|]. by rewrite IH.
Qed.

Lemma comprehension_erase {A} (key : A → string) (val : A → V) xs :
  comprehension fst snd ((λ x, (key x, f (val x))) <$> xs)
  = map_values f (comprehension key val xs).
Proof.
  unfold comprehension.
  enough (∀ d, foldl (λ (acc : dict W) x, setitem x.1 x.2 acc) (map_values f d)
                 ((λ x, (key x, f (val x))) <$> xs)
               = map_values f (foldl (λ d x, setitem (key x) (val x) d) d xs))
    as H by apply (H []).
  induction xs as [|x xs IH]; intros d; csimpl; [done|].
  by rewrite setitem_erase, IH.
Qed.
End dict_erasure.

(** ** Both copies run the skeleton program *)

Lemma exec_scan_erase snapshot cs comp rem :
  Skeleton.scan (PyDict.map_values Orchestrator.dependencies snapshot) cs comp
    (PyDict.map_values Orchestrator.dependencies rem)
  = erase_scan Orchestrator.dependencies <$> Orchestrator.scan snapshot cs comp rem.
Proof.
  revert cs comp rem.
  induction snapshot as [|[k e] snapshot IH]; intros cs comp rem; [done|].
  unfold PyDict.map_values at 1. rewrite fmap_cons.
  fold (PyDict.map_values Orchestrator.dependencies snapshot). simpl.
  destruct (all_in comp _); [|apply IH].
  rewrite delitem_erase. destruct (PyDict.delitem k rem); try done. apply IH.
Qed.

Lemma task_scan_erase snapshot cs comp rem :
  Skeleton.scan (PyDict.map_values TodoManagement.dependencies snapshot) cs comp
    (PyDict.map_values TodoManagement.dependencies rem)
  = erase_scan TodoManagement.dependencies <$> TodoManagement.scan snapshot cs comp rem.
Proof.
  revert cs comp rem.
  induction snapshot as [|[k t] snapshot IH]; intros cs comp rem; [done|].
  unfold PyDict.map_values at 1. rewrite fmap_cons.
  fold (PyDict.map_values TodoManagement.dependencies snapshot). simpl.
  destruct (all_in comp _); [|apply IH].
  rewrite delitem_erase. destruct (PyDict.delitem k rem); try done. apply IH.
Qed.

Lemma exec_body_erase st :
  Skeleton.body (exec_locals st) = exec_locals <$> Orchestrator.body st.
Proof.
  unfold Skeleton.body, Orchestrator.body, PyDict.items. simpl.
  rewrite exec_scan_erase.
  destruct (Orchestrator.scan _ _ _ _) as [[[cs comp] rem]| |]; try done.
  simpl. destruct cs as [|c cs]; [|done].
  destruct rem as [|[k e] rem]; [done|].
  unfold Skeleton.close. csimpl.
  change (?x :: PyDict.map_values ?f rem) with (PyDict.map_values f ((k, e) :: rem)).
  rewrite delitem_erase. by destruct (PyDict.delitem _ _).
Qed.

Lemma task_body_erase st :
  Skeleton.body (task_locals st) = task_locals <$> TodoManagement.body st.
Proof.
  unfold Skeleton.body, TodoManagement.body, PyDict.items. simpl.
  rewrite task_scan_erase.
  destruct (TodoManagement.scan _ _ _ _) as [[[cs comp] rem]| |]; try done.
  simpl. destruct cs as [|c cs]; [|done].
  destruct rem as [|[k t] rem]; [done|].
  unfold Skeleton.close. csimpl.
  change (?x :: PyDict.map_values ?f rem) with (PyDict.map_values f ((k, t) :: rem)).
  rewrite delitem_erase. by destruct (PyDict.delitem _ _).
Qed.

Lemma exec_while_erase fuel st :
  Orchestrator.while_remaining fuel st
  = Skeleton.while_remaining fuel (exec_locals st).
Proof.
  revert st. induction fuel as [|fuel IH]; intros st; simpl;
    destruct (Orchestrator.remaining_executions st) as [|[k e] rem] eqn:Hrem;
    try done.
  csimpl. rewrite exec_body_erase.
  destruct (Orchestrator.body st) as [st'| |]; try done. apply IH.
Qed.

Lemma task_while_erase fuel st :
  TodoManagement.while_remaining fuel st
  = Skeleton.while_remaining fuel (task_locals st).
Proof.
  revert st. induction fuel as [|fuel IH]; intros st; simpl;
    destruct (TodoManagement.remaining_tasks st) as [|[k t] rem] eqn:Hrem;
    try done.
  csimpl. rewrite task_body_erase.
  destruct (TodoManagement.body st) as [st'| |]; try done. apply IH.
Qed.

Lemma exec_partition fuel executions :
  Orchestrator._calculate_parallel_groups fuel executions
  = Skeleton.partition fuel (exec_skeleton <$> executions).
Proof.
  unfold Orchestrator._calculate_parallel_groups, Skeleton.partition.
  rewrite exec_while_erase. f_equal.
  unfold exec_locals, Skeleton.initial. simpl. f_equal.
  symmetry. apply (comprehension_erase Orchestrator.dependencies).
Qed.

Lemma task_partition fuel tasks :
  TodoManagement.identify_parallel_opportunities fuel tasks
  = Skeleton.partition fuel (task_skeleton <$> tasks).
Proof.
  unfold TodoManagement.identify_parallel_opportunities, Skeleton.partition.
  rewrite task_while_erase. f_equal.
  unfold task_locals, Skeleton.initial. simpl. f_equal.
  symmetry. apply (comprehension_erase TodoManagement.dependencies).
Qed.

(** ** What one scan places *)

Section scan_facts.
Import PyDict.
Implicit Types (snapshot rem : dict (list string)) (comp : gset string).

Lemma keys_without {V} placed (d : dict V) :
  keys (without placed d) = filter (λ k, k ∉ placed) (keys d).
Proof.
  unfold keys, without. induction d as [|[k v] d IH]; [done|].
  rewrite fmap_cons, !filter_cons. simpl.
  destruct (decide (k ∉ placed)); csimpl; by rewrite IH.
Qed.

Lemma without_nil {V} (d : dict V) : without [] d = d.
Proof.
  unfold without. induction d as [|kv d IH]; [done|].
  rewrite filter_cons_True, IH; [done|]. apply not_elem_of_nil.
Qed.

Lemma without_cons {V} k placed (d : dict V) :
  without placed (remove k d) = without (k :: placed) d.
Proof.
  unfold without, remove. rewrite list_filter_filter.
  apply list_filter_iff. intros [k' v]. simpl.
  rewrite not_elem_of_cons. tauto.
Qed.

Lemma ready_sublist snapshot comp : ready snapshot comp `sublist_of` keys snapshot.
Proof.
  revert comp. induction snapshot as [|[k deps] snapshot IH]; intros comp; simpl.
  - constructor.
  - destruct (all_in comp deps); [apply sublist_skip|apply sublist_cons]; apply IH.
Qed.

Lemma scan_ready snapshot cs comp rem :
  NoDup (keys snapshot) → keys snapshot ⊆ keys rem →
  Skeleton.scan snapshot cs comp rem
  = Returned (cs ++ ready snapshot comp,
              list_to_set (ready snapshot comp) ∪ comp,
              without (ready snapshot comp) rem).
Proof.
  revert cs comp rem.
  induction snapshot as [|[k deps] snapshot IH]; intros cs comp rem Hnd Hsub; simpl.
  - rewrite app_nil_r, without_nil. by rewrite (left_id_L ∅ (∪)).
  - unfold keys in Hnd, Hsub. rewrite fmap_cons in Hnd, Hsub. simpl in Hnd, Hsub.
    apply NoDup_cons in Hnd as [Hk Hnd].
    destruct (all_in comp deps).
    + rewrite delitem_present by set_solver. simpl.
      rewrite IH; [|done|].
      * rewrite <-app_assoc, without_cons. simpl.
        by replace (list_to_set (ready snapshot ({[k]} ∪ comp)) ∪ ({[k]} ∪ comp))
          with ({[k]} ∪ list_to_set (ready snapshot ({[k]} ∪ comp)) ∪ comp)
          by set_solver.
      * intros k' Hk'. rewrite keys_remove. apply list_elem_of_filter.
        split; [set_solver|]. apply Hsub. by right.
    + apply IH; [done|]. set_solver.
Qed.
End scan_facts.

(** ** What one iteration does *)

Section body_facts.
Import PyDict.
Implicit Types (rem : dict (list string)) (comp : gset string).

Lemma next_stage_nonempty rem comp : rem ≠ [] → next_stage rem comp ≠ [].
Proof.
  unfold next_stage. destruct (ready rem comp); [|done].
  by destruct rem as [|[k deps] rem].
Qed.

Lemma next_stage_sublist rem comp : next_stage rem comp `sublist_of` keys rem.
Proof.
  unfold next_stage. pose proof (ready_sublist rem comp) as Hsub.
  destruct (ready rem comp); [|done]. apply sublist_take.
Qed.

Lemma body_next_stage st :
  NoDup (keys (Skeleton.remaining st)) → Skeleton.remaining st ≠ [] →
  let g := next_stage (Skeleton.remaining st) (Skeleton.completed st) in
  Skeleton.body st = Returned {|
    Skeleton.parallel_groups :=
      setitem (stage_label (Skeleton.stage st)) g (Skeleton.parallel_groups st);
    Skeleton.stage := S (Skeleton.stage st);
    Skeleton.remaining := without g (Skeleton.remaining st);
    Skeleton.completed := list_to_set g ∪ Skeleton.completed st |}.
Proof.
  destruct st as [pg n rem comp]. simpl. intros Hnd Hne.
  unfold Skeleton.body, items, next_stage. simpl.
  rewrite scan_ready by done. simpl.
  destruct (ready rem comp) as [|r placed] eqn:Hready; [|done].
  simpl. rewrite without_nil, (left_id_L ∅ (∪)).
  destruct rem as [|[k deps] rem]; [done|]. simpl.
  unfold delitem, contains. rewrite bool_decide_eq_true_2 by (simpl; left).
  simpl. rewrite <-(without_nil (remove k _)), without_cons.
  by rewrite (right_id_L ∅ (∪)).
Qed.

Lemma NoDup_keys_without {V} g (d : dict V) :
  NoDup (keys d) → NoDup (keys (without g d)).
Proof. intros ?. rewrite keys_without. by apply NoDup_filter. Qed.

Lemma stage_then_rest g (ks : list string) :
  NoDup ks → g `sublist_of` ks → g ++ filter (λ k, k ∉ g) ks ≡ₚ ks.
Proof.
  intros Hnd Hsub. etrans; [|apply (filter_app_complement (λ k, k ∈ g) ks)].
  apply Permutation_app; [|done].
  apply NoDup_Permutation.
  - by eapply sublist_NoDup.
  - by apply NoDup_filter.
  - intros k. rewrite list_elem_of_filter. split; [|tauto].
    intros Hk. split; [done|]. by eapply elem_of_sublist.
Qed.

Lemma length_without_lt {V} g (d : dict V) :
  NoDup (keys d) → g `sublist_of` keys d → g ≠ [] →
  length (without g d) < length d.
Proof.
  intros Hnd Hsub Hne.
  pose proof (stage_then_rest g (keys d) Hnd Hsub) as Hperm.
  apply Permutation_length in Hperm.
  rewrite length_app, <-keys_without in Hperm.
  unfold keys in Hperm. rewrite !length_fmap in Hperm.
  destruct g; [done|]. simpl in Hperm. lia.
Qed.
End body_facts.

(** ** What the loop files *)

Section loop_facts.
Import PyDict.
Implicit Types (rem : dict (list string)) (comp : gset string).

#[local] Instance stage_label_inj : Inj (=) (=) stage_label.
Proof.
  intros m n Heq. unfold stage_label in Heq.
  apply (inj (String.append "stage_")) in Heq. by apply (inj pretty) in Heq.
Qed.

Lemma keys_labelled start groups :
  keys (labelled start groups) = stage_label <$> seq start (length groups).
Proof.
  unfold keys. revert start. induction groups as [|g groups IH]; intros start; [done|].
  csimpl. by rewrite IH.
Qed.

Lemma values_labelled start groups : values (labelled start groups) = groups.
Proof.
  unfold values. revert start. induction groups as [|g groups IH]; intros start; [done|].
  csimpl. by rewrite IH.
Qed.

Lemma length_labelled start groups : length (labelled start groups) = length groups.
Proof.
  rewrite <-(values_labelled start groups) at 2. unfold values.
  by rewrite length_fmap.
Qed.

Lemma setitem_next_label n g (pg : dict (list string)) :
  keys pg = stage_label <$> seq 0 n →
  setitem (stage_label n) g pg = pg ++ [(stage_label n, g)].
Proof.
  intros Hkeys. apply setitem_new. rewrite Hkeys.
  intros (m & Heq & Hm)%list_elem_of_fmap. apply (inj stage_label) in Heq.
  subst m. apply elem_of_seq in Hm. lia.
Qed.

Lemma next_stage_shrinks kv rem comp :
  NoDup (keys (kv :: rem)) →
  length (without (next_stage (kv :: rem) comp) (kv :: rem)) ≤ length rem.
Proof.
  intros Hnd.
  assert (kv :: rem ≠ []) as Hne by done.
  pose proof (length_without_lt _ (kv :: rem) Hnd
                (next_stage_sublist _ comp) (next_stage_nonempty _ comp Hne)).
  simpl in *. lia.
Qed.

Lemma while_stages fuel st :
  NoDup (keys (Skeleton.remaining st)) →
  length (Skeleton.remaining st) ≤ fuel →
  keys (Skeleton.parallel_groups st) = stage_label <$> seq 0 (Skeleton.stage st) →
  Skeleton.while_remaining fuel st
  = Returned (Skeleton.parallel_groups st ++
              labelled (Skeleton.stage st)
                (stages fuel (Skeleton.remaining st) (Skeleton.completed st))).
Proof.
  revert st. induction fuel as [|fuel IH]; intros st Hnd Hlen Hkeys.
  - destruct st as [pg n [|kv rem] comp]; simpl in *; [|lia].
    by rewrite app_nil_r.
  - destruct st as [pg n [|kv rem] comp];
      cbn [Skeleton.remaining Skeleton.completed Skeleton.stage
           Skeleton.parallel_groups] in *.
    + simpl. by rewrite app_nil_r.
    + assert (kv :: rem ≠ []) as Hne by done.
      cbn [Skeleton.while_remaining stages Skeleton.remaining].
      pose proof (body_next_stage (Skeleton.Build_locals pg n (kv :: rem) comp)
                    Hnd Hne) as Hbody.
      cbn [Skeleton.remaining Skeleton.completed Skeleton.stage
           Skeleton.parallel_groups] in Hbody.
      rewrite Hbody.
      cbn [mbind outcome_bind Skeleton.remaining Skeleton.completed
           Skeleton.stage Skeleton.parallel_groups].
      rewrite IH; cbn [Skeleton.remaining Skeleton.completed Skeleton.stage
                       Skeleton.parallel_groups].
      * rewrite setitem_next_label by done. by rewrite <-app_assoc.
      * by apply NoDup_keys_without.
      * pose proof (next_stage_shrinks kv rem comp Hnd). simpl in Hlen. lia.
      * rewrite setitem_next_label by done. unfold keys in *.
        rewrite fmap_app, Hkeys, seq_S, fmap_app. done.
Qed.

Lemma stages_fuel fuel fuel' rem comp :
  NoDup (keys rem) → length rem ≤ fuel → length rem ≤ fuel' →
  stages fuel rem comp = stages fuel' rem comp.
Proof.
  revert fuel' rem comp.
  induction fuel as [|fuel IH]; intros fuel' rem comp Hnd Hlen Hlen'.
  - destruct rem; simpl in *; [by destruct fuel'|lia].
  - destruct rem as [|kv rem]; [by destruct fuel'|].
    destruct fuel' as [|fuel']; [simpl in *; lia|].
    simpl. f_equal.
    pose proof (next_stage_shrinks kv rem comp Hnd).
    apply IH; [by apply NoDup_keys_without|simpl in *; lia..].
Qed.

Lemma stages_nonempty fuel rem comp : Forall (λ g, g ≠ []) (stages fuel rem comp).
Proof.
  revert rem comp. induction fuel as [|fuel IH]; intros [|kv rem] comp; simpl;
    try by constructor.
  constructor; [|apply IH]. by apply next_stage_nonempty.
Qed.

Lemma stages_cover fuel rem comp :
  NoDup (keys rem) → length rem ≤ fuel →
  concat (stages fuel rem comp) ≡ₚ keys rem.
Proof.
  revert rem comp. induction fuel as [|fuel IH]; intros rem comp Hnd Hlen.
  - destruct rem; simpl in *; [done|lia].
  - destruct rem as [|kv rem]; [done|].
    pose proof (next_stage_sublist (kv :: rem) comp) as Hsub.
    pose proof (next_stage_shrinks kv rem comp Hnd).
    cbn [stages concat]. rewrite IH.
    + rewrite keys_without. by apply stage_then_rest.
    + by apply NoDup_keys_without.
    + simpl in *. lia.
Qed.

Lemma length_concat_nonempty (groups : list (list string)) :
  Forall (λ g, g ≠ []) groups → length groups ≤ length (concat groups).
Proof.
  induction 1 as [|g gs Hg _ IH]; simpl; [lia|].
  rewrite length_app. destruct g; [done|]. simpl. lia.
Qed.

Lemma length_stages fuel rem comp :
  NoDup (keys rem) → length rem ≤ fuel →
  length (stages fuel rem comp) ≤ length rem.
Proof.
  intros Hnd Hlen.
  pose proof (stages_cover fuel rem comp Hnd Hlen) as Hperm.
  apply Permutation_length in Hperm. unfold keys in Hperm.
  rewrite length_fmap in Hperm. rewrite <-Hperm.
  apply length_concat_nonempty, stages_nonempty.
Qed.

Lemma partition_stages fuel work :
  length work ≤ fuel →
  Skeleton.partition fuel work
  = Returned (labelled 0 (stages (length work) (comprehension fst snd work) ∅)).
Proof.
  intros Hfuel. unfold Skeleton.partition.
  pose proof (length_comprehension fst snd work) as Hlen.
  pose proof (NoDup_keys_comprehension fst snd work) as Hnd.
  rewrite while_stages; simpl; [|done|lia|done].
  do 2 f_equal. apply stages_fuel; [done|lia..].
Qed.
End loop_facts.

(** ** The staging as a whole *)

Section partition_facts.
Import PyDict.
Implicit Types (work : list (string * list string)).

Lemma partition_returns work :
  returns_within (λ fuel, Skeleton.partition fuel work) (length work)
    (labelled 0 (stages (length work) (comprehension fst snd work) ∅)).
Proof. intros fuel Hfuel. by apply partition_stages. Qed.

Lemma comprehension_distinct work :
  NoDup work.*1 → comprehension fst snd work = work.
Proof.
  intros Hnd. rewrite comprehension_NoDup by done.
  rewrite <-(list_fmap_id work) at 2. by apply list_fmap_ext; intros ? [].
Qed.

Lemma partition_cover work :
  NoDup work.*1 →
  concat (values (labelled 0 (stages (length work) (comprehension fst snd work) ∅)))
  ≡ₚ work.*1.
Proof.
  intros Hnd. rewrite values_labelled, comprehension_distinct by done.
  apply stages_cover; [done|lia].
Qed.

Lemma partition_length work :
  length (labelled 0 (stages (length work) (comprehension fst snd work) ∅))
  ≤ length work.
Proof.
  rewrite length_labelled.
  pose proof (length_comprehension fst snd work) as Hlen.
  etrans; [apply length_stages|done];
    [apply NoDup_keys_comprehension|done].
Qed.

Lemma ready_no_deps (snapshot : dict (list string)) comp :
  Forall (λ kv, kv.2 = []) snapshot → ready snapshot comp = keys snapshot.
Proof.
  intros Hall. revert comp.
  induction Hall as [|[k deps] snapshot Hk _ IH]; intros comp; [done|].
  simpl in Hk. subst deps. simpl. by rewrite IH.
Qed.

Lemma without_all {V} (d : dict V) : without (keys d) d = [].
Proof.
  enough (∀ placed, keys d ⊆ placed → without placed d = []) as H by by apply H.
  unfold without, keys. induction d as [|[k v] d IH]; intros placed Hsub; [done|].
  rewrite fmap_cons in Hsub.
  rewrite filter_cons_False by (simpl; intros Hout; apply Hout, Hsub; left).
  apply IH. intros k' Hk'. apply Hsub. by right.
Qed.

Lemma stages_no_deps fuel (rem : dict (list string)) comp :
  rem ≠ [] → Forall (λ kv, kv.2 = []) rem →
  stages (S fuel) rem comp = [keys rem].
Proof.
  intros Hne Hall. destruct rem as [|kv rem]; [done|].
  cbn [stages]. unfold next_stage. rewrite ready_no_deps by done.
  destruct (keys (kv :: rem)) eqn:Hkeys; [done|]. rewrite <-Hkeys.
  rewrite without_all. by destruct fuel.
Qed.
End partition_facts.

(** ** A scan that places nothing changes nothing *)

Lemma exec_scan_grows snapshot cs comp rem cs' comp' rem' :
  Orchestrator.scan snapshot cs comp rem = Returned (cs', comp', rem') →
  length cs ≤ length cs' ∧ (length cs' ≤ length cs → comp' = comp ∧ rem' = rem).
Proof.
  revert cs comp rem.
  induction snapshot as [|[k e] snapshot IH]; intros cs comp rem; simpl.
  - intros [= -> -> ->]. done.
  - destruct (all_in comp _); [|apply IH].
    destruct (PyDict.delitem k rem) as [rem1| |]; simpl; try done.
    intros [Hle _]%IH. rewrite length_app in Hle. simpl in Hle. lia.
Qed.

Lemma task_scan_grows snapshot cs comp rem cs' comp' rem' :
  TodoManagement.scan snapshot cs comp rem = Returned (cs', comp', rem') →
  length cs ≤ length cs' ∧ (length cs' ≤ length cs → comp' = comp ∧ rem' = rem).
Proof.
  revert cs comp rem.
  induction snapshot as [|[k t] snapshot IH]; intros cs comp rem; simpl.
  - intros [= -> -> ->]. done.
  - destruct (all_in comp _); [|apply IH].
    destruct (PyDict.delitem k rem) as [rem1| |]; simpl; try done.
    intros [Hle _]%IH. rewrite length_app in Hle. simpl in Hle. lia.
Qed.

(** ** The staging in the store runs the skeleton program *)

Section store_steps.
Import PyDict Store.
Implicit Types (h : store) (r : ref).

Lemma run_bind {A B} (m : M A) (f : A → M B) h :
  (m ≫= f) h
  = match m h with
    | Returned (a, h') => f a h'
    | Raised e => Raised e
    | OutOfFuel => OutOfFuel
    end.
Proof. reflexivity. Qed.

Lemma run_lift {A B} (a : A) (f : A → M B) h :
  (lift (Returned a) ≫= f) h = f a h.
Proof. reflexivity. Qed.

Lemma run_load h r o : h !! r = Some o → load r h = Returned (o, h).
Proof. intros Hr. unfold load. by rewrite Hr. Qed.

Lemma run_load_as {A B} (cast : object → outcome A) (f : A → M B) h r o a :
  h !! r = Some o → cast o = Returned a →
  (load r ≫= λ o, lift (cast o) ≫= f) h = f a h.
Proof. intros Hr Ho. by rewrite run_bind, (run_load _ _ _ Hr), Ho. Qed.

Lemma run_list_append h l xs s :
  h !! l = Some (StrList xs) →
  list_append l s h = Returned (tt, <[l := StrList (xs ++ [s])]> h).
Proof. intros Hl. unfold list_append. by rewrite run_bind, (run_load _ _ _ Hl). Qed.

Lemma run_set_add h c done s :
  h !! c = Some (StrSet done) →
  set_add c s h = Returned (tt, <[c := StrSet ({[s]} ∪ done)]> h).
Proof. intros Hc. unfold set_add. by rewrite run_bind, (run_load _ _ _ Hc). Qed.

Lemma run_dict_delitem h d entries k :
  h !! d = Some (ObjDict entries) → k ∈ keys entries →
  dict_delitem d k h = Returned (tt, <[d := ObjDict (remove k entries)]> h).
Proof.
  intros Hd Hk. unfold dict_delitem.
  rewrite run_bind, (run_load _ _ _ Hd). simpl.
  rewrite run_bind. simpl. by rewrite run_bind, delitem_present.
Qed.

Lemma run_dict_setitem h d entries k v :
  h !! d = Some (ObjDict entries) →
  dict_setitem d k v h = Returned (tt, <[d := ObjDict (setitem k v entries)]> h).
Proof. intros Hd. unfold dict_setitem. by rewrite run_bind, (run_load _ _ _ Hd). Qed.
Lemma step_list_append {B} (f : unit → M B) h l xs s :
  h !! l = Some (StrList xs) →
  (list_append l s ≫= f) h = f tt (<[l := StrList (xs ++ [s])]> h).
Proof. intros Hl. by rewrite run_bind, (run_list_append _ _ _ _ Hl). Qed.

Lemma step_set_add {B} (f : unit → M B) h c done s :
  h !! c = Some (StrSet done) →
  (set_add c s ≫= f) h = f tt (<[c := StrSet ({[s]} ∪ done)]> h).
Proof. intros Hc. by rewrite run_bind, (run_set_add _ _ _ _ Hc). Qed.

Lemma step_dict_delitem {B} (f : unit → M B) h d entries k :
  h !! d = Some (ObjDict entries) → k ∈ keys entries →
  (dict_delitem d k ≫= f) h = f tt (<[d := ObjDict (remove k entries)]> h).
Proof. intros Hd Hk. by rewrite run_bind, (run_dict_delitem _ _ _ _ Hd Hk). Qed.

Lemma step_dict_setitem {B} (f : unit → M B) h d entries k v :
  h !! d = Some (ObjDict entries) →
  (dict_setitem d k v ≫= f) h = f tt (<[d := ObjDict (setitem k v entries)]> h).
Proof. intros Hd. by rewrite run_bind, (run_dict_setitem _ _ _ _ _ Hd). Qed.
End store_steps.

Section store_scan.
Import PyDict Store.
Implicit Types (h : store) (r : ref).

Lemma holds_item_id h r w o :
  h !! r = Some o → item_skeleton o = Some w → attr_id o = Returned w.1.
Proof. intros _. destruct o; simpl; try done; by intros [= <-]. Qed.

Lemma holds_item_dependencies h r w o :
  h !! r = Some o → item_skeleton o = Some w → attr_dependencies o = Returned w.2.
Proof. intros _. destruct o; simpl; try done; by intros [= <-]. Qed.

Lemma holds_item_old h0 h r w :
  (∀ i, i < length h0 → h !! i = h0 !! i) →
  holds_item h0 r w → holds_item h r w.
Proof.
  intros Hold (o & Hr & Hw). exists o. split; [|done].
  rewrite Hold; [done|]. by eapply lookup_lt_Some.
Qed.

Lemma resolves_keys h d sk : resolves h d sk → keys d = keys sk.
Proof.
  unfold keys. induction 1 as [|[k r] [k' deps] d sk [Hk _] _ IH]; [done|].
  csimpl in *. by rewrite Hk, IH.
Qed.

Lemma resolves_setitem h d sk r w :
  resolves h d sk → holds_item h r w →
  resolves h (setitem w.1 r d) (setitem w.1 w.2 sk).
Proof.
  intros Hres Hitem.
  induction Hres as [|[k r'] [k' deps] d sk [Hk Hr'] Hres IH]; simpl in *.
  - repeat constructor; eauto.
  - subst k'. case_decide.
    + constructor; [|done]. simpl. eauto.
    + constructor; [|done]. simpl. eauto.
Qed.

Lemma resolves_without h d sk placed :
  resolves h d sk → resolves h (without placed d) (without placed sk).
Proof.
  unfold without.
  induction 1 as [|[k r] [k' deps] d sk [Hk Hr] Hres IH]; [constructor|].
  simpl in Hk. subst k'. rewrite !filter_cons. simpl.
  destruct (decide (k ∉ placed)); [|done]. by constructor.
Qed.

Lemma run_index_by_id h0 h refs work :
  (∀ i, i < length h0 → h !! i = h0 !! i) →
  Forall2 (holds_item h0) refs work →
  ∀ acc skacc, resolves h0 acc skacc →
  ∃ d, index_by_id refs acc h = Returned (d, h)
       ∧ resolves h0 d (foldl (λ d x, setitem x.1 x.2 d) skacc work).
Proof.
  intros Hold. induction 1 as [|r w refs work Hitem _ IH]; intros acc skacc Hacc.
  - by exists acc.
  - destruct (holds_item_old _ _ _ _ Hold Hitem) as (o & Hr & Hw).
    cbn [index_by_id].
    rewrite (run_load_as attr_id _ _ _ _ _ Hr (holds_item_id _ _ _ _ Hr Hw)).
    apply IH. by apply resolves_setitem.
Qed.

Lemma run_scan h0 snapshot sksnap cs comp rem :
  resolves h0 snapshot sksnap →
  length h0 ≤ cs → length h0 ≤ comp → length h0 ≤ rem →
  cs ≠ comp → cs ≠ rem → comp ≠ rem →
  NoDup (keys snapshot) →
  ∀ h c s d,
    (∀ i, i < length h0 → h !! i = h0 !! i) →
    h !! cs = Some (StrList c) →
    h !! comp = Some (StrSet s) →
    h !! rem = Some (ObjDict d) →
    keys snapshot ⊆ keys d →
    ∃ h',
      scan snapshot cs comp rem h = Returned (tt, h')
      ∧ length h' = length h
      ∧ h' !! cs = Some (StrList (c ++ ready sksnap s))
      ∧ h' !! comp = Some (StrSet (list_to_set (ready sksnap s) ∪ s))
      ∧ h' !! rem = Some (ObjDict (without (ready sksnap s) d))
      ∧ ∀ i, i ≠ cs → i ≠ comp → i ≠ rem → h' !! i = h !! i.
Proof.
  intros Hres Hcs Hcomp Hrem Hne1 Hne2 Hne3.
  induction Hres as [|[k r] [k' deps] snapshot sksnap [Hk (w & Hitem & Hw)] Hres IH];
    intros Hnd h c s d Hold Hc Hs Hd Hsub.
  - exists h. simpl. rewrite app_nil_r, without_nil, (left_id_L ∅ (∪)). done.
  - simpl in Hk, Hw, Hitem. subst k' deps.
    unfold keys in Hnd, Hsub. rewrite fmap_cons in Hnd, Hsub. simpl in Hnd, Hsub.
    apply NoDup_cons in Hnd as [Hk Hnd].
    destruct (holds_item_old _ _ _ _ Hold Hitem) as (o & Hr & Ho).
    cbn [scan ready].
    rewrite (run_load_as attr_dependencies _ _ _ _ _ Hr
               (holds_item_dependencies _ _ _ _ Hr Ho)).
    rewrite (run_load_as as_str_set _ _ _ _ _ Hs eq_refl).
    destruct (all_in s w.2); [|apply IH; try done; set_solver].
    pose proof (lookup_lt_Some _ _ _ Hc) as Hcs_lt.
    pose proof (lookup_lt_Some _ _ _ Hs) as Hcomp_lt.
    pose proof (lookup_lt_Some _ _ _ Hd) as Hrem_lt.
    assert (k ∈ keys d) as Hkd by (apply Hsub; left).
    rewrite (step_list_append _ _ _ _ _ Hc).
    erewrite step_set_add; [|rewrite list_lookup_insert_ne by done; exact Hs].
    erewrite step_dict_delitem;
      [|rewrite !list_lookup_insert_ne by done; exact Hd|exact Hkd].
    match goal with |- context [scan _ _ _ _ ?h] => set (h3 := h) end.
    assert (length h3 = length h) as Hlen3
      by (unfold h3; by rewrite !length_insert).
    assert (∀ i, i ≠ cs → i ≠ comp → i ≠ rem → h3 !! i = h !! i) as Hrest3
      by (intros i ? ? ?; unfold h3; by rewrite !list_lookup_insert_ne).
    edestruct (IH Hnd h3 (c ++ [k]) ({[k]} ∪ s) (remove k d))
      as (h' & Hrun & Hlen & Hc' & Hs' & Hd' & Hrest).
    + intros i Hi. rewrite Hrest3 by lia. by apply Hold.
    + unfold h3. rewrite !list_lookup_insert_ne by done.
      by apply list_lookup_insert_eq.
    + unfold h3. rewrite list_lookup_insert_ne by done.
      apply list_lookup_insert_eq. by rewrite length_insert.
    + apply list_lookup_insert_eq. by rewrite !length_insert.
    + intros k' Hk'. rewrite keys_remove. apply list_elem_of_filter.
      split; [set_solver|]. apply Hsub. by right.
    + exists h'. split; [exact Hrun|]. rewrite Hlen, Hlen3.
      split; [done|]. rewrite Hc', Hs', Hd', <-app_assoc, without_cons.
      split_and!; try done.
      * do 2 f_equal. set_solver.
      * intros i ? ? ?. rewrite Hrest by done. by apply Hrest3.
Qed.
End store_scan.

Section store_loop.
Import PyDict Store.
Implicit Types (h : store) (r : ref).

Lemma step_alloc {B} (f : ref → M B) h o :
  (alloc o ≫= f) h = f (length h) (h ++ [o]).
Proof. reflexivity. Qed.

Lemma stage_refs_next base stage :
  setitem (stage_label stage) (base + stage) (stage_refs base stage)
  = stage_refs base (S stage).
Proof.
  unfold stage_refs. rewrite setitem_new.
  - by rewrite seq_S, fmap_app.
  - unfold keys. rewrite <-list_fmap_compose.
    intros (j & Heq & Hj)%list_elem_of_fmap. simpl in Heq.
    unfold stage_label in Heq.
    apply (inj (String.append "stage_")) in Heq. apply (inj pretty) in Heq.
    subst j. apply elem_of_seq in Hj. lia.
Qed.

(** Filing the stage that sits in the cell after the last one. *)
Lemma shape_filed h0 h h2 stage groups entries completed g entries' completed' :
  loop_shape h0 h stage groups entries completed →
  length h2 = S (length h) →
  (∀ i, i < length h → i ≠ length h0 + 1 → i ≠ length h0 + 2 → h2 !! i = h !! i) →
  h2 !! length h = Some (StrList g) →
  h2 !! (length h0 + 1) = Some (ObjDict entries') →
  h2 !! (length h0 + 2) = Some (StrSet completed') →
  loop_shape h0
    (<[length h0 := ObjDict (setitem (stage_label stage) (length h)
                               (stage_refs (length h0 + 3) stage))]> h2)
    (S stage) (groups ++ [g]) entries' completed'.
Proof.
  intros [Hlen Hglen Hold Hpg Hrem Hcomp Hstages] Hlen2 Hsame Hcs Hrem' Hcomp'.
  split.
  - rewrite length_insert. lia.
  - rewrite length_app. simpl. lia.
  - intros i Hi. rewrite list_lookup_insert_ne by lia.
    rewrite Hsame by lia. by apply Hold.
  - rewrite list_lookup_insert_eq by lia. do 2 f_equal.
    replace (length h) with (length h0 + 3 + stage) by done.
    apply stage_refs_next.
  - by rewrite list_lookup_insert_ne by lia.
  - by rewrite list_lookup_insert_ne by lia.
  - intros j g' Hj. rewrite list_lookup_insert_ne by lia.
    destruct (decide (j < stage)) as [Hlt|Hge].
    + rewrite lookup_app_l in Hj by lia.
      rewrite Hsame by lia. by apply Hstages.
    + pose proof (lookup_lt_Some _ _ _ Hj) as Hjlen.
      rewrite length_app in Hjlen. simpl in Hjlen.
      assert (j = stage) as -> by lia.
      rewrite lookup_app_r, Hglen, Nat.sub_diag in Hj by lia.
      injection Hj as <-. by rewrite <-Hlen.
Qed.

Lemma run_body h0 h stage groups entries completed skrem :
  loop_shape h0 h stage groups entries completed →
  resolves h0 entries skrem → NoDup (keys entries) → entries ≠ [] →
  ∃ h',
    body (length h0) (length h0 + 1) (length h0 + 2) stage h
    = Returned (S stage, h')
    ∧ loop_shape h0 h' (S stage) (groups ++ [next_stage skrem completed])
        (without (next_stage skrem completed) entries)
        (list_to_set (next_stage skrem completed) ∪ completed).
Proof.
  intros Hshape Hres Hnd Hne.
  pose proof Hshape as [Hlen Hglen Hold Hpg Hrem Hcomp Hstages].
  pose proof (lookup_lt_Some _ _ _ Hpg) as Hpg_lt.
  unfold body. rewrite step_alloc.
  set (h1 := h ++ [StrList []]).
  assert (length h1 = S (length h)) as Hlen1
    by (unfold h1; rewrite length_app; simpl; lia).
  assert (∀ i, i < length h → h1 !! i = h !! i) as Hsame1
    by (intros i Hi; unfold h1; by rewrite lookup_app_l).
  assert (h1 !! length h = Some (StrList [])) as Hcs1
    by (unfold h1; by rewrite list_lookup_middle).
  assert (h1 !! (length h0 + 1) = Some (ObjDict entries)) as Hrem1
    by (rewrite Hsame1 by lia; done).
  assert (h1 !! (length h0 + 2) = Some (StrSet completed)) as Hcomp1
    by (rewrite Hsame1 by lia; done).
  rewrite (run_load_as as_obj_dict _ _ _ _ _ Hrem1 eq_refl).
  destruct (run_scan h0 (items entries) skrem (length h) (length h0 + 2)
              (length h0 + 1) Hres ltac:(lia) ltac:(lia) ltac:(lia)
              ltac:(lia) ltac:(lia) ltac:(lia) Hnd
              h1 [] completed entries)
    as (h2 & Hrun & Hlen2 & Hcs2 & Hcomp2 & Hrem2 & Hsame2); try done.
  { intros i Hi. rewrite Hsame1 by lia. by apply Hold. }
  rewrite run_bind, Hrun. cbv beta iota.
  rewrite (run_load_as as_str_list _ _ _ _ _ Hcs2 eq_refl).
  unfold next_stage.
  destruct (ready skrem completed) as [|p placed] eqn:Hready.
  - (* nothing placed: the first remaining id is forced *)
    cbn [app]. rewrite without_nil in Hrem2.
    rewrite list_to_set_nil, (left_id_L ∅ (∪)) in Hcomp2.
    cbn [app] in Hcs2.
    rewrite (run_load_as as_obj_dict _ _ _ _ _ Hrem2 eq_refl).
    destruct entries as [|[k r] entries]; [done|].
    assert (keys skrem = k :: keys entries) as Hkeys
      by (by rewrite <-(resolves_keys _ _ _ Hres)).
    rewrite Hkeys. cbn [take].
    unfold first_key. cbn [keys fmap list_fmap fst]. rewrite run_lift.
    rewrite (step_list_append _ _ _ _ _ Hcs2).
    erewrite step_set_add; [|rewrite list_lookup_insert_ne by lia; exact Hcomp2].
    erewrite step_dict_delitem;
      [|rewrite !list_lookup_insert_ne by lia; exact Hrem2|left].
    erewrite step_dict_setitem.
    2:{ rewrite !list_lookup_insert_ne by lia. rewrite Hsame2 by lia.
        rewrite Hsame1 by lia. exact Hpg. }
    eexists. split; [reflexivity|].
    eapply (shape_filed h0 h); [done| | | | |].
    + rewrite !length_insert. lia.
    + intros i ? ? ?. rewrite !list_lookup_insert_ne by lia.
      rewrite Hsame2 by lia. by apply Hsame1.
    + rewrite !list_lookup_insert_ne by lia.
      apply list_lookup_insert_eq. lia.
    + rewrite list_lookup_insert_eq by (rewrite !length_insert; lia).
      by rewrite <-(without_nil (remove k _)), without_cons.
    + rewrite list_lookup_insert_ne by lia.
      rewrite list_lookup_insert_eq by (rewrite !length_insert; lia).
      do 2 f_equal. set_solver.
  - (* the scan placed something *)
    cbn [app].
    erewrite step_dict_setitem.
    2:{ rewrite Hsame2 by lia. rewrite Hsame1 by lia. exact Hpg. }
    eexists. split; [reflexivity|].
    eapply (shape_filed h0 h); [done| | | | |]; try done.
    + lia.
    + intros i ? ? ?. rewrite Hsame2 by lia. by apply Hsame1.
Qed.

Lemma resolves_length h d sk : resolves h d sk → length d = length sk.
Proof. apply Forall2_length. Qed.

Lemma run_while h0 fuel :
  ∀ h stage groups entries completed skrem,
    loop_shape h0 h stage groups entries completed →
    resolves h0 entries skrem → NoDup (keys entries) → length entries ≤ fuel →
    ∃ h' entries' completed',
      while_remaining fuel (length h0) (length h0 + 1) (length h0 + 2) stage h
      = Returned (length h0, h')
      ∧ loop_shape h0 h' (stage + length (stages fuel skrem completed))
          (groups ++ stages fuel skrem completed) entries' completed'.
Proof.
  induction fuel as [|fuel IH];
    intros h stage groups entries completed skrem Hshape Hres Hnd Hfuel.
  - destruct entries; [|simpl in Hfuel; lia].
    apply Forall2_nil_inv_l in Hres as ->.
    exists h, [], completed. cbn [while_remaining].
    rewrite (run_load_as as_obj_dict _ _ _ _ _ (shape_remaining _ _ _ _ _ _ Hshape) eq_refl).
    split; [done|]. simpl. by rewrite app_nil_r, Nat.add_0_r.
  - cbn [while_remaining].
    rewrite (run_load_as as_obj_dict _ _ _ _ _ (shape_remaining _ _ _ _ _ _ Hshape) eq_refl).
    destruct entries as [|[k r] entries].
    + apply Forall2_nil_inv_l in Hres as ->.
      exists h, [], completed. split; [done|]. simpl.
      by rewrite app_nil_r, Nat.add_0_r.
    + destruct skrem as [|kd skrem]; [by apply Forall2_nil_inv_r in Hres|].
      destruct (run_body h0 h stage groups ((k, r) :: entries) completed
                  (kd :: skrem) Hshape Hres Hnd ltac:(done))
        as (h1 & Hrun & Hshape1).
      rewrite run_bind, Hrun. cbv beta iota.
      set (g := next_stage (kd :: skrem) completed) in *.
      destruct (IH h1 (S stage) (groups ++ [g]) (without g ((k, r) :: entries))
                  (list_to_set g ∪ completed) (without g (kd :: skrem)))
        as (h' & entries' & completed' & Hrun' & Hshape'); try done.
      * by apply resolves_without.
      * by apply NoDup_keys_without.
      * rewrite (resolves_length h0 _ (without g (kd :: skrem)))
          by by apply resolves_without.
        assert (NoDup (keys (kd :: skrem))) as Hnd'
          by by rewrite <-(resolves_keys _ _ _ Hres).
        pose proof (next_stage_shrinks kd skrem completed Hnd') as Hshrink.
        apply resolves_length in Hres. simpl in Hres, Hfuel. fold g in Hshrink. lia.
      * exists h', entries', completed'. split; [exact Hrun'|].
        cbn [stages]. fold g. cbn [length].
        rewrite <-app_assoc in Hshape'. cbn [app] in Hshape'.
        by replace (stage + S (length (stages fuel (without g (kd :: skrem))
                                         (list_to_set g ∪ completed))))
          with (S stage + length (stages fuel (without g (kd :: skrem))
                                    (list_to_set g ∪ completed))) by lia.
Qed.

Lemma labelled_lookup start groups j :
  labelled start groups !! j
  = (λ g, (stage_label (start + j), g)) <$> groups !! j.
Proof.
  revert start j. induction groups as [|g groups IH]; intros start [|j]; simpl;
    try done.
  - by rewrite Nat.add_0_r.
  - rewrite IH. by replace (S start + j) with (start + S j) by lia.
Qed.

Lemma shape_groups_at h0 h stage groups entries completed :
  loop_shape h0 h stage groups entries completed →
  groups_at h (length h0) = Some (labelled 0 groups).
Proof.
  intros [Hlen Hglen Hold Hpg Hrem Hcomp Hstages].
  unfold groups_at. rewrite Hpg. apply mapM_Some.
  apply Forall2_same_length_lookup_2.
  - unfold stage_refs. by rewrite length_fmap, length_seq, length_labelled.
  - intros j [label r] [label' g]. unfold stage_refs.
    rewrite list_lookup_fmap, labelled_lookup.
    intros Hj Hg.
    destruct (seq 0 stage !! j) as [j'|] eqn:Hseq; [|done].
    apply lookup_seq in Hseq as [-> _]. simpl in Hj. injection Hj as <- <-.
    destruct (groups !! j) as [g'|] eqn:Hgj; [|done].
    simpl in Hg. injection Hg as <- <-. simpl.
    unfold str_list_at. by rewrite (Hstages _ _ Hgj).
Qed.

Lemma run_stage_items h0 l refs work fuel :
  h0 !! l = Some (ObjList refs) →
  Forall2 (holds_item h0) refs work →
  length work ≤ fuel →
  ∃ r h',
    stage_items fuel l h0 = Returned (r, h')
    ∧ groups_at h' r
      = Some (labelled 0 (stages (length work) (comprehension fst snd work) ∅))
    ∧ ∀ i, i < length h0 → h' !! i = h0 !! i.
Proof.
  intros Hl Hitems Hfuel.
  pose proof (lookup_lt_Some _ _ _ Hl) as Hl_lt.
  unfold stage_items. rewrite step_alloc.
  set (h1 := h0 ++ [ObjDict []]).
  assert (∀ i, i < length h0 → h1 !! i = h0 !! i) as Hsame1
    by (intros i Hi; unfold h1; by rewrite lookup_app_l).
  assert (h1 !! l = Some (ObjList refs)) as Hl1 by (by rewrite Hsame1).
  rewrite (run_load_as as_obj_list _ _ _ _ _ Hl1 eq_refl).
  destruct (run_index_by_id h0 h1 refs work Hsame1 Hitems [] [])
    as (d & Hindex & Hres); [constructor|].
  fold (comprehension fst snd work) in Hres.
  rewrite run_bind, Hindex. cbv beta iota.
  rewrite step_alloc, step_alloc.
  assert (length h1 = length h0 + 1) as Hlen1
    by (unfold h1; rewrite length_app; simpl; lia).
  rewrite !length_app, Hlen1. cbn [length].
  replace (length h0 + 1 + 1) with (length h0 + 2) by lia.
  set (h3 := (h1 ++ [ObjDict d]) ++ [StrSet ∅]).
  assert (loop_shape h0 h3 0 [] d ∅) as Hshape.
  { unfold h3. split.
    - rewrite !length_app, Hlen1. simpl. lia.
    - done.
    - intros i Hi. rewrite !lookup_app_l by (rewrite ?length_app; lia).
      by apply Hsame1.
    - rewrite !lookup_app_l by (rewrite ?length_app; simpl; lia).
      unfold h1. by rewrite list_lookup_middle.
    - rewrite lookup_app_l by (rewrite ?length_app; simpl; lia).
      by rewrite list_lookup_middle.
    - by rewrite list_lookup_middle by (rewrite length_app; simpl; lia).
    - intros j g Hj. done. }
  pose proof (length_comprehension fst snd work) as Hlenc.
  pose proof (NoDup_keys_comprehension fst snd work) as Hndc.
  destruct (run_while h0 fuel h3 0 [] d ∅ _ Hshape Hres)
    as (h' & entries' & completed' & Hrun & Hshape').
  { by rewrite (resolves_keys _ _ _ Hres). }
  { rewrite (resolves_length _ _ _ Hres). lia. }
  exists (length h0), h'. split; [exact Hrun|]. split.
  - rewrite (shape_groups_at _ _ _ _ _ _ Hshape'). simpl. do 2 f_equal.
    apply stages_fuel; [done|lia..].
  - apply (shape_old _ _ _ _ _ _ Hshape').
Qed.
End store_loop.

(** ** The stage that follows the stages filed so far *)

Section forced_facts.
Import PyDict.
Implicit Types (rem : dict (list string)) (comp : gset string).

Lemma without_app {V} (placed1 placed2 : list string) (d : dict V) :
  without placed2 (without placed1 d) = without (placed1 ++ placed2) d.
Proof.
  unfold without. rewrite list_filter_filter.
  apply list_filter_iff. intros [k v]. simpl. rewrite elem_of_app. tauto.
Qed.

Lemma without_erase {V W} (f : V → W) placed (d : dict V) :
  map_values f (without placed d) = without placed (map_values f d).
Proof.
  unfold without, map_values. induction d as [|[k v] d IH]; [done|].
  rewrite fmap_cons, !filter_cons. simpl.
  destruct (decide (k ∉ placed)); csimpl; by rewrite IH.
Qed.

Lemma stages_after fuel rem comp (gs1 gs2 : list (list string)) :
  NoDup (keys rem) → length rem ≤ fuel →
  stages fuel rem comp = gs1 ++ gs2 →
  gs2 = stages (length (without (concat gs1) rem)) (without (concat gs1) rem)
          (list_to_set (concat gs1) ∪ comp).
Proof.
  revert fuel rem comp. induction gs1 as [|g gs1 IH]; intros fuel rem comp Hnd Hfuel.
  - simpl. intros <-. rewrite without_nil, (left_id_L ∅ (∪)).
    by apply stages_fuel.
  - destruct rem as [|kv rem]; [by destruct fuel|].
    destruct fuel as [|fuel]; [simpl in Hfuel; lia|].
    simpl. intros [= <- Hrest].
    pose proof (next_stage_shrinks kv rem comp Hnd) as Hshrink.
    apply IH in Hrest; [|by apply NoDup_keys_without|simpl in Hfuel; lia].
    rewrite without_app in Hrest. rewrite Hrest. f_equal.
    rewrite list_to_set_app_L. set_solver.
Qed.

Lemma labelled_app_inv start (groups : list (list string))
    (before after : dict (list string)) :
  labelled start groups = before ++ after →
  ∃ gs1 gs2, groups = gs1 ++ gs2 ∧ values before = gs1 ∧ length before = length gs1
             ∧ after = labelled (start + length gs1) gs2.
Proof.
  revert start groups. induction before as [|[label g] before IH]; intros start groups.
  - simpl. intros <-. exists [], groups. by rewrite Nat.add_0_r.
  - destruct groups as [|g' groups]; [done|]. simpl. intros [= _ <- Hrest].
    destruct (IH _ _ Hrest) as (gs1 & gs2 & -> & Hvalues & Hlen & ->).
    exists (g' :: gs1), gs2. unfold values in *. csimpl.
    rewrite Hvalues, Hlen, Nat.add_succ_r. done.
Qed.

Lemma stalled_prefix_forces_first work (before after : dict (list string)) :
  labelled 0 (stages (length work) (comprehension fst snd work) ∅) = before ++ after →
  let placed := concat (values before) in
  let rem := without placed (comprehension fst snd work) in
  rem ≠ [] → ready rem (list_to_set placed) = [] →
  ∃ k deps rest after',
    rem = (k, deps) :: rest ∧ after = (stage_label (length before), [k]) :: after'.
Proof.
  intros Hpg placed rem Hne Hready.
  destruct (labelled_app_inv _ _ _ _ Hpg) as (gs1 & gs2 & Hgs & Hvalues & Hlen & ->).
  apply stages_after in Hgs;
    [|apply NoDup_keys_comprehension|apply length_comprehension].
  rewrite <-Hvalues, (right_id_L ∅ (∪)) in Hgs. fold placed rem in Hgs.
  destruct rem as [|[k deps] rest] eqn:Hrem; [done|].
  exists k, deps, rest. eexists. split; [done|].
  rewrite Hgs, Hlen. simpl. unfold next_stage. by rewrite Hready.
Qed.

Lemma stalled_scan_ready {V} (f : V → list string) (remaining : dict V) comp
    (r : list string * gset string * dict V) :
  NoDup (keys remaining) →
  erase_scan f <$>
    (Returned r : outcome (list string * gset string * dict V))
  = Skeleton.scan (map_values f remaining) [] comp (map_values f remaining) →
  r.1.1 = [] → ready (map_values f remaining) comp = [].
Proof.
  intros Hnd Hscan Hnone. rewrite scan_ready in Hscan by (by rewrite ?keys_erase).
  simpl in Hscan. injection Hscan as Hplaced _ _. congruence.
Qed.
End forced_facts.

(** ** The claims *)

(** C1. The claim asks that, on acyclic input, every item sits in a stage
    strictly after the stages of its dependencies. The code does not do
    that: an id counts as completed for the rest of the scan that places
    it, so an item listed after its dependencies joins their stage. On the
    repository's own example plans every item lands in stage 0, next to
    the items it depends on. *)
Theorem dependent_item_joins_its_dependency :
  (returns_within (λ fuel, Orchestrator._calculate_parallel_groups fuel auth_analysis) 4
     [("stage_0", ["locate-auth"; "analyze-auth"; "research-jwt"; "synthesize"])]
   ∧ stage_of "analyze-auth" [["locate-auth"; "analyze-auth"; "research-jwt"; "synthesize"]]
     = stage_of "locate-auth" [["locate-auth"; "analyze-auth"; "research-jwt"; "synthesize"]])
  ∧ (returns_within (λ fuel, TodoManagement.identify_parallel_opportunities fuel auth_tasks) 5
       [("stage_0", ["auth-1"; "auth-2"; "auth-3"; "auth-4"; "auth-5"])]
     ∧ stage_of "auth-5" [["auth-1"; "auth-2"; "auth-3"; "auth-4"; "auth-5"]]
       = stage_of "auth-1" [["auth-1"; "auth-2"; "auth-3"; "auth-4"; "auth-5"]]).
Proof.
  split; (split; [|by vm_compute]); intros fuel Hfuel.
  - rewrite exec_partition, partition_stages by done. by vm_compute.
  - rewrite task_partition, partition_stages by done. by vm_compute.
Qed.

(** C2. On a, b, c, d (b and c depend on a, d on b and c), in that order,
    the claim expects the three stages {a}, {b, c}, {d}. Both copies file
    the single stage [a, b, c, d]. *)
Theorem diamond_lands_in_one_stage :
  returns_within
    (λ fuel, Orchestrator._calculate_parallel_groups fuel (as_executions diamond)) 4
    [("stage_0", ["a"; "b"; "c"; "d"])]
  ∧ returns_within
      (λ fuel, TodoManagement.identify_parallel_opportunities fuel (as_tasks diamond)) 4
      [("stage_0", ["a"; "b"; "c"; "d"])].
Proof.
  split; intros fuel Hfuel.
  - rewrite exec_partition, partition_stages by done. by vm_compute.
  - rewrite task_partition, partition_stages by done. by vm_compute.
Qed.

(** C3. When the input ids are pairwise distinct, the stages taken together
    hold every input id exactly once, whatever the dependency lists are:
    the concatenation of the stages is a duplicate-free rearrangement of
    the input ids. *)
Theorem every_id_in_exactly_one_stage :
  (∀ executions,
     NoDup (Orchestrator.id <$> executions) →
     ∃ pg,
       returns_within (λ fuel, Orchestrator._calculate_parallel_groups fuel executions)
         (length executions) pg
       ∧ concat (PyDict.values pg) ≡ₚ Orchestrator.id <$> executions
       ∧ NoDup (concat (PyDict.values pg)))
  ∧ (∀ tasks,
       NoDup (TodoManagement.id <$> tasks) →
       ∃ pg,
         returns_within (λ fuel, TodoManagement.identify_parallel_opportunities fuel tasks)
           (length tasks) pg
         ∧ concat (PyDict.values pg) ≡ₚ TodoManagement.id <$> tasks
         ∧ NoDup (concat (PyDict.values pg))).
Proof.
  split.
  - intros executions Hnd.
    assert ((exec_skeleton <$> executions).*1 = Orchestrator.id <$> executions) as Hids
      by by rewrite <-list_fmap_compose.
    pose proof (partition_cover (exec_skeleton <$> executions)) as Hcover.
    rewrite Hids in Hcover. specialize (Hcover Hnd).
    eexists. split_and!; [|exact Hcover|by rewrite Hcover].
    intros fuel Hfuel. rewrite exec_partition.
    apply partition_returns. by rewrite length_fmap.
  - intros tasks Hnd.
    assert ((task_skeleton <$> tasks).*1 = TodoManagement.id <$> tasks) as Hids
      by by rewrite <-list_fmap_compose.
    pose proof (partition_cover (task_skeleton <$> tasks)) as Hcover.
    rewrite Hids in Hcover. specialize (Hcover Hnd).
    eexists. split_and!; [|exact Hcover|by rewrite Hcover].
    intros fuel Hfuel. rewrite task_partition.
    apply partition_returns. by rewrite length_fmap.
Qed.

Lemma every_id_in_exactly_one_stage_witness :
  NoDup (Orchestrator.id <$> as_executions two_cycle)
  ∧ ∃ pg,
      returns_within
        (λ fuel, Orchestrator._calculate_parallel_groups fuel (as_executions two_cycle))
        (length (as_executions two_cycle)) pg
      ∧ concat (PyDict.values pg) ≡ₚ Orchestrator.id <$> as_executions two_cycle
      ∧ NoDup (concat (PyDict.values pg)).
Proof.
  assert (NoDup (Orchestrator.id <$> as_executions two_cycle)) as Hnd
    by (apply (bool_decide_unpack _); by vm_compute).
  split; [exact Hnd|].
  exact (proj1 every_id_in_exactly_one_stage (as_executions two_cycle) Hnd).
Defined.

(** C4. When the input ids are pairwise distinct, the loop comes to an end
    (it returns once granted as many iterations as there are items) and
    files at most as many stages as there are items. *)
Theorem at_most_one_stage_per_item :
  (∀ executions,
     NoDup (Orchestrator.id <$> executions) →
     ∃ pg,
       returns_within (λ fuel, Orchestrator._calculate_parallel_groups fuel executions)
         (length executions) pg
       ∧ length pg ≤ length executions)
  ∧ (∀ tasks,
       NoDup (TodoManagement.id <$> tasks) →
       ∃ pg,
         returns_within (λ fuel, TodoManagement.identify_parallel_opportunities fuel tasks)
           (length tasks) pg
         ∧ length pg ≤ length tasks).
Proof.
  split.
  - intros executions _.
    pose proof (partition_length (exec_skeleton <$> executions)) as Hlen.
    rewrite !length_fmap in Hlen.
    eexists. split; [|exact Hlen].
    intros fuel Hfuel. rewrite exec_partition.
    pose proof (partition_returns (exec_skeleton <$> executions) fuel) as Hret.
    rewrite !length_fmap in Hret. by apply Hret.
  - intros tasks _.
    pose proof (partition_length (task_skeleton <$> tasks)) as Hlen.
    rewrite !length_fmap in Hlen.
    eexists. split; [|exact Hlen].
    intros fuel Hfuel. rewrite task_partition.
    pose proof (partition_returns (task_skeleton <$> tasks) fuel) as Hret.
    rewrite !length_fmap in Hret. by apply Hret.
Qed.

Lemma at_most_one_stage_per_item_witness :
  NoDup (TodoManagement.id <$> auth_tasks)
  ∧ ∃ pg,
      returns_within
        (λ fuel, TodoManagement.identify_parallel_opportunities fuel auth_tasks)
        (length auth_tasks) pg
      ∧ length pg ≤ length auth_tasks.
Proof.
  assert (NoDup (TodoManagement.id <$> auth_tasks)) as Hnd
    by (apply (bool_decide_unpack _); by vm_compute).
  split; [exact Hnd|].
  exact (proj2 at_most_one_stage_per_item auth_tasks Hnd).
Defined.

(** C5. On the two-item cycle (A depends on B, B depends on A) both copies
    return, without raising, once granted two iterations, and file two
    stages of one item each: A, forced, then B. *)
Theorem two_cycle_gives_two_singletons :
  returns_within
    (λ fuel, Orchestrator._calculate_parallel_groups fuel (as_executions two_cycle)) 2
    [("stage_0", ["A"]); ("stage_1", ["B"])]
  ∧ returns_within
      (λ fuel, TodoManagement.identify_parallel_opportunities fuel (as_tasks two_cycle)) 2
      [("stage_0", ["A"]); ("stage_1", ["B"])].
Proof.
  split; intros fuel Hfuel.
  - rewrite exec_partition, partition_stages by done. by vm_compute.
  - rewrite task_partition, partition_stages by done. by vm_compute.
Qed.

Lemma two_cycle_gives_two_singletons_witness :
  Orchestrator._calculate_parallel_groups 2 (as_executions two_cycle)
  = Returned [("stage_0", ["A"]); ("stage_1", ["B"])].
Proof. apply (proj1 two_cycle_gives_two_singletons 2). lia. Defined.



(** C7. No input makes either copy raise: each returns once granted as
    many iterations as there are items. Take the mapping it returns and
    any initial part of it as the stages filed so far: the items that
    remain are those of the input (one per id) whose id is in none of these
    stages, and the completed ids are the ids in them. Whenever the scan of
    these remaining items places nothing while items remain, the next stage
    of the returned mapping is the first remaining id alone, whatever its
    dependencies are. The iteration that does so files that stage, marks
    the id completed and unbinds it. *)
Theorem stalled_scan_forces_first_remaining :
  (∀ executions,
     ∃ pg,
       returns_within
         (λ fuel, Orchestrator._calculate_parallel_groups fuel executions)
         (length executions) pg
       ∧ ∀ before after comp rem,
           pg = before ++ after →
           let placed := concat (PyDict.values before) in
           let remaining :=
             without placed
               (PyDict.comprehension Orchestrator.id (λ exec, exec) executions) in
           remaining ≠ [] →
           Orchestrator.scan (PyDict.items remaining) [] (list_to_set placed) remaining
           = Returned ([], comp, rem) →
           ∃ exec_id execution rest after',
             remaining = (exec_id, execution) :: rest
             ∧ after = (stage_label (length before), [exec_id]) :: after')
  ∧ (∀ tasks,
       ∃ pg,
         returns_within
           (λ fuel, TodoManagement.identify_parallel_opportunities fuel tasks)
           (length tasks) pg
         ∧ ∀ before after comp rem,
             pg = before ++ after →
             let placed := concat (PyDict.values before) in
             let remaining :=
               without placed
                 (PyDict.comprehension TodoManagement.id (λ task, task) tasks) in
             remaining ≠ [] →
             TodoManagement.scan (PyDict.items remaining) [] (list_to_set placed) remaining
             = Returned ([], comp, rem) →
             ∃ task_id task rest after',
               remaining = (task_id, task) :: rest
               ∧ after = (stage_label (length before), [task_id]) :: after')
  ∧ (∀ st comp rem,
       Orchestrator.scan (PyDict.items (Orchestrator.remaining_executions st)) []
         (Orchestrator.completed_executions st) (Orchestrator.remaining_executions st)
       = Returned ([], comp, rem) →
       Orchestrator.remaining_executions st ≠ [] →
       ∃ exec_id execution rest,
         Orchestrator.remaining_executions st = (exec_id, execution) :: rest
         ∧ Orchestrator.body st = Returned {|
             Orchestrator.parallel_groups :=
               PyDict.setitem (stage_label (Orchestrator.stage st)) [exec_id]
                 (Orchestrator.parallel_groups st);
             Orchestrator.stage := S (Orchestrator.stage st);
             Orchestrator.remaining_executions :=
               PyDict.remove exec_id (Orchestrator.remaining_executions st);
             Orchestrator.completed_executions :=
               {[exec_id]} ∪ Orchestrator.completed_executions st |})
  ∧ (∀ st comp rem,
       TodoManagement.scan (PyDict.items (TodoManagement.remaining_tasks st)) []
         (TodoManagement.completed_tasks st) (TodoManagement.remaining_tasks st)
       = Returned ([], comp, rem) →
       TodoManagement.remaining_tasks st ≠ [] →
       ∃ task_id task rest,
         TodoManagement.remaining_tasks st = (task_id, task) :: rest
         ∧ TodoManagement.body st = Returned {|
             TodoManagement.parallel_groups :=
               PyDict.setitem (stage_label (TodoManagement.stage st)) [task_id]
                 (TodoManagement.parallel_groups st);
             TodoManagement.stage := S (TodoManagement.stage st);
             TodoManagement.remaining_tasks :=
               PyDict.remove task_id (TodoManagement.remaining_tasks st);
             TodoManagement.completed_tasks :=
               {[task_id]} ∪ TodoManagement.completed_tasks st |}).
Proof.
  split_and!.
  - intros executions. eexists. split.
    { intros fuel Hfuel. rewrite exec_partition.
      apply partition_returns. by rewrite length_fmap. }
    intros before after comp rem Hpg placed remaining Hne Hscan.
    pose proof (comprehension_erase Orchestrator.dependencies
                  Orchestrator.id (λ exec, exec) executions) as Herase.
    change ((λ x, (Orchestrator.id x, Orchestrator.dependencies x)) <$> executions)
      with (exec_skeleton <$> executions) in Herase.
    assert (PyDict.map_values Orchestrator.dependencies remaining
            = without placed
                (PyDict.comprehension fst snd (exec_skeleton <$> executions)))
      as Hrem by (unfold remaining; by rewrite without_erase, <-Herase).
    assert (ready (PyDict.map_values Orchestrator.dependencies remaining)
              (list_to_set placed) = []) as Hready.
    { apply (stalled_scan_ready _ _ _ ([], comp, rem)); [| |done].
      - apply NoDup_keys_without, NoDup_keys_comprehension.
      - unfold PyDict.items in Hscan. by rewrite exec_scan_erase, Hscan. }
    rewrite Hrem in Hready.
    assert (without placed (PyDict.comprehension fst snd (exec_skeleton <$> executions)) ≠ [])
      as Hne' by (rewrite <-Hrem; by destruct remaining).
    rewrite length_fmap in Hpg.
    destruct (stalled_prefix_forces_first (exec_skeleton <$> executions) before after)
      as (k & deps & rest & after' & Hfirst & Hafter);
      [by rewrite length_fmap|exact Hne'|exact Hready|].
    fold placed in Hfirst. rewrite <-Hrem in Hfirst.
    destruct remaining as [|[k' execution] rest']; [done|].
    injection Hfirst as -> _ _. by exists k, execution, rest', after'.
  - intros tasks. eexists. split.
    { intros fuel Hfuel. rewrite task_partition.
      apply partition_returns. by rewrite length_fmap. }
    intros before after comp rem Hpg placed remaining Hne Hscan.
    pose proof (comprehension_erase TodoManagement.dependencies
                  TodoManagement.id (λ task, task) tasks) as Herase.
    change ((λ x, (TodoManagement.id x, TodoManagement.dependencies x)) <$> tasks)
      with (task_skeleton <$> tasks) in Herase.
    assert (PyDict.map_values TodoManagement.dependencies remaining
            = without placed
                (PyDict.comprehension fst snd (task_skeleton <$> tasks)))
      as Hrem by (unfold remaining; by rewrite without_erase, <-Herase).
    assert (ready (PyDict.map_values TodoManagement.dependencies remaining)
              (list_to_set placed) = []) as Hready.
    { apply (stalled_scan_ready _ _ _ ([], comp, rem)); [| |done].
      - apply NoDup_keys_without, NoDup_keys_comprehension.
      - unfold PyDict.items in Hscan. by rewrite task_scan_erase, Hscan. }
    rewrite Hrem in Hready.
    assert (without placed (PyDict.comprehension fst snd (task_skeleton <$> tasks)) ≠ [])
      as Hne' by (rewrite <-Hrem; by destruct remaining).
    rewrite length_fmap in Hpg.
    destruct (stalled_prefix_forces_first (task_skeleton <$> tasks) before after)
      as (k & deps & rest & after' & Hfirst & Hafter);
      [by rewrite length_fmap|exact Hne'|exact Hready|].
    fold placed in Hfirst. rewrite <-Hrem in Hfirst.
    destruct remaining as [|[k' task] rest']; [done|].
    injection Hfirst as -> _ _. by exists k, task, rest', after'.
  - intros [pg n remaining completed] comp rem Hscan Hne. simpl in *.
    destruct (exec_scan_grows _ _ _ _ _ _ _ Hscan) as [_ [-> ->]]; [done|].
    unfold Orchestrator.body.
    cbn [Orchestrator.remaining_executions Orchestrator.completed_executions
         Orchestrator.parallel_groups Orchestrator.stage].
    rewrite Hscan. clear Hscan.
    destruct remaining as [|[k e] rest]; [done|].
    exists k, e, rest. split; [done|]. simpl.
    unfold PyDict.delitem, PyDict.contains.
    by rewrite bool_decide_eq_true_2 by (simpl; left).
  - intros [pg n remaining completed] comp rem Hscan Hne. simpl in *.
    destruct (task_scan_grows _ _ _ _ _ _ _ Hscan) as [_ [-> ->]]; [done|].
    unfold TodoManagement.body.
    cbn [TodoManagement.remaining_tasks TodoManagement.completed_tasks
         TodoManagement.parallel_groups TodoManagement.stage].
    rewrite Hscan. clear Hscan.
    destruct remaining as [|[k t] rest]; [done|].
    exists k, t, rest. split; [done|]. simpl.
    unfold PyDict.delitem, PyDict.contains.
    by rewrite bool_decide_eq_true_2 by (simpl; left).
Qed.

Lemma stalled_scan_forces_first_remaining_witness :
  (∃ pg after',
     returns_within
       (λ fuel, Orchestrator._calculate_parallel_groups fuel (as_executions two_cycle))
       2 pg
     ∧ pg = (stage_label 0, ["A"]) :: after')
  ∧ ∃ exec_id execution rest,
      Orchestrator.remaining_executions stalled = (exec_id, execution) :: rest
      ∧ Orchestrator.body stalled = Returned {|
          Orchestrator.parallel_groups :=
            PyDict.setitem (stage_label (Orchestrator.stage stalled)) [exec_id]
              (Orchestrator.parallel_groups stalled);
          Orchestrator.stage := S (Orchestrator.stage stalled);
          Orchestrator.remaining_executions :=
            PyDict.remove exec_id (Orchestrator.remaining_executions stalled);
          Orchestrator.completed_executions :=
            {[exec_id]} ∪ Orchestrator.completed_executions stalled |}.
Proof.
  split.
  - destruct (proj1 stalled_scan_forces_first_remaining (as_executions two_cycle))
      as (pg & Hret & Hforced).
    destruct (Hforced [] pg (list_to_set [])
                (Orchestrator.remaining_executions stalled) eq_refl)
      as (exec_id & execution & rest & after' & Hfirst & Hafter).
    + discriminate.
    + reflexivity.
    + injection Hfirst as <- _ _. by exists pg, after'.
  - apply (proj1 (proj2 (proj2 stalled_scan_forces_first_remaining)) stalled ∅
             (Orchestrator.remaining_executions stalled)).
    + reflexivity.
    + discriminate.
Defined.

(** C8. The staging is a function of the items it is handed and leaves
    them alone. Run in a store on a list object that holds the items, and
    granted as many iterations as there are items, either copy returns a
    reference to a dict of stages; the mapping read there is the one the
    staging function ([_calculate_parallel_groups], resp.
    [identify_parallel_opportunities]) gives for that sequence of items,
    whatever the store and the references are, so two runs on equal
    sequences of items yield equal mappings; and every cell the store had
    before the call, the list and its items among them, holds after the
    call what it held before. *)
Theorem staging_is_pure :
  (∀ h items executions,
     holds_executions h items executions →
     ∃ pg,
       returns_within (λ fuel, Orchestrator._calculate_parallel_groups fuel executions)
         (length executions) pg
       ∧ ∀ fuel, length executions ≤ fuel →
           ∃ r h',
             Store.stage_items fuel items h = Returned (r, h')
             ∧ Store.groups_at h' r = Some pg
             ∧ ∀ i, i < length h → h' !! i = h !! i)
  ∧ (∀ h items tasks,
       holds_tasks h items tasks →
       ∃ pg,
         returns_within (λ fuel, TodoManagement.identify_parallel_opportunities fuel tasks)
           (length tasks) pg
         ∧ ∀ fuel, length tasks ≤ fuel →
             ∃ r h',
               Store.stage_items fuel items h = Returned (r, h')
               ∧ Store.groups_at h' r = Some pg
               ∧ ∀ i, i < length h → h' !! i = h !! i).
Proof.
  split.
  - intros h items executions (refs & Hitems & Hrefs).
    assert (Forall2 (holds_item h) refs (exec_skeleton <$> executions)) as Hwork.
    { apply Forall2_fmap_r. eapply Forall2_impl; [exact Hrefs|].
      intros r e Hr. by exists (Store.Execution e). }
    eexists. split.
    + intros fuel Hfuel. rewrite exec_partition.
      apply partition_returns. by rewrite length_fmap.
    + intros fuel Hfuel.
      destruct (run_stage_items h items refs _ fuel Hitems Hwork)
        as (r & h' & Hrun & Hgroups & Hold); [by rewrite length_fmap|].
      by exists r, h'.
  - intros h items tasks (refs & Hitems & Hrefs).
    assert (Forall2 (holds_item h) refs (task_skeleton <$> tasks)) as Hwork.
    { apply Forall2_fmap_r. eapply Forall2_impl; [exact Hrefs|].
      intros r t Hr. by exists (Store.Task t). }
    eexists. split.
    + intros fuel Hfuel. rewrite task_partition.
      apply partition_returns. by rewrite length_fmap.
    + intros fuel Hfuel.
      destruct (run_stage_items h items refs _ fuel Hitems Hwork)
        as (r & h' & Hrun & Hgroups & Hold); [by rewrite length_fmap|].
      by exists r, h'.
Qed.

Lemma staging_is_pure_witness :
  holds_executions cycle_store 3 (as_executions [("B", ["A"]); ("A", ["B"])])
  ∧ ∃ pg,
      returns_within
        (λ fuel, Orchestrator._calculate_parallel_groups fuel
                   (as_executions [("B", ["A"]); ("A", ["B"])]))
        2 pg
      ∧ ∀ fuel, 2 ≤ fuel →
          ∃ r h',
            Store.stage_items fuel 3 cycle_store = Returned (r, h')
            ∧ Store.groups_at h' r = Some pg
            ∧ ∀ i, i < length cycle_store → h' !! i = cycle_store !! i.
Proof.
  assert (holds_executions cycle_store 3
            (as_executions [("B", ["A"]); ("A", ["B"])])) as Hholds.
  { exists [2; 0]. split; [reflexivity|]. repeat constructor. }
  split; [exact Hholds|].
  exact (proj1 staging_is_pure cycle_store 3 _ Hholds).
Defined.

(** C9, as stated, fails on the empty input: with no items the loop body
    never runs and the result has no stage at all, not one. *)
Lemma no_items_no_stage :
  NoDup (Orchestrator.id <$> []) ∧ Forall (λ e, Orchestrator.dependencies e = []) []
  ∧ returns_within (λ fuel, Orchestrator._calculate_parallel_groups fuel []) 0 []
  ∧ ¬ ∃ label group,
        returns_within (λ fuel, Orchestrator._calculate_parallel_groups fuel []) 0
          [(label, group)].
Proof.
  split_and!; [apply NoDup_nil_2|apply Forall_nil_2|by intros [|fuel] _|].
  intros (label & group & Hret). specialize (Hret 0 (le_n 0)). discriminate.
Qed.

(** C9, amended. When there is at least one item, the ids are pairwise
    distinct and every dependency list is empty, both copies file exactly
    one stage, [stage_0], and it holds all the ids (in input order). *)
Theorem no_dependencies_one_stage :
  (∀ executions,
     executions ≠ [] →
     NoDup (Orchestrator.id <$> executions) →
     Forall (λ e, Orchestrator.dependencies e = []) executions →
     ∃ group,
       returns_within (λ fuel, Orchestrator._calculate_parallel_groups fuel executions)
         (length executions) [(stage_label 0, group)]
       ∧ group ≡ₚ Orchestrator.id <$> executions)
  ∧ (∀ tasks,
       tasks ≠ [] →
       NoDup (TodoManagement.id <$> tasks) →
       Forall (λ t, TodoManagement.dependencies t = []) tasks →
       ∃ group,
         returns_within (λ fuel, TodoManagement.identify_parallel_opportunities fuel tasks)
           (length tasks) [(stage_label 0, group)]
         ∧ group ≡ₚ TodoManagement.id <$> tasks).
Proof.
  assert (∀ work : list (string * list string),
            work ≠ [] → NoDup work.*1 → Forall (λ kv, kv.2 = []) work →
            returns_within (λ fuel, Skeleton.partition fuel work) (length work)
              [(stage_label 0, work.*1)]) as Hskeleton.
  { intros work Hne Hnd Hall fuel Hfuel.
    rewrite partition_stages, comprehension_distinct by done.
    destruct work as [|w work]; [done|].
    cbn [length]. by rewrite stages_no_deps. }
  split.
  - intros executions Hne Hnd Hall.
    exists (Orchestrator.id <$> executions). split; [|done].
    intros fuel Hfuel. rewrite exec_partition.
    replace (Orchestrator.id <$> executions) with (exec_skeleton <$> executions).*1
      by by rewrite <-list_fmap_compose.
    apply Hskeleton; rewrite ?length_fmap; try done.
    + by destruct executions.
    + by rewrite <-list_fmap_compose.
    + by apply Forall_fmap.
  - intros tasks Hne Hnd Hall.
    exists (TodoManagement.id <$> tasks). split; [|done].
    intros fuel Hfuel. rewrite task_partition.
    replace (TodoManagement.id <$> tasks) with (task_skeleton <$> tasks).*1
      by by rewrite <-list_fmap_compose.
    apply Hskeleton; rewrite ?length_fmap; try done.
    + by destruct tasks.
    + by rewrite <-list_fmap_compose.
    + by apply Forall_fmap.
Qed.

Lemma no_dependencies_one_stage_witness :
  auth_tasks_independent ≠ []
  ∧ NoDup (TodoManagement.id <$> auth_tasks_independent)
  ∧ Forall (λ t, TodoManagement.dependencies t = []) auth_tasks_independent
  ∧ ∃ group,
      returns_within
        (λ fuel, TodoManagement.identify_parallel_opportunities fuel auth_tasks_independent)
        (length auth_tasks_independent) [(stage_label 0, group)]
      ∧ group ≡ₚ TodoManagement.id <$> auth_tasks_independent.
Proof.
  assert (auth_tasks_independent ≠ []) as Hne by discriminate.
  assert (NoDup (TodoManagement.id <$> auth_tasks_independent)) as Hnd
    by (apply (bool_decide_unpack _); by vm_compute).
  assert (Forall (λ t, TodoManagement.dependencies t = []) auth_tasks_independent)
    as Hall by (repeat constructor).
  split_and!; [exact Hne|exact Hnd|exact Hall|].
  exact (proj2 no_dependencies_one_stage auth_tasks_independent Hne Hnd Hall).
Defined.

(** ** Updating one task record *)

Section get_set.
Import PyDict.
Context {V : Type}.
Implicit Types (d : dict V) (k : string) (v : V).

Lemma get_setitem k k' v d :
  get k' (setitem k v d) = if decide (k = k') then Some v else get k' d.
Proof.
  induction d as [|[k0 v0] d IH]; simpl.
  - repeat case_decide; congruence.
  - repeat (case_decide; simpl); try congruence.
Qed.

Lemma get_None k d : get k d = None ↔ k ∉ keys d.
Proof.
  unfold keys. induction d as [|[k0 v0] d IH]; csimpl.
  - split; [intros _; apply not_elem_of_nil|done].
  - rewrite not_elem_of_cons. case_decide; [subst|]; naive_solver.
Qed.

Lemma contains_get k d :
  contains k d = match get k d with Some _ => true | None => false end.
Proof.
  unfold contains. destruct (get k d) eqn:Hget.
  - apply bool_decide_eq_true_2. destruct (decide (k ∈ keys d)); [done|].
    apply get_None in n. congruence.
  - apply bool_decide_eq_false_2. by apply get_None.
Qed.
End get_set.

Section update_facts.
Import PyDict TodoManagement.
Implicit Types (task : dict json) (todos before after : list (dict json)).

Lemma for_todos_no_match task_id st le n1 n2 todos :
  Forall (λ task, id_is task_id task = false) todos →
  for_todos task_id st le n1 n2 todos = Returned todos.
Proof.
  induction 1 as [|task todos Hno _ IH]; simpl; [done|].
  by rewrite Hno, IH.
Qed.

Lemma for_todos_first_match task_id st le n1 n2 before task after :
  Forall (λ task, id_is task_id task = false) before →
  id_is task_id task = true →
  for_todos task_id st le n1 n2 (before ++ task :: after)
  = (λ task', before ++ task' :: after) <$> mark st le n1 n2 task.
Proof.
  intros Hbefore Hid.
  induction Hbefore as [|t before Hno _ IH]; simpl.
  - rewrite Hid. by destruct (mark _ _ _ _ _).
  - rewrite Hno, IH. by destruct (mark _ _ _ _ _).
Qed.

Lemma mark_effect st le n1 n2 task task' :
  mark st le n1 n2 task = Returned task' →
  get "status" task' = Some (JStr st)
  ∧ get "updated_at" task' = Some (JStr n1)
  ∧ (∀ k, k ≠ "status" → k ≠ "updated_at" → k ≠ "log" →
       get k task' = get k task)
  ∧ (truthy le = false → get "log" task' = get "log" task)
  ∧ (truthy le = true →
       ∃ entries, logged task = Some entries
                  ∧ get "log" task' = Some (JList (entries ++ [log_record n2 le]))).
Proof.
  unfold mark, logged.
  set (t2 := setitem "updated_at" (JStr n1) (setitem "status" (JStr st) task)).
  assert (get "log" t2 = get "log" task) as Hlog
    by (unfold t2; rewrite !get_setitem; done).
  assert (get "status" t2 = Some (JStr st)) as Hst
    by (unfold t2; rewrite !get_setitem; done).
  assert (get "updated_at" t2 = Some (JStr n1)) as Hup
    by (unfold t2; rewrite !get_setitem; done).
  assert (∀ k, k ≠ "status" → k ≠ "updated_at" → get k t2 = get k task) as Hframe.
  { intros k ? ?. unfold t2. rewrite !get_setitem.
    repeat case_decide; congruence. }
  destruct (truthy le).
  - rewrite contains_get, Hlog.
    destruct (get "log" task) as [[| | | | |entries|]|] eqn:Hold;
      rewrite ?Hlog; try discriminate.
    + intros [= <-]. rewrite !get_setitem.
      split_and!; try done.
      * intros k ? ? ?. rewrite get_setitem. case_decide; [congruence|].
        by apply Hframe.
      * intros _. by exists entries.
    + rewrite get_setitem. simpl. intros [= <-]. rewrite !get_setitem.
      split_and!; try done.
      * intros k ? ? ?. rewrite !get_setitem. repeat case_decide; try congruence.
        by apply Hframe.
      * intros _. by exists [].
  - intros [= <-]. split_and!; try done.
    intros k ? ? _. by apply Hframe.
Qed.

Lemma mark_returns st le n1 n2 task :
  truthy le = false ∨ is_Some (logged task) →
  ∃ task', mark st le n1 n2 task = Returned task'.
Proof.
  unfold mark, logged.
  set (t2 := setitem "updated_at" (JStr n1) (setitem "status" (JStr st) task)).
  assert (get "log" t2 = get "log" task) as Hlog
    by (unfold t2; rewrite !get_setitem; done).
  destruct (truthy le); [|by eexists].
  intros [?|[entries Hlogged]]; [done|].
  rewrite contains_get, Hlog.
  destruct (get "log" task) as [[| | | | |es|]|] eqn:Hold;
    rewrite ?Hlog; try discriminate.
  - by eexists.
  - rewrite get_setitem. simpl. by eexists.
Qed.
End update_facts.

(** C10. [update_task_status], seen as a transformation of the loaded task
    list. When no record has the given id, the list is written back as it
    was loaded. Otherwise let [task] be the first record with that id. The
    call writes the list back (it raises, and writes nothing, only when a
    log entry is given and [task] has a ["log"] that is not a list), and
    what it writes is the loaded list with [task] replaced by a record
    [task'] at the same position: every other record is the same; in
    [task'], ["status"] is the new status, ["updated_at"] the time of the
    update, every field other than ["status"], ["updated_at"] and ["log"]
    reads as in [task]; ["log"] reads as in [task] when the log entry is
    empty, and otherwise is the former log (empty if there was none)
    followed by exactly one new entry. *)
Theorem update_touches_first_match_only now_status now_log file task_id status log_entry :
  (Forall (λ task, TodoManagement.id_is task_id task = false)
     (TodoManagement.load_todos file) →
   TodoManagement.update_task_status now_status now_log file task_id status log_entry
   = Returned (TodoManagement.save_todos (TodoManagement.load_todos file)))
  ∧ (∀ before task after,
       TodoManagement.load_todos file = before ++ task :: after →
       Forall (λ t, TodoManagement.id_is task_id t = false) before →
       TodoManagement.id_is task_id task = true →
       (TodoManagement.truthy log_entry = false ∨ is_Some (logged task) →
        ∃ file',
          TodoManagement.update_task_status now_status now_log file task_id
            status log_entry = Returned file')
       ∧ (∀ file',
            TodoManagement.update_task_status now_status now_log file task_id
              status log_entry = Returned file' →
            ∃ task',
              file' = TodoManagement.save_todos (before ++ task' :: after)
              ∧ PyDict.get "status" task' = Some (TodoManagement.JStr status)
              ∧ PyDict.get "updated_at" task' = Some (TodoManagement.JStr now_status)
              ∧ (∀ k, k ≠ "status" → k ≠ "updated_at" → k ≠ "log" →
                   PyDict.get k task' = PyDict.get k task)
              ∧ (TodoManagement.truthy log_entry = false →
                   PyDict.get "log" task' = PyDict.get "log" task)
              ∧ (TodoManagement.truthy log_entry = true →
                   ∃ entries,
                     logged task = Some entries
                     ∧ PyDict.get "log" task'
                       = Some (TodoManagement.JList
                                 (entries ++ [log_record now_log log_entry]))))).
Proof.
  unfold TodoManagement.update_task_status. split.
  - intros Hnone. by rewrite for_todos_no_match.
  - intros before task after -> Hbefore Hid.
    rewrite for_todos_first_match by done. split.
    + intros Hlog.
      destruct (mark_returns status log_entry now_status now_log task Hlog)
        as [task' ->].
      by eexists.
    + intros file'.
      destruct (TodoManagement.mark _ _ _ _ task) as [task'| |] eqn:Hmark;
        try discriminate.
      simpl. intros [= <-]. exists task'. split; [done|].
      by apply (mark_effect _ _ _ _ _ _ Hmark).
Qed.

Lemma update_touches_first_match_only_witness :
  TodoManagement.update_task_status "t1" "t2" two_todos "b" "completed" "done"
  = Returned two_todos_updated
  ∧ ∃ task',
      two_todos_updated
      = TodoManagement.save_todos
          ([[("id", TodoManagement.JStr "a");
             ("status", TodoManagement.JStr "pending")]] ++ task' :: [])
      ∧ PyDict.get "status" task' = Some (TodoManagement.JStr "completed")
      ∧ PyDict.get "tags" task' = Some (TodoManagement.JList [])
      ∧ PyDict.get "log" task' = Some (TodoManagement.JList [log_record "t2" "done"]).
Proof.
  assert (TodoManagement.update_task_status "t1" "t2" two_todos "b" "completed" "done"
          = Returned two_todos_updated) as Hrun by reflexivity.
  split; [exact Hrun|].
  assert (Forall (λ t, TodoManagement.id_is "b" t = false)
            [[("id", TodoManagement.JStr "a");
              ("status", TodoManagement.JStr "pending")]]) as Hbefore
    by (repeat constructor).
  destruct (proj2 (proj2 (update_touches_first_match_only
                            "t1" "t2" two_todos "b" "completed" "done")
                     [[("id", TodoManagement.JStr "a");
                       ("status", TodoManagement.JStr "pending")]]
                     [("id", TodoManagement.JStr "b");
                      ("status", TodoManagement.JStr "pending");
                      ("tags", TodoManagement.JList [])]
                     [] eq_refl Hbefore eq_refl)
              two_todos_updated Hrun)
    as (task' & Hfile & Hstatus & _ & Hframe & _ & Hlog).
  exists task'. split_and!; [exact Hfile|exact Hstatus| |].
  - rewrite Hframe; [reflexivity|discriminate..].
  - destruct (Hlog eq_refl) as (entries & [= <-] & ->). reflexivity.
Defined.

(** * Further properties *)

Section more_dict_facts.
Import PyDict.
Context {V : Type}.
Implicit Types (d : dict V) (k : string) (v : V).

Lemma elem_of_keys_setitem x k v d :
  x ∈ keys (setitem k v d) ↔ x = k ∨ x ∈ keys d.
Proof.
  destruct (decide (k ∈ keys d)) as [Hin|Hout].
  - rewrite keys_setitem_old by done. naive_solver.
  - rewrite keys_setitem_new by done. rewrite elem_of_app, list_elem_of_singleton.
    tauto.
Qed.

Lemma elem_of_keys_comprehension {A} (key : A → string) (val : A → V) xs x :
  x ∈ keys (comprehension key val xs) ↔ x ∈ key <$> xs.
Proof.
  unfold comprehension.
  enough (∀ d, x ∈ keys (foldl (λ d x, setitem (key x) (val x) d) d xs)
               ↔ x ∈ keys d ∨ x ∈ key <$> xs) as H.
  { rewrite H. unfold keys. simpl. rewrite elem_of_nil. tauto. }
  induction xs as [|y xs IH]; intros d; cbn [foldl].
  - rewrite fmap_nil, elem_of_nil. tauto.
  - rewrite IH, elem_of_keys_setitem, fmap_cons, elem_of_cons. tauto.
Qed.
End more_dict_facts.

Section more_partition_facts.
Import PyDict.
Implicit Types (work rem snapshot : dict (list string)) (comp : gset string).

Lemma partition_distinct_ids work :
  let groups := stages (length work) (comprehension fst snd work) ∅ in
  NoDup (concat groups) ∧ ∀ i, i ∈ concat groups ↔ i ∈ work.*1.
Proof.
  intros groups.
  pose proof (NoDup_keys_comprehension fst snd work) as Hnd.
  pose proof (length_comprehension fst snd work) as Hlen.
  pose proof (stages_cover (length work) _ ∅ Hnd Hlen) as Hperm.
  fold groups in Hperm. split.
  - by rewrite Hperm.
  - intros i. rewrite Hperm. apply elem_of_keys_comprehension.
Qed.

Lemma all_in_spec comp deps :
  all_in comp deps = true ↔ ∀ dep, dep ∈ deps → dep ∈ comp.
Proof.
  unfold all_in. rewrite forallb_forall. split.
  - intros H dep Hdep. eapply bool_decide_eq_true_1, H. by apply list_elem_of_In.
  - intros H dep Hdep. apply bool_decide_eq_true_2, H. by apply list_elem_of_In.
Qed.

Lemma entry_unique rem x deps deps' :
  NoDup (keys rem) → (x, deps) ∈ rem → (x, deps') ∈ rem → deps = deps'.
Proof.
  unfold keys. induction rem as [|[k ds] rem IH]; [by intros _ ?%elem_of_nil|].
  rewrite fmap_cons. intros [Hk Hnd]%NoDup_cons. simpl in Hk.
  intros [[= -> ->]|H1]%elem_of_cons [[= ->]|H2]%elem_of_cons; try done.
  - exfalso. apply Hk. apply list_elem_of_fmap. by exists (k, deps').
  - exfalso. apply Hk. apply list_elem_of_fmap. by exists (k, deps).
  - by apply IH.
Qed.

Lemma entry_key rem x deps : (x, deps) ∈ rem → x ∈ keys rem.
Proof. intros H. apply list_elem_of_fmap. by exists (x, deps). Qed.

Lemma ready_elem snapshot comp x : x ∈ ready snapshot comp → x ∈ keys snapshot.
Proof. intros H. eapply elem_of_sublist; [exact H|apply ready_sublist]. Qed.

Lemma ready_deps snapshot comp l1 x l2 deps :
  NoDup (keys snapshot) → ready snapshot comp = l1 ++ x :: l2 →
  (x, deps) ∈ snapshot → ∀ dep, dep ∈ deps → dep ∈ comp ∨ dep ∈ l1.
Proof.
  revert comp l1.
  induction snapshot as [|[k ds] snapshot IH]; intros comp l1 Hnd Hready Hx dep Hdep.
  { by apply elem_of_nil in Hx. }
  pose proof Hnd as Hnd0.
  unfold keys in Hnd. rewrite fmap_cons in Hnd. apply NoDup_cons in Hnd as [Hk Hnd].
  simpl in Hk, Hready.
  assert (x ∈ ready snapshot comp ∨ x ∈ ready snapshot ({[k]} ∪ comp) →
          (x, deps) ∈ snapshot) as Htail.
  { intros Hin. apply elem_of_cons in Hx as [[= -> ->]|Hx]; [|done].
    exfalso. apply Hk. destruct Hin as [Hin|Hin]; by apply ready_elem in Hin. }
  destruct (all_in comp ds) eqn:Hall.
  - destruct l1 as [|y l1]; simpl in Hready; injection Hready as -> Hready.
    + left. assert (deps = ds) as ->.
      { eapply (entry_unique _ _ _ _ Hnd0); [exact Hx|left]. }
      by apply all_in_spec with (deps := ds).
    + assert ((x, deps) ∈ snapshot) as Hx'.
      { apply Htail. right. rewrite Hready. apply elem_of_app. right. left. }
      destruct (IH _ _ Hnd Hready Hx' dep Hdep) as [Hc|Hl].
      * apply elem_of_union in Hc as [->%elem_of_singleton|Hc]; [right; left|by left].
      * right. by right.
  - apply (IH comp l1 Hnd Hready); [|done]. apply Htail. left.
    rewrite Hready. apply elem_of_app. right. left.
Qed.

Lemma elem_of_without {V} (d : dict V) g x v :
  (x, v) ∈ without g d ↔ (x, v) ∈ d ∧ x ∉ g.
Proof. unfold without. rewrite list_elem_of_filter. simpl. tauto. Qed.

(** An id of a later stage is still bound after the earlier stage is filed. *)
Lemma later_stage_entry fuel kv rem comp before g after x deps :
  NoDup (keys (kv :: rem)) → length (kv :: rem) ≤ S fuel →
  stages fuel (without (next_stage (kv :: rem) comp) (kv :: rem))
    (list_to_set (next_stage (kv :: rem) comp) ∪ comp)
  = before ++ g :: after →
  x ∈ g → (x, deps) ∈ kv :: rem →
  (x, deps) ∈ without (next_stage (kv :: rem) comp) (kv :: rem).
Proof.
  intros Hnd Hlen Hstages Hxg Hx.
  pose proof (next_stage_shrinks kv rem comp Hnd) as Hshrink.
  pose proof (stages_cover fuel _ (list_to_set (next_stage (kv :: rem) comp) ∪ comp)
                (NoDup_keys_without (next_stage (kv :: rem) comp) _ Hnd)) as Hcover.
  rewrite Hstages in Hcover.
  assert (x ∈ keys (without (next_stage (kv :: rem) comp) (kv :: rem))) as Hkey.
  { rewrite <-Hcover by (simpl in Hlen; lia).
    rewrite concat_app, concat_cons, !elem_of_app. tauto. }
  rewrite keys_without in Hkey. apply list_elem_of_filter in Hkey as [Hout _].
  by apply elem_of_without.
Qed.

Lemma stages_order fuel rem comp before g after g1 x g2 deps :
  NoDup (keys rem) → length rem ≤ fuel →
  stages fuel rem comp = before ++ g :: after →
  g = g1 ++ x :: g2 → (x, deps) ∈ rem →
  (∀ dep, dep ∈ deps → dep ∈ comp ∨ dep ∈ concat before ++ g1) ∨ g = [x].
Proof.
  revert rem comp before.
  induction fuel as [|fuel IH]; intros rem comp before Hnd Hlen Hstages Hg Hx.
  { destruct rem; [by apply elem_of_nil in Hx|simpl in Hlen; lia]. }
  destruct rem as [|kv rem]; [by apply elem_of_nil in Hx|].
  cbn [stages] in Hstages.
  destruct before as [|b before]; simpl in Hstages; injection Hstages as Hb Hstages.
  - unfold next_stage in Hb.
    destruct (ready (kv :: rem) comp) as [|p placed] eqn:Hready.
    + right. rewrite Hg in Hb |- *. destruct kv as [k ds]. simpl in Hb.
      destruct g1 as [|? [|? ?]]; simpl in Hb; try done.
      by injection Hb as <- <-.
    + left. intros dep Hdep. rewrite <-Hready, Hg in Hb.
      by eapply ready_deps.
  - subst b.
    assert (x ∈ g) as Hxg by (subst g; apply elem_of_app; right; left).
    pose proof (later_stage_entry _ _ _ _ _ _ _ _ _ Hnd Hlen Hstages Hxg Hx) as Hx'.
    pose proof (next_stage_shrinks kv rem comp Hnd) as Hshrink.
    assert (length (without (next_stage (kv :: rem) comp) (kv :: rem)) ≤ fuel)
      as Hlen' by (simpl in Hlen; lia).
    destruct (IH _ _ _ (NoDup_keys_without _ _ Hnd) Hlen' Hstages Hg Hx')
      as [Hdeps|Hforced]; [left|by right].
    intros dep Hdep. destruct (Hdeps dep Hdep) as [Hc|Hl].
    + apply elem_of_union in Hc as [Hc|Hc]; [|by left].
      right. apply elem_of_list_to_set in Hc. simpl.
      rewrite <-app_assoc, elem_of_app. by left.
    + right. simpl. rewrite <-app_assoc, elem_of_app. by right.
Qed.
End more_partition_facts.

Section ranked_facts.
Import PyDict.
Implicit Types (work rem snapshot : dict (list string)) (comp : gset string).
Context (rank : string → nat).

Lemma least_rank rem :
  rem ≠ [] → ∃ kv, kv ∈ rem ∧ ∀ kv', kv' ∈ rem → rank kv.1 ≤ rank kv'.1.
Proof.
  induction rem as [|kv rem IH]; [done|]. intros _.
  destruct rem as [|kv2 rem].
  - exists kv. split; [left|]. by intros kv' ->%list_elem_of_singleton.
  - destruct IH as (m & Hm & Hleast); [done|].
    destruct (decide (rank kv.1 ≤ rank m.1)).
    + exists kv. split; [left|].
      intros kv' [->|Hin]%elem_of_cons; [lia|]. specialize (Hleast _ Hin). lia.
    + exists m. split; [by right|].
      intros kv' [->|Hin]%elem_of_cons; [lia|]. by apply Hleast.
Qed.

Lemma ready_enabled snapshot comp x deps :
  (x, deps) ∈ snapshot → (∀ dep, dep ∈ deps → dep ∈ comp) →
  ready snapshot comp ≠ [].
Proof.
  revert comp. induction snapshot as [|[k ds] snapshot IH]; intros comp Hx Hdeps.
  { by apply elem_of_nil in Hx. }
  simpl. destruct (all_in comp ds) eqn:Hall; [done|].
  apply elem_of_cons in Hx as [[= -> ->]|Hx].
  - apply all_in_spec in Hdeps. congruence.
  - by apply IH.
Qed.

Lemma waits_ready rem comp :
  rem ≠ [] → waits_on_smaller rank rem comp → ready rem comp ≠ [].
Proof.
  intros Hne Hwait.
  destruct (least_rank rem Hne) as ([x deps] & Hx & Hleast).
  apply (ready_enabled _ _ x deps Hx). intros dep Hdep.
  destruct (Hwait _ _ _ Hx Hdep) as [Hc|[Hin Hlt]]; [done|].
  apply list_elem_of_fmap in Hin as ([k ds] & -> & Hin).
  specialize (Hleast _ Hin). simpl in *. lia.
Qed.

Lemma waits_step rem comp g :
  waits_on_smaller rank rem comp →
  waits_on_smaller rank (without g rem) (list_to_set g ∪ comp).
Proof.
  intros Hwait x deps dep [Hx _]%elem_of_without Hdep.
  destruct (Hwait _ _ _ Hx Hdep) as [Hc|[Hin Hlt]].
  - left. set_solver.
  - destruct (decide (dep ∈ g)) as [Hg|Hg].
    + left. apply elem_of_union. left. by apply elem_of_list_to_set.
    + right. split; [|done]. rewrite keys_without. by apply list_elem_of_filter.
Qed.

Lemma stages_order_ranked fuel rem comp before g after g1 x g2 deps :
  NoDup (keys rem) → length rem ≤ fuel → waits_on_smaller rank rem comp →
  stages fuel rem comp = before ++ g :: after →
  g = g1 ++ x :: g2 → (x, deps) ∈ rem →
  ∀ dep, dep ∈ deps → dep ∈ comp ∨ dep ∈ concat before ++ g1.
Proof.
  revert rem comp before.
  induction fuel as [|fuel IH]; intros rem comp before Hnd Hlen Hwait Hstages Hg Hx.
  { destruct rem; [by apply elem_of_nil in Hx|simpl in Hlen; lia]. }
  destruct rem as [|kv rem]; [by apply elem_of_nil in Hx|].
  cbn [stages] in Hstages.
  assert (next_stage (kv :: rem) comp = ready (kv :: rem) comp) as Hnext.
  { unfold next_stage. pose proof (waits_ready (kv :: rem) comp) as Hr.
    destruct (ready (kv :: rem) comp); [by destruct Hr|done]. }
  destruct before as [|b before]; simpl in Hstages; injection Hstages as Hb Hstages.
  - intros dep Hdep. rewrite Hnext, Hg in Hb. by eapply ready_deps.
  - subst b.
    assert (x ∈ g) as Hxg by (rewrite Hg; apply elem_of_app; right; left).
    pose proof (later_stage_entry _ _ _ _ _ _ _ _ _ Hnd Hlen Hstages Hxg Hx) as Hx'.
    pose proof (next_stage_shrinks kv rem comp Hnd) as Hshrink.
    assert (length (without (next_stage (kv :: rem) comp) (kv :: rem)) ≤ fuel)
      as Hlen' by (simpl in Hlen; lia).
    intros dep Hdep.
    destruct (IH _ _ _ (NoDup_keys_without _ _ Hnd) Hlen' (waits_step _ _ _ Hwait)
                Hstages Hg Hx' dep Hdep) as [Hc|Hl].
    + apply elem_of_union in Hc as [Hc|Hc]; [|by left].
      right. apply elem_of_list_to_set in Hc. simpl.
      rewrite <-app_assoc, elem_of_app. by left.
    + right. simpl. rewrite <-app_assoc, elem_of_app. by right.
Qed.

Lemma ranked_waits work :
  ranked rank work → waits_on_smaller rank work ∅.
Proof.
  intros Hranked x deps dep Hx Hdep. right.
  unfold ranked in Hranked. rewrite Forall_forall in Hranked.
  specialize (Hranked _ Hx). rewrite Forall_forall in Hranked.
  by apply Hranked.
Qed.
End ranked_facts.

Section sorted_facts.
Import PyDict.
Implicit Types (work rem snapshot : dict (list string)) (comp : gset string).

Lemma ready_listed snapshot seen comp :
  listed_after_dependencies seen snapshot →
  (∀ s, s ∈ seen → s ∈ comp) →
  ready snapshot comp = keys snapshot.
Proof.
  revert seen comp.
  induction snapshot as [|[k ds] snapshot IH]; intros seen comp Hlisted Hseen; [done|].
  destruct Hlisted as [Hdeps Hlisted]. simpl in Hdeps, Hlisted.
  rewrite Forall_forall in Hdeps.
  cbn [ready]. rewrite (proj2 (all_in_spec comp ds)) by naive_solver.
  unfold keys. rewrite fmap_cons. f_equal.
  apply (IH (seen ++ [k])); [done|].
  intros s [Hs|Hs%list_elem_of_singleton]%elem_of_app; set_solver.
Qed.

Lemma stages_listed fuel work :
  work ≠ [] → listed_after_dependencies [] work →
  stages (S fuel) work ∅ = [keys work].
Proof.
  intros Hne Hlisted. destruct work as [|w work]; [done|].
  cbn [stages]. unfold next_stage.
  rewrite (ready_listed _ [] ∅ Hlisted) by (by intros s ?%elem_of_nil).
  destruct (keys (w :: work)) eqn:Hkeys; [done|]. rewrite <-Hkeys.
  rewrite without_all. by destruct fuel.
Qed.
End sorted_facts.

Section partition_order.
Import PyDict.
Implicit Types (work : list (string * list string)).

Lemma labelled_split groups before label g after :
  labelled 0 groups = before ++ (label, g) :: after →
  groups = values before ++ g :: values after.
Proof.
  intros Heq. rewrite <-(values_labelled 0 groups), Heq. unfold values.
  by rewrite fmap_app, fmap_cons.
Qed.

Lemma partition_order work fuel pg before label g after g1 x g2 deps :
  NoDup work.*1 → length work ≤ fuel →
  Skeleton.partition fuel work = Returned pg →
  pg = before ++ (label, g) :: after → g = g1 ++ x :: g2 → (x, deps) ∈ work →
  (∀ dep, dep ∈ deps → dep ∈ concat (values before) ++ g1) ∨ g = [x].
Proof.
  intros Hnd Hfuel Hrun Hpg Hg Hx.
  rewrite partition_stages, comprehension_distinct in Hrun by done.
  injection Hrun as <-. apply labelled_split in Hpg.
  destruct (stages_order _ _ _ _ _ _ _ _ _ _ Hnd (le_n _) Hpg Hg Hx) as [H|H];
    [left|by right].
  intros dep Hdep. destruct (H dep Hdep) as [?%elem_of_empty|?]; done.
Qed.

Lemma partition_order_ranked rank work fuel pg before label g after g1 x g2 deps :
  NoDup work.*1 → ranked rank work → length work ≤ fuel →
  Skeleton.partition fuel work = Returned pg →
  pg = before ++ (label, g) :: after → g = g1 ++ x :: g2 → (x, deps) ∈ work →
  ∀ dep, dep ∈ deps → dep ∈ concat (values before) ++ g1.
Proof.
  intros Hnd Hranked Hfuel Hrun Hpg Hg Hx dep Hdep.
  rewrite partition_stages, comprehension_distinct in Hrun by done.
  injection Hrun as <-. apply labelled_split in Hpg.
  destruct (stages_order_ranked rank _ _ _ _ _ _ _ _ _ _ Hnd (le_n _)
              (ranked_waits rank _ Hranked) Hpg Hg Hx dep Hdep)
    as [?%elem_of_empty|?]; done.
Qed.

Lemma partition_listed work fuel :
  work ≠ [] → NoDup work.*1 → listed_after_dependencies [] work →
  length work ≤ fuel →
  Skeleton.partition fuel work = Returned [(stage_label 0, work.*1)].
Proof.
  intros Hne Hnd Hlisted Hfuel.
  rewrite partition_stages, comprehension_distinct by done.
  destruct work as [|w work]; [done|]. cbn [length].
  by rewrite stages_listed.
Qed.

Lemma partition_labels work :
  let pg := labelled 0 (stages (length work) (comprehension fst snd work) ∅) in
  keys pg = stage_label <$> seq 0 (length pg) ∧ Forall (λ g, g ≠ []) (values pg).
Proof.
  intros pg. unfold pg. rewrite keys_labelled, length_labelled, values_labelled.
  split; [done|]. apply stages_nonempty.
Qed.
End partition_order.

(** X1. Whatever the ids and dependency lists are (duplicate ids, cycles
    and dangling dependencies included), the stages taken together hold
    every id that occurs in the input, and hold it exactly once. *)
Theorem every_distinct_id_staged_once :
  (∀ executions,
     ∃ pg,
       returns_within (λ fuel, Orchestrator._calculate_parallel_groups fuel executions)
         (length executions) pg
       ∧ NoDup (concat (PyDict.values pg))
       ∧ ∀ i, i ∈ concat (PyDict.values pg) ↔ i ∈ Orchestrator.id <$> executions)
  ∧ (∀ tasks,
       ∃ pg,
         returns_within (λ fuel, TodoManagement.identify_parallel_opportunities fuel tasks)
           (length tasks) pg
         ∧ NoDup (concat (PyDict.values pg))
         ∧ ∀ i, i ∈ concat (PyDict.values pg) ↔ i ∈ TodoManagement.id <$> tasks).
Proof.
  split.
  - intros executions.
    destruct (partition_distinct_ids (exec_skeleton <$> executions)) as [Hnd Hin].
    rewrite length_fmap in Hnd, Hin.
    eexists. split_and!.
    + intros fuel Hfuel. rewrite exec_partition.
      pose proof (partition_returns (exec_skeleton <$> executions) fuel) as Hret.
      rewrite !length_fmap in Hret. by apply Hret.
    + by rewrite values_labelled.
    + intros i. rewrite values_labelled, Hin, <-list_fmap_compose. done.
  - intros tasks.
    destruct (partition_distinct_ids (task_skeleton <$> tasks)) as [Hnd Hin].
    rewrite length_fmap in Hnd, Hin.
    eexists. split_and!.
    + intros fuel Hfuel. rewrite task_partition.
      pose proof (partition_returns (task_skeleton <$> tasks) fuel) as Hret.
      rewrite !length_fmap in Hret. by apply Hret.
    + by rewrite values_labelled.
    + intros i. rewrite values_labelled, Hin, <-list_fmap_compose. done.
Qed.

(** X2. Every stage that is filed holds at least one id, and the stages are
    filed under the labels stage_0, stage_1, ... with no gap, in that
    order. *)
Theorem stages_nonempty_and_numbered :
  (∀ executions,
     ∃ pg,
       returns_within (λ fuel, Orchestrator._calculate_parallel_groups fuel executions)
         (length executions) pg
       ∧ PyDict.keys pg = stage_label <$> seq 0 (length pg)
       ∧ Forall (λ g, g ≠ []) (PyDict.values pg))
  ∧ (∀ tasks,
       ∃ pg,
         returns_within (λ fuel, TodoManagement.identify_parallel_opportunities fuel tasks)
           (length tasks) pg
         ∧ PyDict.keys pg = stage_label <$> seq 0 (length pg)
         ∧ Forall (λ g, g ≠ []) (PyDict.values pg)).
Proof.
  split.
  - intros executions.
    destruct (partition_labels (exec_skeleton <$> executions)) as [Hkeys Hne].
    rewrite length_fmap in Hkeys, Hne.
    eexists. split_and!; [|exact Hkeys|exact Hne].
    intros fuel Hfuel. rewrite exec_partition.
    pose proof (partition_returns (exec_skeleton <$> executions) fuel) as Hret.
    rewrite !length_fmap in Hret. by apply Hret.
  - intros tasks.
    destruct (partition_labels (task_skeleton <$> tasks)) as [Hkeys Hne].
    rewrite length_fmap in Hkeys, Hne.
    eexists. split_and!; [|exact Hkeys|exact Hne].
    intros fuel Hfuel. rewrite task_partition.
    pose proof (partition_returns (task_skeleton <$> tasks) fuel) as Hret.
    rewrite !length_fmap in Hret. by apply Hret.
Qed.

Lemma exec_entry e (executions : list Orchestrator.AgentExecution) :
  e ∈ executions → exec_skeleton e ∈ exec_skeleton <$> executions.
Proof. intros He. apply list_elem_of_fmap. by exists e. Qed.

Lemma task_entry t (tasks : list TodoManagement.Task) :
  t ∈ tasks → task_skeleton t ∈ task_skeleton <$> tasks.
Proof. intros Ht. apply list_elem_of_fmap. by exists t. Qed.

Lemma exec_ids (executions : list Orchestrator.AgentExecution) :
  (exec_skeleton <$> executions).*1 = Orchestrator.id <$> executions.
Proof. by rewrite <-list_fmap_compose. Qed.

Lemma task_ids (tasks : list TodoManagement.Task) :
  (task_skeleton <$> tasks).*1 = TodoManagement.id <$> tasks.
Proof. by rewrite <-list_fmap_compose. Qed.

(** X3. With pairwise distinct ids: read the stages in order and each stage
    from left to right. Every id is then preceded by all the dependencies of
    its item, unless it is the only id of its stage (the stage a stalled
    scan forces holds one id, whose dependencies are not looked at). *)
Theorem dependencies_first_unless_alone :
  (∀ fuel executions pg before label g after g1 e g2,
     NoDup (Orchestrator.id <$> executions) → length executions ≤ fuel →
     Orchestrator._calculate_parallel_groups fuel executions = Returned pg →
     pg = before ++ (label, g) :: after →
     g = g1 ++ Orchestrator.id e :: g2 → e ∈ executions →
     (∀ dep : string, dep ∈ Orchestrator.dependencies e →
             dep ∈ concat (PyDict.values before) ++ g1)
     ∨ g = [Orchestrator.id e])
  ∧ (∀ fuel tasks pg before label g after g1 t g2,
       NoDup (TodoManagement.id <$> tasks) → length tasks ≤ fuel →
       TodoManagement.identify_parallel_opportunities fuel tasks = Returned pg →
       pg = before ++ (label, g) :: after →
       g = g1 ++ TodoManagement.id t :: g2 → t ∈ tasks →
       (∀ dep, dep ∈ TodoManagement.dependencies t →
               dep ∈ concat (PyDict.values before) ++ g1)
       ∨ g = [TodoManagement.id t]).
Proof.
  split.
  - intros fuel executions pg before label g after g1 e g2 Hnd Hfuel Hrun Hpg Hg He.
    rewrite exec_partition in Hrun.
    eapply (partition_order (exec_skeleton <$> executions));
      [by rewrite exec_ids|by rewrite length_fmap|exact Hrun|exact Hpg|exact Hg|].
    by apply exec_entry.
  - intros fuel tasks pg before label g after g1 t g2 Hnd Hfuel Hrun Hpg Hg Ht.
    rewrite task_partition in Hrun.
    eapply (partition_order (task_skeleton <$> tasks));
      [by rewrite task_ids|by rewrite length_fmap|exact Hrun|exact Hpg|exact Hg|].
    by apply task_entry.
Qed.

Lemma dependencies_first_unless_alone_witness :
  (∀ dep, dep ∈ Orchestrator.dependencies (Orchestrator.pending "d" ["b"; "c"]) →
          dep ∈ concat (PyDict.values []) ++ ["a"; "b"; "c"])
  ∨ ["a"; "b"; "c"; "d"] = [Orchestrator.id (Orchestrator.pending "d" ["b"; "c"])].
Proof.
  apply (proj1 dependencies_first_unless_alone 4 (as_executions diamond)
           [("stage_0", ["a"; "b"; "c"; "d"])] [] "stage_0" ["a"; "b"; "c"; "d"] []
           ["a"; "b"; "c"] (Orchestrator.pending "d" ["b"; "c"]) []).
  - apply (bool_decide_unpack _). by vm_compute.
  - simpl. lia.
  - by vm_compute.
  - reflexivity.
  - reflexivity.
  - apply list_elem_of_fmap. exists ("d", ["b"; "c"]). split; [reflexivity|].
    apply (bool_decide_unpack _). by vm_compute.
Defined.

(** X4. When the ids are pairwise distinct, every dependency is the id of
    an item of the input and the dependencies form no cycle (some ranking
    of the ids puts every dependency below the item that needs it), no
    stage is forced: read in stage order and left to right within a stage,
    every id comes after all the dependencies of its item. A dependency thus
    sits in an earlier stage or earlier in the same stage. *)
Theorem acyclic_dependencies_come_first :
  (∀ rank fuel executions pg before label g after g1 e g2,
     NoDup (Orchestrator.id <$> executions) →
     ranked rank (exec_skeleton <$> executions) →
     length executions ≤ fuel →
     Orchestrator._calculate_parallel_groups fuel executions = Returned pg →
     pg = before ++ (label, g) :: after →
     g = g1 ++ Orchestrator.id e :: g2 → e ∈ executions →
     ∀ dep : string, dep ∈ Orchestrator.dependencies e →
       dep ∈ concat (PyDict.values before) ++ g1)
  ∧ (∀ rank fuel tasks pg before label g after g1 t g2,
       NoDup (TodoManagement.id <$> tasks) →
       ranked rank (task_skeleton <$> tasks) →
       length tasks ≤ fuel →
       TodoManagement.identify_parallel_opportunities fuel tasks = Returned pg →
       pg = before ++ (label, g) :: after →
       g = g1 ++ TodoManagement.id t :: g2 → t ∈ tasks →
       ∀ dep : string, dep ∈ TodoManagement.dependencies t →
         dep ∈ concat (PyDict.values before) ++ g1).
Proof.
  split.
  - intros rank fuel executions pg before label g after g1 e g2
      Hnd Hranked Hfuel Hrun Hpg Hg He.
    rewrite exec_partition in Hrun.
    eapply (partition_order_ranked rank (exec_skeleton <$> executions));
      [by rewrite exec_ids|exact Hranked|by rewrite length_fmap|exact Hrun
      |exact Hpg|exact Hg|].
    by apply exec_entry.
  - intros rank fuel tasks pg before label g after g1 t g2
      Hnd Hranked Hfuel Hrun Hpg Hg Ht.
    rewrite task_partition in Hrun.
    eapply (partition_order_ranked rank (task_skeleton <$> tasks));
      [by rewrite task_ids|exact Hranked|by rewrite length_fmap|exact Hrun
      |exact Hpg|exact Hg|].
    by apply task_entry.
Qed.

Lemma acyclic_dependencies_come_first_witness :
  Forall
    (λ dep : string,
       dep ∈ concat (PyDict.values [("stage_0", ["a"]); ("stage_1", ["c"; "b"])]) ++ [])
    (Orchestrator.dependencies (Orchestrator.pending "d" ["b"; "c"])).
Proof.
  apply Forall_forall.
  apply (proj1 acyclic_dependencies_come_first diamond_rank 4
           (as_executions diamond_reversed)
           [("stage_0", ["a"]); ("stage_1", ["c"; "b"]); ("stage_2", ["d"])]
           [("stage_0", ["a"]); ("stage_1", ["c"; "b"])] "stage_2" ["d"] []
           [] (Orchestrator.pending "d" ["b"; "c"]) []).
  - apply (bool_decide_unpack _). by vm_compute.
  - apply (bool_decide_unpack _). by vm_compute.
  - simpl. lia.
  - by vm_compute.
  - reflexivity.
  - reflexivity.
  - apply list_elem_of_fmap. exists ("d", ["b"; "c"]). split; [reflexivity|].
    apply (bool_decide_unpack _). by vm_compute.
Defined.

(** X5. When the ids are pairwise distinct and every item is listed after
    all the items it depends on, the whole input lands in one stage,
    stage_0, in input order: an id counts as completed for the rest of the
    scan that places it. *)
Theorem dependencies_listed_first_give_one_stage :
  (∀ executions,
     executions ≠ [] → NoDup (Orchestrator.id <$> executions) →
     listed_after_dependencies [] (exec_skeleton <$> executions) →
     returns_within (λ fuel, Orchestrator._calculate_parallel_groups fuel executions)
       (length executions) [(stage_label 0, Orchestrator.id <$> executions)])
  ∧ (∀ tasks,
       tasks ≠ [] → NoDup (TodoManagement.id <$> tasks) →
       listed_after_dependencies [] (task_skeleton <$> tasks) →
       returns_within (λ fuel, TodoManagement.identify_parallel_opportunities fuel tasks)
         (length tasks) [(stage_label 0, TodoManagement.id <$> tasks)]).
Proof.
  split.
  - intros executions Hne Hnd Hlisted fuel Hfuel.
    rewrite exec_partition, <-exec_ids.
    apply partition_listed; rewrite ?exec_ids, ?length_fmap; try done.
    by destruct executions.
  - intros tasks Hne Hnd Hlisted fuel Hfuel.
    rewrite task_partition, <-task_ids.
    apply partition_listed; rewrite ?task_ids, ?length_fmap; try done.
    by destruct tasks.
Qed.

Lemma dependencies_listed_first_give_one_stage_witness :
  returns_within
    (λ fuel, TodoManagement.identify_parallel_opportunities fuel auth_tasks)
    (length auth_tasks)
    [(stage_label 0, TodoManagement.id <$> auth_tasks)].
Proof.
  apply (proj2 dependencies_listed_first_give_one_stage auth_tasks).
  - discriminate.
  - apply (bool_decide_unpack _). by vm_compute.
  - simpl. repeat split; apply (bool_decide_unpack _); by vm_compute.
Defined.

Section more_update_facts.
Import PyDict TodoManagement.
Implicit Types (task : dict json) (todos before after : list (dict json)).

Lemma keys_setitem_prefix {V} k (v : V) (d : dict V) :
  keys d `prefix_of` keys (setitem k v d).
Proof.
  destruct (decide (k ∈ keys d)).
  - by rewrite keys_setitem_old.
  - rewrite keys_setitem_new by done. by apply prefix_app_r.
Qed.

Lemma mark_logged st le n1 n2 task entries :
  logged task = Some entries →
  ∃ task', mark st le n1 n2 task = Returned task'
           ∧ logged task' = Some (entries ++ logged_by le n2).
Proof.
  intros Hlogged.
  destruct (mark_returns st le n1 n2 task) as [task' Hmark]; [right; by eexists|].
  exists task'. split; [done|].
  destruct (mark_effect _ _ _ _ _ _ Hmark) as (_ & _ & _ & Hsame & Happend).
  unfold logged_by. destruct (truthy le).
  - destruct (Happend eq_refl) as (entries' & Hentries & Hlog).
    assert (entries' = entries) as -> by congruence.
    unfold logged. by rewrite Hlog.
  - rewrite app_nil_r. unfold logged in *. by rewrite (Hsame eq_refl).
Qed.

Lemma mark_id st le n1 n2 task task' x :
  mark st le n1 n2 task = Returned task' → id_is x task' = id_is x task.
Proof.
  intros Hmark.
  destruct (mark_effect _ _ _ _ _ _ Hmark) as (_ & _ & Hframe & _).
  unfold id_is. by rewrite Hframe.
Qed.

Lemma mark_keys st le n1 n2 task task' :
  mark st le n1 n2 task = Returned task' →
  keys task `prefix_of` keys task'
  ∧ ∀ k, k ∈ keys task' → k ∈ keys task ∨ k ∈ ["status"; "updated_at"; "log"].
Proof.
  unfold mark.
  set (t1 := setitem "status" (JStr st) task).
  set (t2 := setitem "updated_at" (JStr n1) t1).
  assert (keys task `prefix_of` keys t2) as Hpre2.
  { etrans; apply keys_setitem_prefix. }
  assert (∀ k, k ∈ keys t2 → k ∈ keys task ∨ k ∈ ["status"; "updated_at"; "log"])
    as Hnew2.
  { intros k. unfold t2, t1. rewrite !elem_of_keys_setitem. set_solver. }
  destruct (truthy le); [|by intros [= <-]].
  set (t3 := if contains "log" t2 then t2 else setitem "log" (JList []) t2).
  assert (keys t2 `prefix_of` keys t3) as Hpre3.
  { unfold t3. destruct (contains "log" t2); [done|apply keys_setitem_prefix]. }
  assert (∀ k, k ∈ keys t3 → k ∈ keys t2 ∨ k = "log") as Hnew3.
  { intros k. unfold t3. destruct (contains "log" t2); [by left|].
    rewrite elem_of_keys_setitem. tauto. }
  destruct (get "log" t3) as [[| | | | |entries|]|]; try discriminate.
  intros [= <-]. split.
  - etrans; [exact Hpre2|]. etrans; [exact Hpre3|]. apply keys_setitem_prefix.
  - intros k. rewrite elem_of_keys_setitem. intros [->|Hk]; [set_solver|].
    destruct (Hnew3 _ Hk) as [Hk2| ->]; [by apply Hnew2|set_solver].
Qed.
End more_update_facts.

Section update_sequences.
Import PyDict TodoManagement.
Implicit Types (task : dict json) (todos before after : list (dict json)).

(** How [for_todos] relates each record it returns to the one it read. *)
Lemma for_todos_pointwise (R : dict json → dict json → Prop) a st le n1 n2 todos todos' :
  (∀ task, R task task) →
  (∀ task task', mark st le n1 n2 task = Returned task' → R task task') →
  for_todos a st le n1 n2 todos = Returned todos' →
  Forall2 R todos todos'.
Proof.
  intros Hrefl Hmark. revert todos'.
  induction todos as [|task todos IH]; intros todos'; simpl.
  - intros [= <-]. constructor.
  - destruct (id_is a task).
    + destruct (mark st le n1 n2 task) as [task'| |] eqn:Hm; try discriminate.
      simpl. intros [= <-]. constructor; [by apply Hmark|].
      by apply Forall_Forall2_diag, Forall_forall.
    + destruct (for_todos a st le n1 n2 todos) as [rest| |]; try discriminate.
      simpl. intros [= <-]. constructor; [done|by apply IH].
Qed.

Lemma for_todos_well_logged a st le n1 n2 todos :
  Forall (λ task, is_Some (logged task)) todos →
  ∃ todos', for_todos a st le n1 n2 todos = Returned todos'
            ∧ Forall (λ task, is_Some (logged task)) todos'.
Proof.
  induction 1 as [|task todos [entries Hlogged] Hrest IH]; simpl.
  - exists []. by split.
  - destruct (id_is a task).
    + destruct (mark_logged st le n1 n2 task entries Hlogged)
        as (task' & -> & Hlogged').
      exists (task' :: todos). split; [done|]. constructor; [by eexists|done].
    + destruct IH as (todos' & -> & Hwell). exists (task :: todos').
      split; [done|]. constructor; [by eexists|done].
Qed.

Lemma id_is_both a b task : id_is a task = true → id_is b task = true → a = b.
Proof.
  unfold id_is. destruct (get "id" task) as [[| | | |s| |]|]; try done.
  intros ->%bool_decide_eq_true ->%bool_decide_eq_true. done.
Qed.

Lemma for_todos_commute a sa la n1 n2 b sb lb n3 n4 todos result :
  a ≠ b →
  (for_todos a sa la n1 n2 todos ≫= for_todos b sb lb n3 n4) = Returned result
  ↔ (for_todos b sb lb n3 n4 todos ≫= for_todos a sa la n1 n2) = Returned result.
Proof.
  intros Hab. revert result.
  induction todos as [|task todos IH]; intros result; [done|]. simpl.
  destruct (id_is a task) eqn:Ha, (id_is b task) eqn:Hb.
  - by destruct Hab; eapply id_is_both.
  - destruct (mark sa la n1 n2 task) as [task'| |] eqn:Hm; simpl.
    + rewrite (mark_id _ _ _ _ _ _ b Hm), Hb.
      destruct (for_todos b sb lb n3 n4 todos) as [rest| |]; simpl; [|done..].
      by rewrite Ha, Hm.
    + destruct (for_todos b sb lb n3 n4 todos) as [rest| |]; simpl; [|done..].
      by rewrite Ha, Hm.
    + destruct (for_todos b sb lb n3 n4 todos) as [rest| |]; simpl; [|done..].
      by rewrite Ha, Hm.
  - destruct (mark sb lb n3 n4 task) as [task'| |] eqn:Hm; simpl.
    + rewrite (mark_id _ _ _ _ _ _ a Hm), Ha.
      destruct (for_todos a sa la n1 n2 todos) as [rest| |]; simpl; [|done..].
      by rewrite Hb, Hm.
    + destruct (for_todos a sa la n1 n2 todos) as [rest| |]; simpl; [|done..].
      by rewrite Hb, Hm.
    + destruct (for_todos a sa la n1 n2 todos) as [rest| |]; simpl; [|done..].
      by rewrite Hb, Hm.
  - assert (∀ (m : outcome (list (dict json))),
              (m ≫= λ r, Returned (task :: r)) = Returned result
              ↔ ∃ r, m = Returned r ∧ result = task :: r) as Hcons.
    { intros [r| |]; simpl; split; try done; try naive_solver. }
    trans (∃ r, (for_todos a sa la n1 n2 todos ≫= for_todos b sb lb n3 n4)
                = Returned r ∧ result = task :: r).
    + rewrite <-Hcons.
      destruct (for_todos a sa la n1 n2 todos) as [ra| |]; simpl; [|done..].
      by rewrite Hb.
    + setoid_rewrite IH. rewrite <-Hcons.
      destruct (for_todos b sb lb n3 n4 todos) as [rb| |]; simpl; [|done..].
      by rewrite Ha.
Qed.
End update_sequences.

(** X6. If the log of every record is absent or a list, [update_task_status]
    does not raise, and the list it writes has that property again: a file
    whose logs only ever came from [update_task_status] can be updated any
    number of times without an error. *)
Theorem update_keeps_logs_appendable now_status now_log file task_id status log_entry :
  Forall (λ task, is_Some (logged task)) (TodoManagement.load_todos file) →
  ∃ file',
    TodoManagement.update_task_status now_status now_log file task_id status log_entry
    = Returned file'
    ∧ Forall (λ task, is_Some (logged task)) (TodoManagement.load_todos file').
Proof.
  intros Hwell. unfold TodoManagement.update_task_status.
  destruct (for_todos_well_logged task_id status log_entry now_status now_log _ Hwell)
    as (todos' & -> & Hwell').
  by eexists.
Qed.

Lemma update_keeps_logs_appendable_witness :
  ∃ file',
    TodoManagement.update_task_status "t1" "t2" two_todos "b" "completed" "done"
    = Returned file'
    ∧ Forall (λ task, is_Some (logged task)) (TodoManagement.load_todos file').
Proof.
  apply update_keeps_logs_appendable.
  repeat constructor; by eexists.
Defined.

(** X7. Updates of two different task ids commute: done in either order
    (each call with its own clock readings) they write the same list, and
    if one order raises so does the other. *)
Theorem updates_of_different_ids_commute
    now1 now2 now3 now4 file id1 status1 log1 id2 status2 log2 file' :
  id1 ≠ id2 →
  update_twice now1 now2 now3 now4 file id1 status1 log1 id2 status2 log2
  = Returned file'
  ↔ update_twice now3 now4 now1 now2 file id2 status2 log2 id1 status1 log1
    = Returned file'.
Proof.
  intros Hne. unfold update_twice, TodoManagement.update_task_status.
  pose proof (for_todos_commute id1 status1 log1 now1 now2 id2 status2 log2 now3 now4
                (TodoManagement.load_todos file)) as Hcomm.
  destruct file' as [result|].
  - specialize (Hcomm result Hne).
    destruct (TodoManagement.for_todos id1 _ _ _ _ _) as [r1| |] eqn:H1;
      destruct (TodoManagement.for_todos id2 _ _ _ _ (TodoManagement.load_todos file))
        as [r2| |] eqn:H2; simpl in *.
    all: repeat match goal with
         | |- context [TodoManagement.for_todos ?a ?s ?l ?n ?m ?r] =>
             destruct (TodoManagement.for_todos a s l n m r) eqn:?; simpl in *
         end.
    all: split; intros H; try done; try naive_solver.
  - split; intros H;
      repeat match type of H with
      | context [TodoManagement.for_todos ?a ?s ?l ?n ?m ?r] =>
          destruct (TodoManagement.for_todos a s l n m r) eqn:?; simpl in *
      end; done.
Qed.

Lemma updates_of_different_ids_commute_witness :
  update_twice "t1" "t2" "t3" "t4" two_todos "a" "completed" "" "b" "failed" "why"
  = update_twice "t3" "t4" "t1" "t2" two_todos "b" "failed" "why" "a" "completed" "".
Proof.
  assert ("a" ≠ "b") as Hne by discriminate.
  destruct (update_twice "t1" "t2" "t3" "t4" two_todos "a" "completed" "" "b"
              "failed" "why") as [file'| |] eqn:Hrun; [|discriminate..].
  symmetry.
  exact (proj1 (updates_of_different_ids_commute "t1" "t2" "t3" "t4" two_todos
                  "a" "completed" "" "b" "failed" "why" file' Hne) Hrun).
Defined.

(** X8. Two updates of the same task id in a row, on a record whose log is
    absent or a list: both reach the same record, the second status and
    update time win, the log is the former log followed by what the first
    call logged and then by what the second call logged, and nothing else
    in the list changes. *)
Theorem updates_of_one_id_accumulate
    now1 now2 now3 now4 file task_id status1 log1 status2 log2
    before task after entries :
  TodoManagement.load_todos file = before ++ task :: after →
  Forall (λ t, TodoManagement.id_is task_id t = false) before →
  TodoManagement.id_is task_id task = true →
  logged task = Some entries →
  ∃ task'',
    update_twice now1 now2 now3 now4 file task_id status1 log1 task_id status2 log2
    = Returned (TodoManagement.save_todos (before ++ task'' :: after))
    ∧ PyDict.get "status" task'' = Some (TodoManagement.JStr status2)
    ∧ PyDict.get "updated_at" task'' = Some (TodoManagement.JStr now3)
    ∧ logged task'' = Some (entries ++ logged_by log1 now2 ++ logged_by log2 now4)
    ∧ ∀ k, k ≠ "status" → k ≠ "updated_at" → k ≠ "log" →
        PyDict.get k task'' = PyDict.get k task.
Proof.
  intros Hload Hbefore Hid Hlogged.
  unfold update_twice, TodoManagement.update_task_status. rewrite Hload.
  rewrite for_todos_first_match by done.
  destruct (mark_logged status1 log1 now1 now2 task entries Hlogged)
    as (task' & Hmark1 & Hlogged').
  rewrite Hmark1. simpl.
  rewrite for_todos_first_match;
    [|done|by rewrite (mark_id _ _ _ _ _ _ task_id Hmark1)].
  destruct (mark_logged status2 log2 now3 now4 task' _ Hlogged')
    as (task'' & Hmark2 & Hlogged'').
  rewrite Hmark2. simpl. exists task''. split; [done|].
  destruct (mark_effect _ _ _ _ _ _ Hmark1) as (_ & _ & Hframe1 & _).
  destruct (mark_effect _ _ _ _ _ _ Hmark2) as (Hst & Hup & Hframe2 & _).
  split_and!; [done|done|by rewrite Hlogged'', <-app_assoc|].
  intros k ? ? ?. by rewrite Hframe2, Hframe1.
Qed.

Lemma updates_of_one_id_accumulate_witness :
  ∃ task'',
    update_twice "t1" "t2" "t3" "t4" two_todos "b" "in_progress" "started"
      "b" "completed" "done"
    = Returned (TodoManagement.save_todos
                  ([[("id", TodoManagement.JStr "a");
                     ("status", TodoManagement.JStr "pending")]] ++ task'' :: []))
    ∧ PyDict.get "status" task'' = Some (TodoManagement.JStr "completed")
    ∧ PyDict.get "updated_at" task'' = Some (TodoManagement.JStr "t3")
    ∧ logged task''
      = Some ([] ++ logged_by "started" "t2" ++ logged_by "done" "t4")
    ∧ ∀ k, k ≠ "status" → k ≠ "updated_at" → k ≠ "log" →
        PyDict.get k task''
        = PyDict.get k [("id", TodoManagement.JStr "b");
                        ("status", TodoManagement.JStr "pending");
                        ("tags", TodoManagement.JList [])].
Proof.
  apply updates_of_one_id_accumulate.
  - reflexivity.
  - repeat constructor.
  - reflexivity.
  - reflexivity.
Defined.

(** X9. Whatever [update_task_status] writes has as many records as it
    loaded, in the same order; every record keeps its keys in their order,
    and the only keys a record can gain are "status", "updated_at" and
    "log", added after the keys it had. *)
Theorem update_keeps_keys_in_order now_status now_log file task_id status log_entry file' :
  TodoManagement.update_task_status now_status now_log file task_id status log_entry
  = Returned file' →
  Forall2
    (λ task task',
       PyDict.keys task `prefix_of` PyDict.keys task'
       ∧ ∀ k, k ∈ PyDict.keys task' →
           k ∈ PyDict.keys task ∨ k ∈ ["status"; "updated_at"; "log"])
    (TodoManagement.load_todos file) (TodoManagement.load_todos file').
Proof.
  unfold TodoManagement.update_task_status.
  destruct (TodoManagement.for_todos _ _ _ _ _ _) as [todos'| |] eqn:Hrun;
    try discriminate.
  simpl. intros [= <-]. simpl.
  eapply for_todos_pointwise; [| |exact Hrun].
  - intros task. split; [done|]. by left.
  - intros task task' Hmark. by eapply mark_keys.
Qed.

Lemma update_keeps_keys_in_order_witness :
  Forall2
    (λ task task',
       PyDict.keys task `prefix_of` PyDict.keys task'
       ∧ ∀ k, k ∈ PyDict.keys task' →
           k ∈ PyDict.keys task ∨ k ∈ ["status"; "updated_at"; "log"])
    (TodoManagement.load_todos two_todos) (TodoManagement.load_todos two_todos_updated).
Proof.
  apply (update_keeps_keys_in_order "t1" "t2" two_todos "b" "completed" "done").
  reflexivity.
Defined.

Section todo_manager_facts.
Import PyDict TodoManagement TodoManager.
Implicit Types (task : dict json) (tasks : list (dict json)).

Lemma format_returns tasks :
  Forall has_todo_keys tasks →
  ∃ r, get_claude_todo_format tasks = Returned r
       ∧ Forall2 (λ task o,
                    keys o = ["content"; "status"; "activeForm"]
                    ∧ ∀ k, k ∈ keys o → get k o = get k task) tasks r.
Proof.
  induction 1 as [|task tasks ([c Hc] & [s Hs] & [a Ha]) _ (r & Hr & Hshape)].
  - exists []. split; [done|constructor].
  - eexists. cbn [get_claude_todo_format]. unfold getitem.
    rewrite Hc, Hs, Ha, Hr. simpl. split; [reflexivity|].
    constructor; [|done]. split; [done|].
    intros k Hk. cbn in Hk.
    repeat (apply elem_of_cons in Hk as [->|Hk]); try by apply elem_of_nil in Hk.
    all: by simpl.
Qed.

Lemma format_raises tasks :
  ¬ Forall has_todo_keys tasks →
  ∃ k, get_claude_todo_format tasks = Raised (KeyError k)
       ∧ k ∈ ["content"; "status"; "activeForm"].
Proof.
  induction tasks as [|task tasks IH]; intros Hnot.
  - destruct Hnot. constructor.
  - cbn [get_claude_todo_format]. unfold getitem.
    destruct (get "content" task) as [c|] eqn:Hc; [|exists "content"; split; [done|set_solver]].
    destruct (get "status" task) as [s|] eqn:Hs; [|exists "status"; split; [done|set_solver]].
    destruct (get "activeForm" task) as [a|] eqn:Ha;
      [|exists "activeForm"; split; [done|set_solver]].
    destruct IH as (k & Hk & Hin).
    + intros Hall. apply Hnot. constructor; [|done].
      unfold has_todo_keys. rewrite Hc, Hs, Ha. eauto.
    + exists k. simpl. rewrite Hk. done.
Qed.
End todo_manager_facts.

(** X10. [get_claude_todo_format] returns exactly when every dict has the
    keys "content", "status" and "activeForm". It then yields one dict per
    input dict, in order, with those three keys in that order and the
    values of the input; otherwise it raises [KeyError] for one of the
    three keys. *)
Theorem todo_format_needs_three_keys tasks :
  (Forall has_todo_keys tasks →
   ∃ r, TodoManager.get_claude_todo_format tasks = Returned r
        ∧ Forall2 (λ task o,
                     PyDict.keys o = ["content"; "status"; "activeForm"]
                     ∧ ∀ k, k ∈ PyDict.keys o → PyDict.get k o = PyDict.get k task)
            tasks r)
  ∧ (¬ Forall has_todo_keys tasks →
     ∃ k, TodoManager.get_claude_todo_format tasks = Raised (KeyError k)
          ∧ k ∈ ["content"; "status"; "activeForm"]).
Proof. split; [apply format_returns|apply format_raises]. Qed.

Lemma todo_format_needs_three_keys_witness :
  ∃ r, TodoManager.get_claude_todo_format (TodoManagement.load_todos two_todos_updated)
       = Raised (KeyError r)
       ∧ r ∈ ["content"; "status"; "activeForm"].
Proof.
  apply (proj2 (todo_format_needs_three_keys _)).
  intros Hall. apply Forall_cons in Hall as [(Hcontent & _) _].
  by destruct Hcontent.
Defined.

Section plan_facts.
Import PyDict TodoManagement TodoManager.

Lemma task_to_dict_id task : id_of (_task_to_dict task) = Some (id task).
Proof. reflexivity. Qed.

Lemma task_to_dict_id_is x task :
  id_is x (_task_to_dict task) = bool_decide (id task = x).
Proof. reflexivity. Qed.

Lemma task_to_dict_view task :
  get_claude_todo_format [_task_to_dict task] = Returned [todo_view (status task) task].
Proof. reflexivity. Qed.

Lemma format_cons task tasks o r :
  get_claude_todo_format [task] = Returned [o] →
  get_claude_todo_format tasks = Returned r →
  get_claude_todo_format (task :: tasks) = Returned (o :: r).
Proof.
  cbn [get_claude_todo_format]. intros Ho Hr. rewrite Hr.
  destruct (getitem "content" task); simpl in *; try done.
  destruct (getitem "status" task); simpl in *; try done.
  destruct (getitem "activeForm" task); simpl in *; try done.
  by injection Ho as <-.
Qed.

Lemma format_task_dicts (tasks : list Task) :
  get_claude_todo_format (_task_to_dict <$> tasks)
  = Returned ((λ t, todo_view (status t) t) <$> tasks).
Proof.
  induction tasks as [|t tasks IH]; [done|].
  rewrite !fmap_cons. apply format_cons; [apply task_to_dict_view|exact IH].
Qed.

Lemma mark_task_dict st le n1 n2 (t : Task) :
  ∃ task', mark st le n1 n2 (_task_to_dict t) = Returned task'
           ∧ get_claude_todo_format [task'] = Returned [todo_view st t].
Proof.
  unfold mark. destruct (truthy le); simpl; eexists; split; reflexivity.
Qed.

Lemma update_task_dicts st le n1 n2 x (tasks : list Task) :
  NoDup (id <$> tasks) →
  ∃ todos',
    for_todos x st le n1 n2 (_task_to_dict <$> tasks) = Returned todos'
    ∧ get_claude_todo_format todos'
      = Returned ((λ t, todo_view (if decide (id t = x) then st else status t) t)
                    <$> tasks).
Proof.
  induction tasks as [|t tasks IH]; intros Hnd.
  - by exists [].
  - rewrite fmap_cons in Hnd. apply NoDup_cons in Hnd as [Hfresh Hnd].
    rewrite !fmap_cons. cbn [for_todos]. rewrite task_to_dict_id_is.
    destruct (decide (id t = x)) as [Hx|Hx].
    + rewrite bool_decide_eq_true_2 by done.
      destruct (mark_task_dict st le n1 n2 t) as (task' & -> & Hview).
      eexists. split; [reflexivity|].
      apply format_cons; [exact Hview|].
      rewrite format_task_dicts. f_equal. apply list_fmap_ext.
      intros i t' Ht'. destruct (decide (id t' = x)) as [Hx'|]; [|done].
      exfalso. apply Hfresh. rewrite Hx, <-Hx'.
      apply list_elem_of_fmap. exists t'. split; [done|].
      by eapply list_elem_of_lookup_2.
    + rewrite bool_decide_eq_false_2 by done.
      destruct (IH Hnd) as (todos' & -> & Hview).
      eexists. split; [reflexivity|].
      apply format_cons; [apply task_to_dict_view|exact Hview].
Qed.
End plan_facts.

(** X11. A plan's tasks, converted by [_task_to_dict] and saved, then
    updated for any task id, then shown by [get_claude_todo_format]: when
    the task ids are pairwise distinct, neither call raises, and the result
    shows every task with its content and active form, the task of the
    given id (if any) with the new status and every other task with its own
    status. *)
Theorem saved_tasks_show_the_update now_status now_log tasks task_id status log_entry :
  NoDup (TodoManagement.id <$> tasks) →
  ∃ file',
    TodoManagement.update_task_status now_status now_log
      (TodoManagement.save_todos (TodoManager._task_to_dict <$> tasks))
      task_id status log_entry
    = Returned file'
    ∧ TodoManager.get_claude_todo_format (TodoManagement.load_todos file')
      = Returned
          ((λ t, todo_view (if decide (TodoManagement.id t = task_id)
                            then status else TodoManagement.status t) t)
             <$> tasks).
Proof.
  intros Hnd. unfold TodoManagement.update_task_status. simpl.
  destruct (update_task_dicts status log_entry now_status now_log task_id tasks Hnd)
    as (todos' & -> & Hview).
  by eexists.
Qed.

Lemma saved_tasks_show_the_update_witness :
  ∃ file',
    TodoManagement.update_task_status "t1" "t2"
      (TodoManagement.save_todos (TodoManager._task_to_dict <$> auth_tasks))
      "auth-2" "completed" "merged"
    = Returned file'
    ∧ TodoManager.get_claude_todo_format (TodoManagement.load_todos file')
      = Returned
          ((λ t, todo_view (if decide (TodoManagement.id t = "auth-2")
                            then "completed" else TodoManagement.status t) t)
             <$> auth_tasks).
Proof.
  apply saved_tasks_show_the_update.
  apply (bool_decide_unpack _). by vm_compute.
Defined.

(** X12. Whatever the problem and the context, [generate_execution_plan]
    returns a plan of five tasks, all pending, and (as long as the ids drawn
    for the generic tasks are pairwise distinct) its parallel groups are a
    single stage, stage_0, that lists the ids of all five tasks in order:
    the authentication tests end up in the stage of the tasks they depend
    on. *)
Theorem generated_plan_is_one_stage fuel str_lower env problem context :
  NoDup (TodoManager.uuid4 env <$> seq 0 5) → 5 ≤ fuel →
  ∃ plan ids,
    TodoManager.generate_execution_plan fuel str_lower env problem context
    = Returned plan
    ∧ length (TodoManager.tasks plan) = 5
    ∧ id_of <$> TodoManager.tasks plan = Some <$> ids
    ∧ TodoManager.parallel_groups plan = [(stage_label 0, ids)]
    ∧ Forall (λ task, PyDict.get "status" task = Some (TodoManagement.JStr "pending"))
        (TodoManager.tasks plan).
Proof.
  intros Hfresh Hfuel. unfold TodoManager.generate_execution_plan.
  destruct (TodoManager.is_substring _ _).
  - set (tasks := TodoManager.authentication_tasks _).
    assert (TodoManagement.identify_parallel_opportunities fuel tasks
            = Returned [(stage_label 0, TodoManagement.id <$> tasks)]) as ->.
    { rewrite task_partition, <-task_ids.
      apply partition_listed; [done| | |done].
      - apply (bool_decide_unpack _). by vm_compute.
      - simpl. repeat split; apply (bool_decide_unpack _); by vm_compute. }
    simpl. eexists _, (TodoManagement.id <$> tasks).
    split_and!; [reflexivity|done|reflexivity|done|].
    repeat constructor.
  - set (tasks := TodoManager.generic_tasks _ _ _).
    assert (TodoManagement.identify_parallel_opportunities fuel tasks
            = Returned [(stage_label 0, TodoManagement.id <$> tasks)]) as ->.
    { rewrite task_partition, <-task_ids.
      apply partition_listed; [done| | |done].
      - exact Hfresh.
      - simpl. repeat split; constructor. }
    simpl. eexists _, (TodoManagement.id <$> tasks).
    split_and!; [reflexivity|done|reflexivity|done|].
    repeat constructor.
Qed.

Lemma generated_plan_is_one_stage_witness :
  ∃ plan ids,
    TodoManager.generate_execution_plan 5 (λ s, s) counting "Add a cache" ""
    = Returned plan
    ∧ length (TodoManager.tasks plan) = 5
    ∧ id_of <$> TodoManager.tasks plan = Some <$> ids
    ∧ TodoManager.parallel_groups plan = [(stage_label 0, ids)]
    ∧ Forall (λ task, PyDict.get "status" task = Some (TodoManagement.JStr "pending"))
        (TodoManager.tasks plan).
Proof.
  apply generated_plan_is_one_stage.
  - apply (bool_decide_unpack _). by vm_compute.
  - lia.
Defined.

(** ** Building a plan from dicts *)

Section plan_facts.
Import AgentOrchestrator PyDict.

Lemma AgentType_of_value t : AgentType_of (AgentType_value t) = Finished t.
Proof. by destruct t. Qed.

Lemma AgentType_of_known value :
  value ∈ AgentType_value <$> agent_types →
  ∃ t, AgentType_of value = Finished t ∧ AgentType_value t = value.
Proof.
  intros (t & -> & _)%list_elem_of_fmap. exists t. by rewrite AgentType_of_value.
Qed.

Lemma AgentType_of_unknown value :
  value ∉ AgentType_value <$> agent_types →
  AgentType_of value = Raises (ValueError value).
Proof.
  intros Hno. unfold AgentType_of.
  destruct (filter _ agent_types) as [|t ts] eqn:Hf; [done|].
  assert (t ∈ filter (λ t, AgentType_value t = value) agent_types) as Ht
    by (rewrite Hf; left).
  apply list_elem_of_filter in Ht as [Hv Ht]. exfalso. apply Hno.
  apply list_elem_of_fmap. by exists t.
Qed.

Lemma new_execution_accepted i data :
  refusal data = None →
  ∃ e, new_execution i data = Finished e
       ∧ Orchestrator.id e = given_id i data
       ∧ Orchestrator.status e = Orchestrator.PENDING
       ∧ Orchestrator.dependencies e = default [] (data_dependencies data).
Proof.
  unfold refusal, new_execution.
  destruct (data_agent_type data) as [value|]; [|done]. case_bool_decide as Hv; [|done].
  destruct (AgentType_of_known value Hv) as (t & Ht & _).
  destruct (data_description data); [|done]. destruct (data_prompt data); [|done].
  intros _. simpl. rewrite Ht. simpl. by eexists.
Qed.

Lemma new_execution_refused i data e :
  refusal data = Some e → new_execution i data = Raises e.
Proof.
  unfold refusal, new_execution.
  destruct (data_agent_type data) as [value|]; [|by intros [= <-]].
  case_bool_decide as Hv.
  - destruct (AgentType_of_known value Hv) as (t & Ht & _). simpl. rewrite Ht. simpl.
    destruct (data_description data); [|by intros [= <-]].
    destruct (data_prompt data); [done|by intros [= <-]].
  - intros [= <-]. simpl. by rewrite AgentType_of_unknown.
Qed.

Lemma new_executions_accepted i dicts :
  first_refusal dicts = None →
  ∃ es, new_executions i dicts = Finished es
        ∧ Orchestrator.id <$> es = imap (λ j, given_id (i + j)) dicts
        ∧ Forall (λ e, Orchestrator.status e = Orchestrator.PENDING) es
        ∧ Orchestrator.dependencies <$> es
          = (λ data, default [] (data_dependencies data)) <$> dicts.
Proof.
  revert i. induction dicts as [|data dicts IH]; intros i; simpl.
  - intros _. by exists [].
  - destruct (refusal data) eqn:Hr; [done|]. intros Hrest.
    destruct (new_execution_accepted i data Hr) as (e & -> & Hid & Hst & Hdeps).
    destruct (IH (S i) Hrest) as (es & -> & Hids & Hsts & Hdepss).
    exists (e :: es). split_and!; [done| |by constructor|by rewrite !fmap_cons, Hdeps, Hdepss].
    rewrite fmap_cons, Hid, Hids, Nat.add_0_r. f_equal.
    apply imap_ext. intros j ? _. simpl. f_equal. lia.
Qed.

Lemma new_executions_refused i dicts e :
  first_refusal dicts = Some e → new_executions i dicts = Raises e.
Proof.
  revert i. induction dicts as [|data dicts IH]; intros i; simpl; [done|].
  destruct (refusal data) eqn:Hr.
  - intros [= <-]. by rewrite (new_execution_refused _ _ _ Hr).
  - intros Hrest. destruct (new_execution_accepted i data Hr) as (e' & -> & _).
    simpl. by rewrite (IH _ Hrest).
Qed.

Lemma length_new_executions i dicts es :
  new_executions i dicts = Finished es → length es = length dicts.
Proof.
  revert i es. induction dicts as [|data dicts IH]; intros i es; simpl.
  - by intros [= <-].
  - destruct (new_execution i data); [|done..]. simpl.
    destruct (new_executions (S i) dicts) eqn:Hrest; [|done..]. simpl.
    intros [= <-]. simpl. f_equal. by eapply IH.
Qed.

Lemma groups_of_executions fuel (es : list Orchestrator.AgentExecution) :
  length es ≤ fuel →
  Orchestrator._calculate_parallel_groups fuel es
  = Returned (labelled 0 (stages (length es)
                (comprehension fst snd (exec_skeleton <$> es)) ∅)).
Proof.
  intros Hfuel. rewrite exec_partition.
  pose proof (partition_returns (exec_skeleton <$> es) fuel) as Hret.
  rewrite !length_fmap in Hret. by apply Hret.
Qed.

Lemma created_plan fuel now name' description' dicts plan :
  create_execution_plan fuel now name' description' dicts = Finished plan →
  length dicts ≤ fuel →
  new_executions 0 dicts = Finished (executions plan)
  ∧ parallel_groups plan
    = labelled 0 (stages (length (executions plan))
        (comprehension fst snd (exec_skeleton <$> executions plan)) ∅)
  ∧ name plan = name' ∧ description plan = description' ∧ created_at plan = now.
Proof.
  unfold create_execution_plan. intros Hplan Hfuel.
  destruct (new_executions 0 dicts) as [es| |] eqn:Hes; [|done..]. simpl in Hplan.
  rewrite groups_of_executions in Hplan
    by (by rewrite (length_new_executions _ _ _ Hes)).
  simpl in Hplan. by injection Hplan as <-.
Qed.

Lemma staged_ids (es : list Orchestrator.AgentExecution) :
  let groups := stages (length es) (comprehension fst snd (exec_skeleton <$> es)) ∅ in
  NoDup (concat groups) ∧ ∀ i, i ∈ concat groups ↔ i ∈ Orchestrator.id <$> es.
Proof.
  destruct (partition_distinct_ids (exec_skeleton <$> es)) as [Hnd Hin].
  rewrite length_fmap in Hnd, Hin. split; [done|].
  intros i. by rewrite Hin, exec_ids.
Qed.

Lemma default_ids_distinct i n :
  NoDup ((λ j, "exec-" +:+ pretty (i + j)) <$> seq 0 n).
Proof.
  apply NoDup_fmap_2; [|apply NoDup_seq].
  intros j1 j2 Heq. apply (inj (String.app "exec-")) in Heq.
  apply (inj pretty) in Heq. lia.
Qed.

Lemma imap_default_ids i dicts :
  Forall (λ data, data_id data = None) dicts →
  imap (λ j, given_id (i + j)) dicts
  = (λ j, "exec-" +:+ pretty j) <$> seq i (length dicts).
Proof.
  intros Hnone. revert i. induction Hnone as [|data dicts Hd _ IH]; intros i; [done|].
  csimpl. unfold given_id at 1. rewrite Hd, Nat.add_0_r. simpl. f_equal.
  rewrite <-IH. apply imap_ext. intros j d _. simpl. f_equal. lia.
Qed.
End plan_facts.

(** X13. [create_execution_plan] raises for the first dict that lacks
    "agent_type" (KeyError), names no agent type (ValueError), or lacks
    "description" or "prompt" (KeyError), checked in this order; when no
    dict does, it returns a plan whose executions follow the dicts in
    order, each with the dict's id or "exec-" and its position, status
    PENDING, and the dict's dependencies or none. *)
Theorem plan_created_unless_a_dict_is_refused fuel now name description dicts :
  length dicts ≤ fuel →
  match first_refusal dicts with
  | Some e =>
      AgentOrchestrator.create_execution_plan fuel now name description dicts
      = AgentOrchestrator.Raises e
  | None =>
      ∃ plan,
        AgentOrchestrator.create_execution_plan fuel now name description dicts
        = AgentOrchestrator.Finished plan
        ∧ Orchestrator.id <$> AgentOrchestrator.executions plan = imap given_id dicts
        ∧ Forall (λ e, Orchestrator.status e = Orchestrator.PENDING)
            (AgentOrchestrator.executions plan)
        ∧ Orchestrator.dependencies <$> AgentOrchestrator.executions plan
          = (λ data, default [] (AgentOrchestrator.data_dependencies data)) <$> dicts
        ∧ AgentOrchestrator.created_at plan = now
  end.
Proof.
  intros Hfuel. unfold AgentOrchestrator.create_execution_plan.
  destruct (first_refusal dicts) as [e|] eqn:Hr.
  - by rewrite (new_executions_refused 0 dicts e Hr).
  - destruct (new_executions_accepted 0 dicts Hr) as (es & Hes & Hids & Hst & Hdeps).
    rewrite Hes. simpl.
    rewrite groups_of_executions by (by rewrite (length_new_executions _ _ _ Hes)).
    simpl. eexists. split; [reflexivity|]. simpl. by split_and!.
Qed.

Lemma plan_created_unless_a_dict_is_refused_witness :
  ∃ plan,
    AgentOrchestrator.create_execution_plan 2 "now" "auth" "" two_dicts
    = AgentOrchestrator.Finished plan
    ∧ Orchestrator.id <$> AgentOrchestrator.executions plan = imap given_id two_dicts
    ∧ Forall (λ e, Orchestrator.status e = Orchestrator.PENDING)
        (AgentOrchestrator.executions plan)
    ∧ Orchestrator.dependencies <$> AgentOrchestrator.executions plan
      = (λ data, default [] (AgentOrchestrator.data_dependencies data)) <$> two_dicts
    ∧ AgentOrchestrator.created_at plan = "now".
Proof.
  apply (plan_created_unless_a_dict_is_refused 2 "now" "auth" "" two_dicts).
  simpl. lia.
Defined.

(** X14. In a plan that [create_execution_plan] returns, the stages hold
    every id of the executions exactly once. When two dicts end up with the
    same id the stages therefore hold fewer ids than there are executions;
    when the ids are pairwise distinct, they hold one id per execution. *)
Theorem created_plan_stages_each_id_once fuel now name description dicts plan :
  AgentOrchestrator.create_execution_plan fuel now name description dicts
  = AgentOrchestrator.Finished plan →
  length dicts ≤ fuel →
  let ids := Orchestrator.id <$> AgentOrchestrator.executions plan in
  let staged := concat (PyDict.values (AgentOrchestrator.parallel_groups plan)) in
  NoDup staged
  ∧ (∀ i, i ∈ staged ↔ i ∈ ids)
  ∧ (NoDup ids → staged ≡ₚ ids)
  ∧ (¬ NoDup ids → length staged < length dicts).
Proof.
  intros Hplan Hfuel ids staged.
  destruct (created_plan _ _ _ _ _ _ Hplan Hfuel) as (Hes & Hpg & _).
  destruct (staged_ids (AgentOrchestrator.executions plan)) as [Hnd Hin].
  assert (staged = concat (stages (length (AgentOrchestrator.executions plan))
            (PyDict.comprehension fst snd
               (exec_skeleton <$> AgentOrchestrator.executions plan)) ∅)) as Hst.
  { unfold staged. by rewrite Hpg, values_labelled. }
  rewrite <-Hst in Hnd, Hin. split_and!; [done..| |].
  - intros Hids. apply NoDup_Permutation; done.
  - intros Hdup.
    assert (staged ⊆+ ids) as Hsub by (apply NoDup_submseteq; [done|]; intros i; apply Hin).
    pose proof (submseteq_length _ _ Hsub) as Hle.
    assert (length ids = length dicts) as Hlen
      by (unfold ids; by rewrite length_fmap, (length_new_executions _ _ _ Hes)).
    destruct (decide (length staged = length ids)) as [Heq|]; [|lia].
    exfalso. apply Hdup. apply submseteq_length_Permutation in Hsub; [|lia].
    by rewrite <-Hsub.
Qed.

Lemma created_plan_stages_each_id_once_witness :
  ∃ plan,
    let ids := Orchestrator.id <$> AgentOrchestrator.executions plan in
    let staged := concat (PyDict.values (AgentOrchestrator.parallel_groups plan)) in
    AgentOrchestrator.create_execution_plan 2 "now" "auth" "" two_dicts
    = AgentOrchestrator.Finished plan
    ∧ NoDup staged
    ∧ (∀ i, i ∈ staged ↔ i ∈ ids)
    ∧ (NoDup ids → staged ≡ₚ ids)
    ∧ (¬ NoDup ids → length staged < length two_dicts).
Proof.
  eexists. split; [reflexivity|].
  apply (created_plan_stages_each_id_once 2 "now" "auth" "" two_dicts).
  - reflexivity.
  - simpl. lia.
Defined.

(** X15. When no dict gives an id, the executions get the ids "exec-0",
    "exec-1", ... in order; these are pairwise distinct, so the stages of
    the plan hold one id per execution. *)
Theorem default_ids_are_distinct fuel now name description dicts plan :
  AgentOrchestrator.create_execution_plan fuel now name description dicts
  = AgentOrchestrator.Finished plan →
  length dicts ≤ fuel →
  Forall (λ data, AgentOrchestrator.data_id data = None) dicts →
  let ids := Orchestrator.id <$> AgentOrchestrator.executions plan in
  ids = (λ i, "exec-" +:+ pretty i) <$> seq 0 (length dicts)
  ∧ NoDup ids
  ∧ concat (PyDict.values (AgentOrchestrator.parallel_groups plan)) ≡ₚ ids.
Proof.
  intros Hplan Hfuel Hnone ids.
  destruct (created_plan _ _ _ _ _ _ Hplan Hfuel) as (Hes & Hpg & _).
  assert (first_refusal dicts = None) as Hr.
  { destruct (first_refusal dicts) as [e|] eqn:Hr; [|done].
    by rewrite (new_executions_refused 0 dicts e Hr) in Hes. }
  destruct (new_executions_accepted 0 dicts Hr) as (es & Hes' & Hids & _).
  rewrite Hes in Hes'. injection Hes' as <-.
  assert (ids = (λ i, "exec-" +:+ pretty i) <$> seq 0 (length dicts)) as Hdef.
  { unfold ids. rewrite Hids. by apply (imap_default_ids 0). }
  assert (NoDup ids) as Hnd by (rewrite Hdef; apply (default_ids_distinct 0)).
  split_and!; [done..|].
  destruct (staged_ids (AgentOrchestrator.executions plan)) as [Hnd' Hin].
  rewrite Hpg, values_labelled. by apply NoDup_Permutation.
Qed.

Lemma default_ids_are_distinct_witness :
  ∃ plan,
    let ids := Orchestrator.id <$> AgentOrchestrator.executions plan in
    AgentOrchestrator.create_execution_plan 2 "now" "auth" "" unnamed_dicts
    = AgentOrchestrator.Finished plan
    ∧ ids = (λ i, "exec-" +:+ pretty i) <$> seq 0 (length unnamed_dicts)
    ∧ NoDup ids
    ∧ concat (PyDict.values (AgentOrchestrator.parallel_groups plan)) ≡ₚ ids.
Proof.
  eexists. split; [reflexivity|].
  apply (default_ids_are_distinct 2 "now" "auth" "" unnamed_dicts).
  - reflexivity.
  - simpl. lia.
  - repeat constructor.
Defined.

(** ** Task commands of a plan *)

Section command_facts.
Import AgentOrchestrator PyDict.
Implicit Types (es : list Orchestrator.AgentExecution) (ids : list string).

Lemma first_with_id_known x es :
  x ∈ Orchestrator.id <$> es →
  ∃ e, first_with_id x es = Finished e ∧ e ∈ es ∧ Orchestrator.id e = x.
Proof.
  intros (e & -> & He)%list_elem_of_fmap. unfold first_with_id.
  destruct (filter _ es) as [|e' es'] eqn:Hf.
  - assert (e ∈ filter (λ e', Orchestrator.id e' = Orchestrator.id e) es) as Hin
      by (by apply list_elem_of_filter).
    rewrite Hf in Hin. by apply elem_of_nil in Hin.
  - assert (e' ∈ filter (λ e', Orchestrator.id e' = Orchestrator.id e) es) as Hin
      by (rewrite Hf; left).
    apply list_elem_of_filter in Hin as [Hid Hin]. by exists e'.
Qed.

Lemma first_with_id_unknown x es :
  x ∉ Orchestrator.id <$> es → first_with_id x es = Raises (Exn StopIteration).
Proof.
  intros Hno. unfold first_with_id.
  destruct (filter _ es) as [|e' es'] eqn:Hf; [done|].
  assert (e' ∈ filter (λ e', Orchestrator.id e' = x) es) as Hin by (rewrite Hf; left).
  apply list_elem_of_filter in Hin as [Hid Hin]. exfalso. apply Hno.
  apply list_elem_of_fmap. by exists e'.
Qed.

Lemma stage_commands_spec es ids :
  match stage_commands es ids with
  | Finished commands =>
      Forall (λ x, x ∈ Orchestrator.id <$> es) ids
      ∧ Forall2 (λ x command, ∃ e, first_with_id x es = Finished e
                                   ∧ command = task_command e) ids commands
  | Raises e => e = Exn StopIteration ∧ ¬ Forall (λ x, x ∈ Orchestrator.id <$> es) ids
  | Unfinished => False
  end.
Proof.
  induction ids as [|x ids IH]; simpl; [by split; constructor|].
  destruct (decide (x ∈ Orchestrator.id <$> es)) as [Hx|Hx].
  - destruct (first_with_id_known x es Hx) as (e & He & _). rewrite He. simpl.
    destruct (stage_commands es ids) as [commands|e'|]; simpl; [| |done].
    + destruct IH as [Hall Hcs]. split; constructor; eauto.
    + destruct IH as [-> Hno]. split; [done|]. by intros [_ ?]%Forall_cons.
  - rewrite (first_with_id_unknown x es Hx). simpl. split; [done|].
    by intros [? _]%Forall_cons.
Qed.

Lemma plan_commands_spec str_title es (groups : list (string * list string)) :
  match plan_commands str_title es groups with
  | Finished commands =>
      Forall (λ x, x ∈ Orchestrator.id <$> es) (concat groups.*2)
      ∧ length commands = 2 * length groups + length (concat groups.*2)
      ∧ ∀ x, x ∈ concat groups.*2 →
          ∃ e, first_with_id x es = Finished e ∧ task_command e ∈ commands
  | Raises e =>
      e = Exn StopIteration ∧ ¬ Forall (λ x, x ∈ Orchestrator.id <$> es) (concat groups.*2)
  | Unfinished => False
  end.
Proof.
  induction groups as [|[stage_name ids] groups IH]; csimpl.
  - split_and!; [constructor|done|]. by intros x ?%elem_of_nil.
  - pose proof (stage_commands_spec es ids) as Hstage.
    destruct (stage_commands es ids) as [commands|e|]; simpl; [| |done].
    + destruct Hstage as [Hids Hcs].
      destruct (plan_commands str_title es groups) as [rest|e|]; simpl; [| |done].
      * destruct IH as (Hall & Hlen & Hin). split_and!.
        -- by apply Forall_app.
        -- pose proof (Forall2_length _ _ _ Hcs) as Hl.
           rewrite !length_app, length_cons, Hlen. lia.
        -- intros x [Hx|Hx]%elem_of_app.
           ++ apply list_elem_of_lookup in Hx as [i Hi].
              destruct (Forall2_lookup_l _ _ _ _ _ Hcs Hi) as (c & Hc & e & He & ->).
              exists e. split; [done|]. right. apply elem_of_app. left.
              by eapply list_elem_of_lookup_2.
           ++ destruct (Hin x Hx) as (e & He & Hc). exists e. split; [done|].
              right. apply elem_of_app. right. by right.
      * destruct IH as [-> Hno]. split; [done|]. by intros [_ ?]%Forall_app.
    + destruct Hstage as [-> Hno]. split; [done|]. by intros [? _]%Forall_app.
Qed.

Lemma same_id_same_execution es e e' :
  NoDup (Orchestrator.id <$> es) → e ∈ es → e' ∈ es →
  Orchestrator.id e = Orchestrator.id e' → e = e'.
Proof.
  intros Hnd [i Hi]%list_elem_of_lookup [j Hj]%list_elem_of_lookup Hid.
  assert (i = j) as ->; [|congruence].
  eapply (NoDup_lookup _ _ _ _ Hnd); rewrite list_lookup_fmap.
  - by rewrite Hi.
  - by rewrite Hj, Hid.
Qed.
End command_facts.

(** X16. [generate_claude_tasks] returns exactly when every id that the
    stages list is the id of an execution, and raises StopIteration when
    one is not. What it returns has a header and an empty string per stage
    and one command per listed id, the command of the first execution with
    that id. *)
Theorem task_commands_need_known_ids str_title plan :
  match AgentOrchestrator.generate_claude_tasks str_title plan with
  | AgentOrchestrator.Finished commands =>
      ids_known plan
      ∧ length commands
        = 2 * length (AgentOrchestrator.parallel_groups plan)
          + length (concat (PyDict.values (AgentOrchestrator.parallel_groups plan)))
      ∧ ∀ x, x ∈ concat (PyDict.values (AgentOrchestrator.parallel_groups plan)) →
          ∃ e, AgentOrchestrator.first_with_id x (AgentOrchestrator.executions plan)
               = AgentOrchestrator.Finished e
               ∧ AgentOrchestrator.task_command e ∈ commands
  | AgentOrchestrator.Raises e =>
      e = AgentOrchestrator.Exn StopIteration ∧ ¬ ids_known plan
  | AgentOrchestrator.Unfinished => False
  end.
Proof.
  apply (plan_commands_spec str_title (AgentOrchestrator.executions plan)
           (PyDict.items (AgentOrchestrator.parallel_groups plan))).
Qed.

(** X17. On a plan that [create_execution_plan] returned,
    [generate_claude_tasks] never raises: it returns two lines per stage
    and one command per distinct id, and when the ids of the executions are
    pairwise distinct the command of every execution is among them. *)
Theorem created_plan_gives_commands fuel now name description dicts plan str_title :
  AgentOrchestrator.create_execution_plan fuel now name description dicts
  = AgentOrchestrator.Finished plan →
  length dicts ≤ fuel →
  ∃ commands,
    AgentOrchestrator.generate_claude_tasks str_title plan
    = AgentOrchestrator.Finished commands
    ∧ length commands
      = 2 * length (AgentOrchestrator.parallel_groups plan)
        + length (remove_dups (Orchestrator.id <$> AgentOrchestrator.executions plan))
    ∧ (NoDup (Orchestrator.id <$> AgentOrchestrator.executions plan) →
       ∀ e, e ∈ AgentOrchestrator.executions plan →
         AgentOrchestrator.task_command e ∈ commands).
Proof.
  intros Hplan Hfuel.
  destruct (created_plan _ _ _ _ _ _ Hplan Hfuel) as (Hes & Hpg & _).
  destruct (staged_ids (AgentOrchestrator.executions plan)) as [Hnd Hin].
  pose proof (plan_commands_spec str_title (AgentOrchestrator.executions plan)
                (PyDict.items (AgentOrchestrator.parallel_groups plan))) as Hspec.
  unfold AgentOrchestrator.generate_claude_tasks.
  assert (concat (PyDict.items (AgentOrchestrator.parallel_groups plan)).*2
          = concat (stages (length (AgentOrchestrator.executions plan))
              (PyDict.comprehension fst snd
                 (exec_skeleton <$> AgentOrchestrator.executions plan)) ∅)) as Hst.
  { rewrite Hpg. by rewrite <-(values_labelled 0 (stages _ _ _)) at 2. }
  rewrite Hst in Hspec.
  destruct (AgentOrchestrator.plan_commands _ _ _) as [commands|e|]; [| |done].
  - destruct Hspec as (_ & Hlen & Hcmd). exists commands. split_and!; [done| |].
    + rewrite Hlen. f_equal. apply Permutation_length, NoDup_Permutation; [done| |].
      * apply NoDup_remove_dups.
      * intros i. by rewrite Hin, elem_of_remove_dups.
    + intros Hids e He.
      assert (Orchestrator.id e ∈ Orchestrator.id <$> AgentOrchestrator.executions plan)
        as Hid by (apply list_elem_of_fmap; by exists e).
      destruct (Hcmd _ (proj2 (Hin _) Hid)) as (e' & He' & Hc).
      destruct (first_with_id_known _ _ Hid) as (e'' & He'' & Hin'' & Hid'').
      rewrite He' in He''. injection He'' as <-.
      by rewrite (same_id_same_execution _ e e' Hids He Hin'').
  - destruct Hspec as [_ Hno]. exfalso. apply Hno.
    apply Forall_forall. intros i. apply Hin.
Qed.

Lemma created_plan_gives_commands_witness :
  ∃ plan commands,
    AgentOrchestrator.create_execution_plan 2 "now" "auth" "" two_dicts
    = AgentOrchestrator.Finished plan
    ∧ AgentOrchestrator.generate_claude_tasks (λ s, s) plan
      = AgentOrchestrator.Finished commands
    ∧ length commands
      = 2 * length (AgentOrchestrator.parallel_groups plan)
        + length (remove_dups (Orchestrator.id <$> AgentOrchestrator.executions plan))
    ∧ (NoDup (Orchestrator.id <$> AgentOrchestrator.executions plan) →
       ∀ e, e ∈ AgentOrchestrator.executions plan →
         AgentOrchestrator.task_command e ∈ commands).
Proof.
  eexists.
  destruct (created_plan_gives_commands 2 "now" "auth" "" two_dicts _ (λ s, s)
              eq_refl) as (commands & Hcommands).
  - simpl. lia.
  - exists commands. split; [reflexivity|]. exact Hcommands.
Defined.

(** ** Running a plan *)

Section chunk_facts.
Import AgentOrchestrator PyDict.
Context {A : Type}.
Implicit Types (l : list A).

Lemma py_slice_chunk l (k s : nat) :
  k ≤ length l →
  py_slice l (Z.of_nat k) (Z.of_nat k + Z.of_nat s) = take s (drop k l).
Proof.
  intros Hk. unfold py_slice, slice_index.
  rewrite !decide_False by lia. cbv zeta.
  rewrite Nat2Z.id, (Nat.min_l k) by done.
  replace (Z.to_nat (Z.of_nat k + Z.of_nat s)) with (k + s) by lia.
  destruct (decide (k + s ≤ length l)).
  - rewrite Nat.min_l by done. f_equal. lia.
  - rewrite Nat.min_r by lia.
    rewrite !take_ge; [done|rewrite length_drop; lia..].
Qed.

Lemma range_up_chunks l (s : nat) fuel (k : nat) :
  0 < s → length l - k ≤ fuel →
  let cs := (λ i, py_slice l i (i + Z.of_nat s)%Z)
              <$> range_up fuel (Z.of_nat k) (Z.of_nat (length l)) (Z.of_nat s) in
  concat cs = drop k l ∧ Forall (λ c, 0 < length c ≤ s) cs.
Proof.
  intros Hs. revert k. induction fuel as [|fuel IH]; intros k Hfuel; simpl.
  - rewrite drop_ge by lia. by split.
  - case_match eqn:Hlt.
    + apply Z.ltb_lt in Hlt. csimpl.
      destruct (IH (k + s)) as [Hcat Hall]; [lia|].
      replace (Z.of_nat (k + s)) with (Z.of_nat k + Z.of_nat s)%Z in Hcat, Hall by lia.
      rewrite Hcat, py_slice_chunk by lia. split.
      * by rewrite <-(drop_drop l s k), take_drop.
      * constructor; [|done]. rewrite length_take, length_drop. lia.
    + apply Z.ltb_ge in Hlt. rewrite drop_ge by lia. by split.
Qed.

Lemma chunks_positive l (size : Z) :
  (0 < size)%Z →
  ∃ cs, chunks l size = Finished cs
        ∧ concat cs = l
        ∧ Forall (λ c, 0 < length c ≤ Z.to_nat size) cs.
Proof.
  intros Hsize. unfold chunks, py_range.
  rewrite decide_False, decide_True by lia. simpl.
  eexists. split; [reflexivity|].
  pose proof (range_up_chunks l (Z.to_nat size) (Z.to_nat (Z.of_nat (length l) - 0)) 0)
    as Hrange.
  rewrite Z2Nat.id in Hrange by lia. apply Hrange; lia.
Qed.

Lemma chunks_zero l :
  chunks l 0 = Raises (ValueError "range() arg 3 must not be zero").
Proof. done. Qed.

Lemma chunks_negative l (size : Z) : (size < 0)%Z → chunks l size = Finished [].
Proof.
  intros Hsize. unfold chunks, py_range.
  rewrite !decide_False by lia. simpl.
  by replace (Z.to_nat (0 - Z.of_nat (length l))) with 0 by lia.
Qed.
End chunk_facts.

Section run_facts.
Import AgentOrchestrator PyDict.
Implicit Types (w : world) (env : surroundings) (e : Orchestrator.AgentExecution).

Lemma same_task_refl e : same_task e e.
Proof. by repeat split. Qed.

Lemma same_task_trans e1 e2 e3 : same_task e1 e2 → same_task e2 e3 → same_task e1 e3.
Proof. unfold same_task. intros (?&?&?&?&?) (?&?&?&?&?). split_and!; congruence. Qed.

Lemma same_tasks_refl (es : list Orchestrator.AgentExecution) : Forall2 same_task es es.
Proof. apply Forall_Forall2_diag, Forall_forall. intros e _. apply same_task_refl. Qed.

Lemma same_tasks_trans (es1 es2 es3 : list Orchestrator.AgentExecution) :
  Forall2 same_task es1 es2 → Forall2 same_task es2 es3 → Forall2 same_task es1 es3.
Proof.
  intros H12. revert es3. induction H12 as [|e1 e2 es1 es2 He _ IH]; intros es3 H23.
  - by apply Forall2_nil_inv_l in H23 as ->.
  - apply Forall2_cons_inv_l in H23 as (e3 & es3' & He' & H23 & ->).
    constructor; [by eapply same_task_trans|by apply IH].
Qed.

Lemma same_tasks_ids (es es' : list Orchestrator.AgentExecution) :
  Forall2 same_task es es' → Orchestrator.id <$> es' = Orchestrator.id <$> es.
Proof.
  induction 1 as [|e e' es es' He _ IH]; [done|]. csimpl. rewrite IH. f_equal. apply He.
Qed.

Lemma ran_nil w w' :
  objects w' = objects w → files w' = files w → ran [] w w'.
Proof.
  intros Ho Hf. unfold ran. rewrite Ho, Hf. split_and!; [done|apply same_tasks_refl|].
  intros i e e' He He'. split; [by intros ?%elem_of_nil|]. intros _. congruence.
Qed.

Lemma ran_trans indices1 indices2 w1 w2 w3 :
  ran indices1 w1 w2 → ran indices2 w2 w3 → ran (indices1 ++ indices2) w1 w3.
Proof.
  intros (Hf1 & Hs1 & Hr1) (Hf2 & Hs2 & Hr2). split_and!.
  - congruence.
  - by eapply same_tasks_trans.
  - intros i e e'' He He''.
    destruct (Forall2_lookup_l _ _ _ _ _ Hs1 He) as (e' & He' & _).
    destruct (Hr1 _ _ _ He He') as [Hin1 Hout1].
    destruct (Hr2 _ _ _ He' He'') as [Hin2 Hout2]. split.
    + intros Hi. destruct (decide (i ∈ indices2)) as [Hi2|Hi2]; [by apply Hin2|].
      rewrite (Hout2 Hi2). apply Hin1. apply elem_of_app in Hi as [|]; done.
    + intros Hi. rewrite Hout2, Hout1; [done|..]; intros ?; apply Hi, elem_of_app; eauto.
Qed.

Lemma ran_one i e e' w w' :
  objects w !! i = Some e → same_task e e' → has_run e' →
  objects w' = <[i := e']> (objects w) → files w' = files w →
  ran [i] w w'.
Proof.
  intros He Hsame Hrun Ho Hf. split_and!; [done| |].
  - rewrite Ho. apply Forall2_same_length_lookup. split; [by rewrite length_insert|].
    intros j x y Hx Hy. destruct (decide (i = j)) as [->|Hne].
    + rewrite list_lookup_insert_eq in Hy by (by eapply lookup_lt_Some). congruence.
    + rewrite list_lookup_insert_ne in Hy by done.
      replace y with x by congruence. apply same_task_refl.
  - intros j x y Hx Hy. rewrite Ho in Hy. destruct (decide (i = j)) as [->|Hne].
    + rewrite list_lookup_insert_eq in Hy by (by eapply lookup_lt_Some).
      injection Hy as <-. split; [done|]. intros Hno. exfalso. apply Hno. left.
    + rewrite list_lookup_insert_ne in Hy by done. split; [|congruence].
      by intros ?%list_elem_of_singleton.
Qed.

Lemma simulate_runs env i w e :
  objects w !! i = Some e →
  ∃ r w', _simulate_agent_execution env i w = (Finished r, w')
          ∧ ran [i] w w' ∧ reports (objects w) i r.
Proof.
  intros He. unfold _simulate_agent_execution, mbind, Sim_bind, get_object.
  rewrite He. simpl.
  rewrite list_lookup_insert_eq by (by eapply lookup_lt_Some). simpl.
  eexists _, _. split; [reflexivity|]. split.
  - eapply (ran_one i e);
      only 4: (simpl; by rewrite list_insert_insert_eq); [done| | |done].
    + by repeat split.
    + match goal with |- context [PrimFloat.ltb ?a ?b] => destruct (PrimFloat.ltb a b) end;
        (split; [|by split_and!; eexists]); [left|right]; done.
  - exists e. split; [done|]. simpl. split; [done|].
    match goal with |- context [PrimFloat.ltb ?a ?b] => destruct (PrimFloat.ltb a b) end;
      [left|right]; done.
Qed.

Lemma reports_same (es es' : list Orchestrator.AgentExecution) i r :
  Forall2 same_task es es' → reports es' i r → reports es i r.
Proof.
  intros Hs (e' & He' & Hid & Hst).
  destruct (Forall2_lookup_r _ _ _ _ _ Hs He') as (e & He & Hsame).
  exists e. split_and!; [done| |done]. rewrite Hid. apply Hsame.
Qed.

Lemma chunk_runs env indices w :
  Forall (λ i, i < length (objects w)) indices →
  ∃ rs w', _execute_parallel_chunk env indices w = (Finished rs, w')
           ∧ ran indices w w' ∧ Forall2 (reports (objects w)) indices rs.
Proof.
  revert w. induction indices as [|i indices IH]; intros w Hlt.
  - exists [], w. split_and!; [done|by apply ran_nil|constructor].
  - apply Forall_cons in Hlt as [Hi Hlt].
    destruct (lookup_lt_is_Some_2 _ _ Hi) as [e He].
    destruct (simulate_runs env i w e He) as (r & w1 & Hsim & Hran1 & Hrep).
    destruct (IH w1) as (rs & w2 & Hrest & Hran2 & Hreps).
    { destruct Hran1 as (_ & Hs & _). by rewrite <-(Forall2_length _ _ _ Hs). }
    exists (r :: rs), w2. split_and!.
    + simpl. unfold mbind, Sim_bind. by rewrite Hsim, Hrest.
    + by apply (ran_trans [i] indices w w1 w2).
    + constructor; [done|].
      eapply Forall2_impl; [exact Hreps|]. intros j r'. apply reports_same.
      by destruct Hran1 as (_ & Hs & _).
Qed.

Lemma chunk_app env indices1 indices2 w :
  _execute_parallel_chunk env (indices1 ++ indices2) w
  = (rs1 ← _execute_parallel_chunk env indices1;
     rs2 ← _execute_parallel_chunk env indices2;
     mret (rs1 ++ rs2)) w.
Proof.
  unfold mbind, Sim_bind, mret, Sim_ret.
  revert w. induction indices1 as [|i indices1 IH]; intros w; simpl;
    unfold mbind, Sim_bind, mret, Sim_ret.
  - by destruct (_execute_parallel_chunk env indices2 w) as [[rs| |] w'].
  - destruct (_simulate_agent_execution env i w) as [[r| |] w1]; [|done..].
    rewrite IH.
    destruct (_execute_parallel_chunk env indices1 w1) as [[rs1| |] w2]; [|done..].
    by destruct (_execute_parallel_chunk env indices2 w2) as [[rs2| |] w3].
Qed.

Lemma run_chunks_concat env (cs : list (list nat)) w :
  run_chunks env cs w = _execute_parallel_chunk env (concat cs) w.
Proof.
  revert w. induction cs as [|c cs IH]; intros w; [done|].
  simpl. rewrite chunk_app. unfold mbind, Sim_bind.
  destruct (_execute_parallel_chunk env c w) as [[rs| |] w1]; [|done..].
  by rewrite IH.
Qed.

Lemma positions_shift (P : Orchestrator.AgentExecution → Prop)
    `{!∀ e, Decision (P e)} (g : nat → nat) (es : list Orchestrator.AgentExecution) :
  (filter (λ ie : nat * Orchestrator.AgentExecution, P ie.2)
     (imap (λ i e, (g i, e)) es)).*1
  = g <$> (filter (λ ie : nat * Orchestrator.AgentExecution, P ie.2)
             (imap (λ i e, (i, e)) es)).*1.
Proof.
  revert g. induction es as [|e es IH]; intros g; [done|].
  rewrite !imap_cons.
  change (imap ((λ i e, (g i, e)) ∘ S) es) with (imap (λ i e, ((g ∘ S) i, e)) es).
  change (imap ((λ i (e : Orchestrator.AgentExecution), (i, e)) ∘ S) es)
    with (imap (λ i e, (S i, e)) es).
  rewrite !filter_cons. cbn [snd].
  destruct (decide (P e)); rewrite ?fmap_cons; cbn [fst];
    rewrite (IH (g ∘ S)), (IH S), <-!list_fmap_compose; done.
Qed.

Lemma in_stage_cons ids e (es : list Orchestrator.AgentExecution) :
  in_stage ids (e :: es)
  = (if decide (Orchestrator.id e ∈ ids) then [0] else []) ++ (S <$> in_stage ids es).
Proof.
  unfold in_stage. rewrite imap_cons, filter_cons. cbn [snd].
  change (imap ((λ i (e : Orchestrator.AgentExecution), (i, e)) ∘ S) es)
    with (imap (λ i e, (S i, e)) es).
  pose proof (positions_shift (λ e, Orchestrator.id e ∈ ids) S es) as Hshift.
  cbv beta in Hshift.
  destruct (decide (Orchestrator.id e ∈ ids)); rewrite ?fmap_cons; cbn [fst];
    by rewrite Hshift.
Qed.

Lemma elem_of_in_stage ids (es : list Orchestrator.AgentExecution) i :
  i ∈ in_stage ids es ↔ ∃ e, es !! i = Some e ∧ Orchestrator.id e ∈ ids.
Proof.
  revert i. induction es as [|e es IH]; intros i.
  - split; [by intros ?%elem_of_nil|]. by intros (? & ? & _).
  - rewrite in_stage_cons, elem_of_app, list_elem_of_fmap. split.
    + intros [Hi|(j & -> & Hj)].
      * destruct (decide _); [|by apply elem_of_nil in Hi].
        apply list_elem_of_singleton in Hi as ->. by exists e.
      * by apply IH in Hj.
    + intros (e' & He' & Hid). destruct i as [|i]; simpl in He'.
      * injection He' as <-. left. rewrite decide_True by done. left.
      * right. exists i. split; [done|]. apply IH. by exists e'.
Qed.

Lemma in_stage_lt ids (es : list Orchestrator.AgentExecution) :
  Forall (λ i, i < length es) (in_stage ids es).
Proof.
  apply Forall_forall. intros i (e & He & _)%elem_of_in_stage.
  by eapply lookup_lt_Some.
Qed.

Lemma length_in_stage ids (es : list Orchestrator.AgentExecution) :
  length (in_stage ids es) = length (filter (λ e, Orchestrator.id e ∈ ids) es).
Proof.
  induction es as [|e es IH]; [done|].
  rewrite in_stage_cons, filter_cons, length_app, length_fmap, IH.
  by destruct (decide _).
Qed.

Lemma in_stage_same ids (es es' : list Orchestrator.AgentExecution) :
  Forall2 same_task es es' → in_stage ids es' = in_stage ids es.
Proof.
  induction 1 as [|e e' es es' He _ IH]; [done|].
  rewrite !in_stage_cons, IH. destruct He as [-> _]. done.
Qed.

Lemma count_results_reported rs completed failed skipped :
  Forall (λ r, r_status r = "completed" ∨ r_status r = "failed") rs →
  ∃ completed' failed',
    count_results rs (completed, failed, skipped) = (completed', failed', skipped)
    ∧ completed' + failed' = completed + failed + length rs.
Proof.
  intros Hrs. revert completed failed.
  induction Hrs as [|r rs Hr _ IH]; intros completed failed; simpl.
  - eexists _, _. split; [done|lia].
  - destruct Hr as [Hr|Hr]; rewrite Hr; simpl.
    + destruct (IH (S completed) failed) as (c & f & -> & Hsum).
      eexists _, _. split; [done|lia].
    + destruct (IH completed (S failed)) as (c & f & -> & Hsum).
      eexists _, _. split; [done|lia].
Qed.

Lemma ran_eq indices w1 w1' w2 w2' :
  objects w1' = objects w1 → files w1' = files w1 →
  objects w2' = objects w2 → files w2' = files w2 →
  ran indices w1 w2 → ran indices w1' w2'.
Proof. unfold ran. by intros -> -> -> ->. Qed.

Lemma run_stages_cons env m stage_name ids groups acc w :
  run_stages env m ((stage_name, ids) :: groups) acc w
  = let w1 := (time_time env w).2 in
    match chunks (in_stage ids (objects w1)) m with
    | Finished cs =>
        match run_chunks env cs w1 with
        | (Finished rs, w2) =>
            run_stages env m groups
              (setitem stage_name
                 {| stage_executions := length ids;
                    stage_duration :=
                      PrimFloat.sub (time env (time_reads w2)) (time env (time_reads w));
                    stage_results_list := rs |} acc.1,
               count_results rs acc.2)
              (time_time env w2).2
        | (Raises e, w2) => (Raises e, w2)
        | (Unfinished, w2) => (Unfinished, w2)
        end
    | Raises e => (Raises e, w1)
    | Unfinished => (Unfinished, w1)
    end.
Proof.
  simpl. unfold mbind, Sim_bind, lift. simpl.
  destruct (chunks _ m) as [cs| |]; [|done..].
  by destruct (run_chunks env cs _) as [[rs| |] w2].
Qed.

Lemma run_stages_positive env m groups acc w :
  (0 < m)%Z →
  ∃ acc' w',
    run_stages env m groups acc w = (Finished acc', w')
    ∧ ran (concat ((λ group, in_stage group.2 (objects w)) <$> groups)) w w'
    ∧ (∀ stage_name, stage_name ∈ keys acc'.1
         ↔ stage_name ∈ keys acc.1 ∨ stage_name ∈ keys groups)
    ∧ acc'.2.2 = acc.2.2
    ∧ acc'.2.1.1 + acc'.2.1.2
      = acc.2.1.1 + acc.2.1.2
        + length (concat ((λ group, in_stage group.2 (objects w)) <$> groups)).
Proof.
  intros Hm. revert acc w.
  induction groups as [|[stage_name ids] groups IH]; intros acc w.
  - exists acc, w. split_and!; [done|by apply ran_nil| |done|simpl; lia].
    intros stage_name. split; [by left|]. by intros [?|?%elem_of_nil].
  - rewrite run_stages_cons. cbv zeta.
    set (w1 := (time_time env w).2).
    destruct (chunks_positive (in_stage ids (objects w1)) m Hm) as (cs & -> & Hcat & _).
    rewrite run_chunks_concat, Hcat.
    destruct (chunk_runs env (in_stage ids (objects w1)) w1)
      as (rs & w2 & -> & Hran & Hreps); [apply in_stage_lt|].
    set (acc1 := (setitem stage_name _ acc.1, count_results rs acc.2)).
    destruct (IH acc1 (time_time env w2).2)
      as (acc' & w' & -> & Hran' & Hkeys & Hskipped & Hsum).
    assert (Forall2 same_task (objects w) (objects w2)) as Hsame
      by (by destruct Hran as (_ & ? & _)).
    assert ((λ group : string * list string,
               in_stage group.2 (objects (time_time env w2).2)) <$> groups
            = (λ group, in_stage group.2 (objects w)) <$> groups) as Hstages.
    { apply list_fmap_ext. intros _ group _. by apply in_stage_same. }
    rewrite Hstages in Hran', Hsum.
    destruct acc as [results [[completed failed] skipped]].
    destruct (count_results_reported rs completed failed skipped)
      as (completed' & failed' & Hcount & Hcounted).
    { eapply Forall_forall. intros r Hr.
      apply list_elem_of_lookup in Hr as [j Hj].
      destruct (Forall2_lookup_r _ _ _ _ _ Hreps Hj) as (i & _ & e & _ & _ & Hst).
      exact Hst. }
    exists acc', w'. split_and!; [done| | | |].
    + csimpl. apply (ran_trans _ _ w w2 w'); [|by eapply ran_eq; [..|exact Hran']].
      by eapply ran_eq; [..|exact Hran].
    + intros name. rewrite Hkeys. unfold acc1. simpl.
      rewrite elem_of_keys_setitem.
      change (keys ((stage_name, ids) :: groups)) with (stage_name :: keys groups).
      rewrite elem_of_cons. naive_solver.
    + rewrite Hskipped. unfold acc1. simpl. by rewrite Hcount.
    + rewrite Hsum. unfold acc1. simpl. rewrite Hcount. csimpl.
      pose proof (Forall2_length _ _ _ Hreps) as Hlen.
      rewrite length_app. simpl in *. lia.
Qed.

Lemma run_stages_any_size env m groups acc w :
  (0 < m)%Z → run_stages env m groups acc w = run_stages env 1 groups acc w.
Proof.
  intros Hm. revert acc w.
  induction groups as [|[stage_name ids] groups IH]; intros acc w; [done|].
  rewrite !run_stages_cons. cbv zeta.
  destruct (chunks_positive (in_stage ids (objects (time_time env w).2)) m Hm)
    as (cs & -> & Hcat & _).
  destruct (chunks_positive (in_stage ids (objects (time_time env w).2)) 1)
    as (cs1 & -> & Hcat1 & _); [lia|].
  rewrite !run_chunks_concat, Hcat, Hcat1.
  destruct (_execute_parallel_chunk _ _ _) as [[rs| |] w2]; [|done..].
  apply IH.
Qed.

Lemma run_stages_zero env stage_name ids groups acc w :
  ∃ w', run_stages env 0 ((stage_name, ids) :: groups) acc w
        = (Raises (ValueError "range() arg 3 must not be zero"), w')
        ∧ objects w' = objects w ∧ files w' = files w.
Proof. rewrite run_stages_cons. cbv zeta. rewrite chunks_zero. by eexists. Qed.

Lemma run_stages_negative env m groups acc w :
  (m < 0)%Z →
  ∃ results w',
    run_stages env m groups acc w = (Finished (results, acc.2), w')
    ∧ objects w' = objects w ∧ files w' = files w
    ∧ (Forall (λ stage, stage_results_list stage = []) (values acc.1) →
       Forall (λ stage, stage_results_list stage = []) (values results)).
Proof.
  intros Hm. revert acc w.
  induction groups as [|[stage_name ids] groups IH]; intros acc w.
  - destruct acc as [results counts]. by exists results, w.
  - rewrite run_stages_cons. cbv zeta. rewrite chunks_negative by done. simpl.
    edestruct IH as (results & w' & -> & Ho & Hf & Hempty).
    exists results, w'. split_and!; [done..|]. simpl in *.
    intros Hacc. apply Hempty. clear -Hacc. unfold values in *.
    induction acc.1 as [|[k v] d IHd]; simpl.
    + by repeat constructor.
    + apply Forall_cons in Hacc as [Hv Hd].
      destruct (decide (k = stage_name)); csimpl; constructor; try done. by apply IHd.
Qed.

Lemma length_filter_either {X : Type} (P Q : X → Prop)
    `{!∀ x, Decision (P x), !∀ x, Decision (Q x)} (l : list X) :
  (∀ x, P x → Q x → False) →
  length (filter (λ x, P x ∨ Q x) l) = length (filter P l) + length (filter Q l).
Proof.
  intros Hdisj. induction l as [|x l IH]; [done|].
  rewrite !filter_cons.
  destruct (decide (P x)), (decide (Q x)), (decide (P x ∨ Q x)); simpl;
    try lia; naive_solver.
Qed.

Lemma length_stagewise (groups : list (list string))
    (es : list Orchestrator.AgentExecution) :
  NoDup (concat groups) →
  length (concat ((λ ids, in_stage ids es) <$> groups))
  = length (filter (λ e, Orchestrator.id e ∈ concat groups) es).
Proof.
  induction groups as [|ids groups IH]; intros Hnd; csimpl.
  - induction es as [|e es IHes]; [done|]. rewrite filter_cons.
    destruct (decide _) as [[]%elem_of_nil|]; done.
  - apply NoDup_app in Hnd as (_ & Hdisj & Hnd).
    rewrite length_app, length_in_stage, IH by done.
    rewrite <-(length_filter_either (λ e, Orchestrator.id e ∈ ids)
                 (λ e, Orchestrator.id e ∈ concat groups)) by (intros e; apply Hdisj).
    f_equal. apply list_filter_iff. intros e. by rewrite elem_of_app.
Qed.
End run_facts.

Section execute_facts.
Import AgentOrchestrator PyDict.

Lemma execute_plan_stages env logs_dir plan m w :
  let w0 := {|
    clock_reads := S (clock_reads w); time_reads := S (time_reads w);
    uniform_draws := uniform_draws w; random_draws := random_draws w;
    objects := executions plan; files := files w |} in
  execute_plan env logs_dir plan m w
  = match run_stages env m (items (parallel_groups plan)) ([], (0, 0, 0)) w0 with
    | (Finished (stage_results, (completed, failed, skipped)), w1) =>
        let results := {|
          plan_name := name plan;
          start_time := now_iso env (clock_reads w);
          end_time := Some (now_iso env (clock_reads w1));
          total_duration :=
            PrimFloat.sub (time env (time_reads w1)) (time env (time_reads w));
          total_tasks := length (executions plan);
          completed_tasks := completed;
          failed_tasks := failed;
          skipped_tasks := skipped;
          stage_results := stage_results |} in
        (Finished results,
         {| clock_reads := S (S (S (clock_reads w1)));
            time_reads := S (time_reads w1);
            uniform_draws := uniform_draws w1; random_draws := random_draws w1;
            objects := objects w1;
            files :=
              setitem (log_path logs_dir (now_stamp env (S (clock_reads w1))))
                {| log_plan := {|
                     name := name plan;
                     description := description plan;
                     executions := objects w1;
                     parallel_groups := parallel_groups plan;
                     created_at := created_at plan;
                     estimated_duration := estimated_duration plan |};
                   log_results := results;
                   log_timestamp := now_iso env (S (S (clock_reads w1))) |}
                (files w1) |})
    | (Raises e, w1) => (Raises e, w1)
    | (Unfinished, w1) => (Unfinished, w1)
    end.
Proof.
  unfold execute_plan, mbind, Sim_bind. simpl.
  destruct (run_stages _ _ _ _ _) as [[[results [[completed failed] skipped]]| |] w1];
    done.
Qed.

Lemma elem_of_runs plan i :
  i ∈ runs plan
  ↔ ∃ e, executions plan !! i = Some e
         ∧ Orchestrator.id e ∈ concat (values (parallel_groups plan)).
Proof.
  unfold runs, items, values. generalize (executions plan). intros es.
  induction (parallel_groups plan) as [|[stage_name ids] groups IH]; csimpl.
  - split; [by intros ?%elem_of_nil|]. by intros (_ & _ & ?%elem_of_nil).
  - rewrite !elem_of_app, IH, elem_of_in_stage. setoid_rewrite elem_of_app.
    naive_solver.
Qed.

Lemma length_runs plan :
  NoDup (concat (values (parallel_groups plan))) →
  (∀ e, e ∈ executions plan →
     Orchestrator.id e ∈ concat (values (parallel_groups plan))) →
  length (runs plan) = length (executions plan).
Proof.
  intros Hnd Hall. unfold runs, items.
  pose proof (length_stagewise (values (parallel_groups plan)) (executions plan) Hnd)
    as Hlen.
  unfold values in Hlen. rewrite <-list_fmap_compose in Hlen.
  etrans; [exact Hlen|]. f_equal.
  clear -Hall. induction (executions plan) as [|e es IH]; [done|].
  rewrite filter_cons, decide_True by (apply Hall; left).
  f_equal. apply IH. intros e' He'. apply Hall. by right.
Qed.

Lemma execute_plan_positive env logs_dir plan m w :
  (0 < m)%Z →
  ∃ r w',
    execute_plan env logs_dir plan m w = (Finished r, w')
    ∧ Forall2 same_task (executions plan) (objects w')
    ∧ (∀ i e e', executions plan !! i = Some e → objects w' !! i = Some e' →
         (i ∈ runs plan → has_run e') ∧ (i ∉ runs plan → e' = e))
    ∧ (∃ path data,
         files w' = setitem path data (files w)
         ∧ executions (log_plan data) = objects w'
         ∧ log_results data = r)
    ∧ total_tasks r = length (executions plan)
    ∧ skipped_tasks r = 0
    ∧ completed_tasks r + failed_tasks r = length (runs plan)
    ∧ ∀ stage_name, stage_name ∈ keys (stage_results r)
        ↔ stage_name ∈ keys (parallel_groups plan).
Proof.
  intros Hm. rewrite execute_plan_stages. cbv zeta.
  set (w0 := {| objects := executions plan |}).
  destruct (run_stages_positive env m (items (parallel_groups plan)) ([], (0, 0, 0)) w0 Hm)
    as ([results [[completed failed] skipped]] & w1 & -> & Hran & Hkeys & Hskipped & Hsum).
  destruct Hran as (Hfiles & Hsame & Hrun). simpl in *.
  eexists _, _. split; [reflexivity|]. simpl. split_and!; [done|done| |done|done|done|].
  - eexists _, _. rewrite Hfiles. by split_and!.
  - intros stage_name. rewrite Hkeys. split; [|by right].
    by intros [?%elem_of_nil|].
Qed.
End execute_facts.

Section execute_properties.
Import AgentOrchestrator PyDict.

(** X18. The chunks [execute_plan] cuts a stage into, for a positive
    [max_parallel]: taken together they are the executions of the stage in
    their order, none is empty and none has more than [max_parallel]
    members. *)
Theorem chunks_cover_the_stage_in_order {A : Type} (l : list A) (size : Z) :
  (0 < size)%Z →
  ∃ cs, chunks l size = Finished cs
        ∧ concat cs = l
        ∧ Forall (λ c, 0 < length c ≤ Z.to_nat size) cs.
Proof. apply chunks_positive. Qed.

Lemma chunks_cover_the_stage_in_order_witness :
  ∃ cs, chunks [1; 2; 3; 4; 5] 2 = Finished cs
        ∧ concat cs = [1; 2; 3; 4; 5]
        ∧ Forall (λ c, 0 < length c ≤ Z.to_nat 2) cs.
Proof. apply (chunks_cover_the_stage_in_order [1; 2; 3; 4; 5] 2). lia. Defined.

(** X19. A positive [max_parallel] has no effect on what [execute_plan]
    returns, on the executions or on the log: the chunks of a stage run one
    after the other, so the run is the one with [max_parallel = 1]. *)
Theorem max_parallel_is_immaterial env logs_dir plan (max_parallel : Z) w :
  (0 < max_parallel)%Z →
  execute_plan env logs_dir plan max_parallel w = execute_plan env logs_dir plan 1 w.
Proof.
  intros Hm. rewrite !execute_plan_stages. cbv zeta.
  by rewrite (run_stages_any_size env max_parallel).
Qed.

Lemma max_parallel_is_immaterial_witness :
  execute_plan steady "logs" auth_plan 3 before_run
  = execute_plan steady "logs" auth_plan 1 before_run.
Proof. apply (max_parallel_is_immaterial steady "logs" auth_plan 3 before_run). lia. Defined.

(** X20. With [max_parallel = 0] and a plan of at least one stage,
    [execute_plan] raises ValueError at the first stage: no execution has
    been touched and no log is written. *)
Theorem zero_max_parallel_raises env logs_dir plan w :
  parallel_groups plan ≠ [] →
  ∃ w', execute_plan env logs_dir plan 0 w
        = (Raises (ValueError "range() arg 3 must not be zero"), w')
        ∧ objects w' = executions plan
        ∧ files w' = files w.
Proof.
  intros Hstages. rewrite execute_plan_stages. cbv zeta. unfold items.
  destruct (parallel_groups plan) as [|[stage_name ids] groups]; [done|].
  edestruct run_stages_zero as (w' & -> & Ho & Hf). by exists w'.
Qed.

Lemma zero_max_parallel_raises_witness :
  ∃ w', execute_plan steady "logs" auth_plan 0 before_run
        = (Raises (ValueError "range() arg 3 must not be zero"), w')
        ∧ objects w' = executions auth_plan
        ∧ files w' = files before_run.
Proof. apply (zero_max_parallel_raises steady "logs" auth_plan before_run). done. Defined.

(** X21. With a negative [max_parallel], [execute_plan] runs nothing and
    still reports a finished run: it returns with no task completed, failed
    or skipped, every stage has an empty result list, the executions are as
    they were, and the log is written. *)
Theorem negative_max_parallel_runs_nothing env logs_dir plan (max_parallel : Z) w :
  (max_parallel < 0)%Z →
  ∃ r w',
    execute_plan env logs_dir plan max_parallel w = (Finished r, w')
    ∧ total_tasks r = length (executions plan)
    ∧ completed_tasks r = 0 ∧ failed_tasks r = 0 ∧ skipped_tasks r = 0
    ∧ Forall (λ stage, stage_results_list stage = []) (values (stage_results r))
    ∧ objects w' = executions plan
    ∧ ∃ path data,
        files w' = setitem path data (files w)
        ∧ executions (log_plan data) = executions plan
        ∧ log_results data = r.
Proof.
  intros Hm. rewrite execute_plan_stages. cbv zeta.
  set (w0 := {| objects := executions plan |}).
  destruct (run_stages_negative env max_parallel (items (parallel_groups plan))
              ([], (0, 0, 0)) w0 Hm) as (results & w1 & -> & Ho & Hf & Hempty).
  simpl in *. eexists _, _. split; [reflexivity|]. simpl.
  split_and!; [done..|by apply Hempty|done|].
  eexists _, _. rewrite Hf, Ho. by split_and!.
Qed.

Lemma negative_max_parallel_runs_nothing_witness :
  ∃ r w',
    execute_plan steady "logs" auth_plan (-1) before_run = (Finished r, w')
    ∧ total_tasks r = length (executions auth_plan)
    ∧ completed_tasks r = 0 ∧ failed_tasks r = 0 ∧ skipped_tasks r = 0
    ∧ Forall (λ stage, stage_results_list stage = []) (values (stage_results r))
    ∧ objects w' = executions auth_plan
    ∧ ∃ path data,
        files w' = setitem path data (files before_run)
        ∧ executions (log_plan data) = executions auth_plan
        ∧ log_results data = r.
Proof.
  apply (negative_max_parallel_runs_nothing steady "logs" auth_plan (-1) before_run). lia.
Defined.

(** X22. For every plan and every positive [max_parallel], [execute_plan]
    returns. It reports as many tasks as the plan has executions and none
    skipped; completed and failed together count one run for every
    execution and stage such that the stage lists the execution's id; and
    the stage results have the stage names of the plan as keys. *)
Theorem run_counts_one_result_per_listing env logs_dir plan (max_parallel : Z) w :
  (0 < max_parallel)%Z →
  ∃ r w',
    execute_plan env logs_dir plan max_parallel w = (Finished r, w')
    ∧ total_tasks r = length (executions plan)
    ∧ skipped_tasks r = 0
    ∧ completed_tasks r + failed_tasks r = length (runs plan)
    ∧ ∀ stage_name, stage_name ∈ keys (stage_results r)
        ↔ stage_name ∈ keys (parallel_groups plan).
Proof.
  intros Hm.
  destruct (execute_plan_positive env logs_dir plan max_parallel w Hm)
    as (r & w' & Hrun & _ & _ & _ & Htotal & Hskipped & Hsum & Hkeys).
  by exists r, w'.
Qed.

Lemma run_counts_one_result_per_listing_witness :
  ∃ r w',
    execute_plan steady "logs" auth_plan 3 before_run = (Finished r, w')
    ∧ total_tasks r = length (executions auth_plan)
    ∧ skipped_tasks r = 0
    ∧ completed_tasks r + failed_tasks r = length (runs auth_plan)
    ∧ ∀ stage_name, stage_name ∈ keys (stage_results r)
        ↔ stage_name ∈ keys (parallel_groups auth_plan).
Proof.
  apply (run_counts_one_result_per_listing steady "logs" auth_plan 3 before_run). lia.
Defined.

(** X23. What a run with a positive [max_parallel] does to the executions
    and the log. No execution changes its id, agent type, description,
    prompt or dependencies; an execution whose id some stage lists ends
    COMPLETED with its result set or FAILED with its error set, and has its
    start time, end time and duration set; an execution whose id no stage
    lists is left as it was. One log file is written; it holds the
    executions as they are at the end and the returned results. *)
Theorem run_touches_listed_executions_only env logs_dir plan (max_parallel : Z) w :
  (0 < max_parallel)%Z →
  ∃ r w',
    execute_plan env logs_dir plan max_parallel w = (Finished r, w')
    ∧ Forall2 same_task (executions plan) (objects w')
    ∧ (∀ i e e', executions plan !! i = Some e → objects w' !! i = Some e' →
         if decide (Orchestrator.id e ∈ concat (values (parallel_groups plan)))
         then has_run e' else e' = e)
    ∧ ∃ path data,
        files w' = setitem path data (files w)
        ∧ executions (log_plan data) = objects w'
        ∧ log_results data = r.
Proof.
  intros Hm.
  destruct (execute_plan_positive env logs_dir plan max_parallel w Hm)
    as (r & w' & Hrun & Hsame & Hran & Hlog & _).
  exists r, w'. split_and!; [done..| |done].
  intros i e e' He He'. destruct (Hran i e e' He He') as [Hin Hout].
  destruct (decide _) as [Hid|Hid].
  - apply Hin, elem_of_runs. by exists e.
  - apply Hout. intros (e0 & He0 & Hid0)%elem_of_runs. congruence.
Qed.

Lemma run_touches_listed_executions_only_witness :
  ∃ r w',
    execute_plan steady "logs" auth_plan 3 before_run = (Finished r, w')
    ∧ Forall2 same_task (executions auth_plan) (objects w')
    ∧ (∀ i e e', executions auth_plan !! i = Some e → objects w' !! i = Some e' →
         if decide (Orchestrator.id e ∈ concat (values (parallel_groups auth_plan)))
         then has_run e' else e' = e)
    ∧ ∃ path data,
        files w' = setitem path data (files before_run)
        ∧ executions (log_plan data) = objects w'
        ∧ log_results data = r.
Proof.
  apply (run_touches_listed_executions_only steady "logs" auth_plan 3 before_run). lia.
Defined.

(** X24. Creating a plan and running it with a positive [max_parallel]:
    every execution is run exactly once, so completed and failed tasks add
    up to the total, none is skipped, and afterwards every execution is
    COMPLETED or FAILED. *)
Theorem created_plan_runs_every_execution_once
    fuel now name description dicts plan env logs_dir (max_parallel : Z) w :
  create_execution_plan fuel now name description dicts = Finished plan →
  length dicts ≤ fuel →
  (0 < max_parallel)%Z →
  ∃ r w',
    execute_plan env logs_dir plan max_parallel w = (Finished r, w')
    ∧ total_tasks r = length dicts
    ∧ completed_tasks r + failed_tasks r = total_tasks r
    ∧ skipped_tasks r = 0
    ∧ length (objects w') = length dicts
    ∧ Forall has_run (objects w').
Proof.
  intros Hplan Hfuel Hm.
  destruct (created_plan _ _ _ _ _ _ Hplan Hfuel) as (Hes & Hpg & _).
  destruct (staged_ids (executions plan)) as [Hnd Hin].
  rewrite <-(values_labelled 0 (stages _ _ _)), <-Hpg in Hnd, Hin.
  assert (∀ e, e ∈ executions plan →
            Orchestrator.id e ∈ concat (values (parallel_groups plan))) as Hall.
  { intros e He. apply Hin, list_elem_of_fmap. by exists e. }
  destruct (execute_plan_positive env logs_dir plan max_parallel w Hm)
    as (r & w' & Hrun & Hsame & Hran & _ & Htotal & Hskipped & Hsum & _).
  pose proof (length_new_executions _ _ _ Hes) as Hlen.
  exists r, w'. split_and!; [done|congruence| |done| |].
  - by rewrite Hsum, Htotal, length_runs.
  - by rewrite <-(Forall2_length _ _ _ Hsame).
  - apply Forall_forall. intros e' [i He']%list_elem_of_lookup.
    destruct (Forall2_lookup_r _ _ _ _ _ Hsame He') as (e & He & _).
    apply (Hran i e e' He He'), elem_of_runs. exists e. split; [done|].
    apply Hall. by eapply list_elem_of_lookup_2.
Qed.

Lemma created_plan_runs_every_execution_once_witness :
  ∃ plan r w',
    create_execution_plan 2 "now" "auth" "" two_dicts = Finished plan
    ∧ execute_plan steady "logs" plan 3 before_run = (Finished r, w')
    ∧ total_tasks r = length two_dicts
    ∧ completed_tasks r + failed_tasks r = total_tasks r
    ∧ skipped_tasks r = 0
    ∧ length (objects w') = length two_dicts
    ∧ Forall has_run (objects w').
Proof.
  eexists.
  destruct (created_plan_runs_every_execution_once 2 "now" "auth" "" two_dicts _
              steady "logs" 3 before_run eq_refl) as (r & w' & Hrun).
  - simpl. lia.
  - lia.
  - exists r, w'. split; [reflexivity|]. exact Hrun.
Defined.
End execute_properties.
